(** * custom_vector.h : RawMemory<T> and Vector<T>

    A shallow embedding of the two class templates of [custom_vector.h]
    and of the standard algorithms they call, as programs over an explicit
    memory, followed by the properties of the container.

    - A storage block obtained from [operator new] is a list of slots; a
      slot is raw memory or holds a constructed object.  A [T*] is null or
      a block together with an index into it.
    - [Vector] objects live in a store indexed by their address, so that
      [this != &other_] and [Swap] between two objects, or an object and
      itself, are what they are in the source.
    - Every operation that may throw (an allocation, a constructor, an
      assignment) takes the next tick of a clock and throws when the fault
      schedule says so; the schedule is arbitrary.
    - An operation outside its precondition (a failed [assert], an access
      to raw memory, [operator delete] on a pointer that [operator new]
      never returned) is undefined.
    - The data model is LP64: [size_t] has 64 bits and [int] 32.  The
      product [n_ * sizeof(T)] of [Allocate] wraps as it does in [size_t],
      and a block has room for as many objects as the bytes requested
      hold; the position that [Emplace] and [Erase] keep in an [int] is the
      pointer difference narrowed to 32 bits.  Sizes and capacities are
      natural numbers: they count the slots of a block, and [size * 2] and
      [Capacity() * 2] are taken without wrap. *)

From stdpp Require Import base option list gmap.

(** ** The element type *)

(** What the container asks of its template argument [T]: the value a
    value-initialised object has, the state a move leaves its source in,
    and the two traits tested by [if constexpr]. *)
Class ElementType (T : Type) := {
  default_value : T;
  moved_from : T -> T;
  is_nothrow_move_constructible : bool;
  is_copy_constructible : bool;
  sizeof_T : positive
}.

(** The comparisons of [T] used by the comparison operators. *)
Class Comparable (T : Type) := {
  elt_eq : T -> T -> bool;
  elt_lt : T -> T -> bool;
  elt_cmp : T -> T -> comparison
}.

(** ** Integer types *)

(** [SIZE_MAX + 1]: [size_t] has 64 bits *)
Definition size_t_modulus : N := 18446744073709551616.

(** [a * b] in [size_t] *)
Definition size_t_mul (a b : N) : N := (a * b) mod size_t_modulus.

(** [INT_MAX + 1]: [int] has 32 bits *)
Definition int_modulus : Z := 2147483648.

(** A [ptrdiff_t] narrowed to [int] *)
Definition to_int (d : Z) : Z :=
  ((d + int_modulus) mod (2 * int_modulus) - int_modulus)%Z.

(** An [int] given as the count of [std::uninitialized_copy_n] or
    [std::uninitialized_move_n], whose loop runs while the count is
    positive: nothing is done for a negative one *)
Definition int_count (z : Z) : nat := Z.to_nat z.

(** An [int] converted to [size_t] *)
Definition int_to_size_t (z : Z) : nat :=
  Z.to_nat (z mod Z.of_N size_t_modulus).

(** [a - b] in [size_t] *)
Definition size_t_sub (a b : nat) : nat :=
  if decide (b ≤ a) then a - b
  else Z.to_nat (Z.of_N size_t_modulus - Z.of_nat (b - a)).

(** ** Memory *)

Inductive slot (T : Type) : Type :=
| Raw
| Obj (v : T).
Arguments Raw {T}.
Arguments Obj {T} v.

(** A [T*]: null, slot [i] of block [b] (or one past its last slot), or
    the result of arithmetic that left its block: such a pointer can be
    neither dereferenced nor compared. *)
Inductive ptr : Type :=
| nullptr
| Ptr (b : nat) (i : nat)
| wild.

#[global] Instance ptr_eq_dec : EqDecision ptr.
Proof. solve_decision. Defined.

(** [p + n] *)
Definition ptr_add (p : ptr) (n : nat) : ptr :=
  match p with
  | nullptr => match n with 0 => nullptr | S _ => wild end
  | Ptr b i => Ptr b (i + n)
  | wild => wild
  end.

(** [p - n] *)
Definition ptr_sub (p : ptr) (n : nat) : ptr :=
  match p with
  | nullptr => match n with 0 => nullptr | S _ => wild end
  | Ptr b i => if decide (n ≤ i) then Ptr b (i - n) else wild
  | wild => wild
  end.

(** [q - p], defined for two pointers into one block with [p] not after [q] *)
Definition ptr_diff (q p : ptr) : option nat :=
  match q, p with
  | nullptr, nullptr => Some 0
  | Ptr b j, Ptr b' i => if decide (b = b' ∧ i ≤ j) then Some (j - i) else None
  | _, _ => None
  end.

(** [p + z] for a signed offset *)
Definition ptr_add_int (p : ptr) (z : Z) : ptr :=
  if decide (0 ≤ z)%Z then ptr_add p (Z.to_nat z) else ptr_sub p (Z.to_nat (- z)).

(** [p <= q] *)
Definition ptr_le (p q : ptr) : bool :=
  match ptr_diff q p with Some _ => true | None => false end.

Record RawMemory : Type := mkRawMemory {
  buffer : ptr;
  capacity : nat
}.

Record Vector : Type := mkVector {
  data : RawMemory;
  size : nat
}.

#[global] Instance RawMemory_eq_dec : EqDecision RawMemory.
Proof. solve_decision. Defined.
#[global] Instance Vector_eq_dec : EqDecision Vector.
Proof. solve_decision. Defined.

(** The heap of storage blocks, the store of [Vector] objects, the clock
    of fallible operations, the number of destructor calls, and the number
    of objects whose storage was released or reused while they were alive. *)
Record World (T : Type) : Type := mkWorld {
  heap : gmap nat (list (slot T));
  vecs : gmap nat Vector;
  ops : nat;
  dtors : nat;
  undestroyed : nat
}.
Arguments mkWorld {T}.
Arguments heap {T}.
Arguments vecs {T}.
Arguments ops {T}.
Arguments dtors {T}.
Arguments undestroyed {T}.

Inductive outcome (A : Type) : Type :=
| Normal (a : A)
| Thrown
| Undefined.
Arguments Normal {A} a.
Arguments Thrown {A}.
Arguments Undefined {A}.

(** A computation: from a world to an outcome and the world it leaves. *)
Definition M (T A : Type) : Type := World T -> outcome A * World T.

Definition ret {T A} (a : A) : M T A := fun w => (Normal a, w).

Definition bind {T A B} (m : M T A) (k : A -> M T B) : M T B :=
  fun w =>
    match m w with
    | (Normal a, w') => k a w'
    | (Thrown, w') => (Thrown, w')
    | (Undefined, w') => (Undefined, w')
    end.

Definition throw {T A} : M T A := fun w => (Thrown, w).

Definition undefined {T A} : M T A := fun w => (Undefined, w).

(** [try { m } catch (...) { h }] *)
Definition try_catch {T A} (m : M T A) (h : M T A) : M T A :=
  fun w =>
    match m w with
    | (Thrown, w') => h w'
    | r => r
    end.

(** [assert(c)] *)
Definition assert {T} (c : bool) : M T unit :=
  if c then ret tt else undefined.

Declare Scope cpp_scope.
Delimit Scope cpp_scope with cpp.
Notation "x <- m ;; k" := (bind m (fun x => k))
  (at level 100, m at next level, right associativity) : cpp_scope.
Notation "m ;;; k" := (bind m (fun _ => k))
  (at level 100, right associativity) : cpp_scope.
Open Scope cpp_scope.

Section Program.

Context {T : Type} {ET : ElementType T}.

(** The fault schedule: the fallible operation that takes tick [k] throws
    when [faults k] holds. *)
Variable faults : nat -> bool.

Local Abbreviation World := (World T).
Local Abbreviation M := (M T).

(** *** World updates *)

Definition set_heap (h : gmap nat (list (slot T))) (w : World) : World :=
  mkWorld h (vecs w) (ops w) (dtors w) (undestroyed w).

Definition set_vecs (vs : gmap nat Vector) (w : World) : World :=
  mkWorld (heap w) vs (ops w) (dtors w) (undestroyed w).

Definition set_ops (n : nat) (w : World) : World :=
  mkWorld (heap w) (vecs w) n (dtors w) (undestroyed w).

Definition set_dtors (n : nat) (w : World) : World :=
  mkWorld (heap w) (vecs w) (ops w) n (undestroyed w).

Definition set_undestroyed (n : nat) (w : World) : World :=
  mkWorld (heap w) (vecs w) (ops w) (dtors w) n.

(** One fallible operation: it takes a tick, and throws if it can and the
    schedule has a fault there. *)
Definition tick (can_throw : bool) : M unit :=
  fun w =>
    let w' := set_ops (S (ops w)) w in
    if can_throw && faults (ops w) then (Thrown, w') else (Normal tt, w').

(** *** Slots *)

Definition read_slot (p : ptr) : M (slot T) :=
  fun w =>
    match p with
    | Ptr b i =>
        match heap w !! b with
        | Some blk =>
            match blk !! i with
            | Some s => (Normal s, w)
            | None => (Undefined, w)
            end
        | None => (Undefined, w)
        end
    | _ => (Undefined, w)
    end.

Definition write_slot (p : ptr) (s : slot T) : M unit :=
  fun w =>
    match p with
    | Ptr b i =>
        match heap w !! b with
        | Some blk =>
            if decide (i < length blk)
            then (Normal tt, set_heap (<[b := <[i := s]> blk]> (heap w)) w)
            else (Undefined, w)
        | None => (Undefined, w)
        end
    | _ => (Undefined, w)
    end.

(** [p[0]], for [p] pointing to a constructed object *)
Definition get_obj (p : ptr) : M T :=
  s <- read_slot p ;;
  match s with
  | Obj v => ret v
  | Raw => undefined
  end.

(** The storage at [p] now holds an object of value [v].  An object that
    was alive there had its storage reused without its destructor. *)
Definition emplace_slot (p : ptr) (v : T) : M unit :=
  s <- read_slot p ;;
  (match s with
   | Obj _ => fun w => (Normal tt, set_undestroyed (S (undestroyed w)) w)
   | Raw => ret tt
   end) ;;;
  write_slot p (Obj v).

(** *** Operations of the element type *)

(** [new (p) T(args...)], where [T(args...)] yields [v] *)
Definition construct_at (p : ptr) (v : T) : M unit :=
  _ <- read_slot p ;;
  tick true ;;;
  emplace_slot p v.

(** [new (dst) T(src[0])], the copy constructor *)
Definition copy_construct_at (dst src : ptr) : M unit :=
  v <- get_obj src ;;
  construct_at dst v.

(** [new (dst) T(std::move(src[0]))], the move constructor *)
Definition move_construct_at (dst src : ptr) : M unit :=
  v <- get_obj src ;;
  _ <- read_slot dst ;;
  tick (negb is_nothrow_move_constructible) ;;;
  emplace_slot dst v ;;;
  write_slot src (Obj (moved_from v)).

(** [new (p) T()] *)
Definition value_construct_at (p : ptr) : M unit :=
  construct_at p default_value.

(** [dst[0] = v], for [v] an object outside the heap *)
Definition assign_at (dst : ptr) (v : T) : M unit :=
  _ <- get_obj dst ;;
  tick true ;;;
  write_slot dst (Obj v).

(** [dst[0] = src[0]], copy assignment *)
Definition copy_assign_at (dst src : ptr) : M unit :=
  v <- get_obj src ;;
  assign_at dst v.

(** [dst[0] = std::move(src[0])], move assignment *)
Definition move_assign_at (dst src : ptr) : M unit :=
  v <- get_obj src ;;
  assign_at dst v ;;;
  write_slot src (Obj (moved_from v)).

(** [std::destroy_at(p)]: destructors do not throw *)
Definition destroy_at (p : ptr) : M unit :=
  _ <- get_obj p ;;
  write_slot p Raw ;;;
  fun w => (Normal tt, set_dtors (S (dtors w)) w).

(** The destructor of a local object of type [T] *)
Definition destroy_local : M unit :=
  fun w => (Normal tt, set_dtors (S (dtors w)) w).

(** *** Standard algorithms *)

(** [std::destroy_n(p, n)] *)
Fixpoint destroy_n (p : ptr) (n : nat) : M unit :=
  match n with
  | 0 => ret tt
  | S n' => destroy_at p ;;; destroy_n (ptr_add p 1) n'
  end.

(** The loop of the [std::uninitialized_*] algorithms: [ctor k] constructs
    the object at [d_first + k]; if it throws, the [k] objects constructed
    so far are destroyed and the exception is rethrown. *)
Fixpoint uninitialized_loop (ctor : nat -> M unit) (d_first : ptr) (k n : nat)
  : M unit :=
  match n with
  | 0 => ret tt
  | S n' =>
      try_catch (ctor k) (destroy_n d_first k ;;; throw) ;;;
      uninitialized_loop ctor d_first (S k) n'
  end.

(** [std::uninitialized_copy_n(first, n, d_first)] *)
Definition uninitialized_copy_n (first : ptr) (n : nat) (d_first : ptr) : M unit :=
  uninitialized_loop
    (fun k => copy_construct_at (ptr_add d_first k) (ptr_add first k)) d_first 0 n.

(** [std::uninitialized_move_n(first, n, d_first)] *)
Definition uninitialized_move_n (first : ptr) (n : nat) (d_first : ptr) : M unit :=
  uninitialized_loop
    (fun k => move_construct_at (ptr_add d_first k) (ptr_add first k)) d_first 0 n.

(** [std::uninitialized_value_construct_n(first, n)] *)
Definition uninitialized_value_construct_n (first : ptr) (n : nat) : M unit :=
  uninitialized_loop (fun k => value_construct_at (ptr_add first k)) first 0 n.

(** [std::uninitialized_copy(first, last, d_first)] for a range of values
    that is not storage of a vector (an initializer list, input iterators) *)
Definition uninitialized_copy (xs : list T) (d_first : ptr) : M unit :=
  uninitialized_loop
    (fun k => match xs !! k with
              | Some x => construct_at (ptr_add d_first k) x
              | None => undefined
              end) d_first 0 (length xs).

(** The loop of [std::copy] and [std::move]: [n] assignments, front to back *)
Fixpoint assign_forward (asg : ptr -> ptr -> M unit) (first : ptr) (n : nat)
  (d_first : ptr) : M unit :=
  match n with
  | 0 => ret tt
  | S n' =>
      asg d_first first ;;;
      assign_forward asg (ptr_add first 1) n' (ptr_add d_first 1)
  end.

(** The loop of [std::move_backward]: [n] assignments, back to front;
    [last] and [d_last] are one past the ranges *)
Fixpoint assign_backward (asg : ptr -> ptr -> M unit) (last : ptr) (n : nat)
  (d_last : ptr) : M unit :=
  match n with
  | 0 => ret tt
  | S n' =>
      asg (ptr_sub d_last 1) (ptr_sub last 1) ;;;
      assign_backward asg (ptr_sub last 1) n' (ptr_sub d_last 1)
  end.

(** [std::copy(first, last, d_first)] *)
Definition std_copy (first last d_first : ptr) : M unit :=
  match ptr_diff last first with
  | Some n => assign_forward copy_assign_at first n d_first
  | None => undefined
  end.

(** [std::move(first, last, d_first)] *)
Definition std_move (first last d_first : ptr) : M unit :=
  match ptr_diff last first with
  | Some n => assign_forward move_assign_at first n d_first
  | None => undefined
  end.

(** [std::move_backward(first, last, d_last)] *)
Definition std_move_backward (first last d_last : ptr) : M unit :=
  match ptr_diff last first with
  | Some n => assign_backward move_assign_at last n d_last
  | None => undefined
  end.

(** [try { m } finally { c }]: what the destructor of a local does to the
    block it closes, on normal exit and during unwinding *)
Definition finally {A} (m : M A) (c : M unit) : M A :=
  fun w =>
    match m w with
    | (Normal a, w') => (c ;;; ret a) w'
    | (Thrown, w') => (c ;;; throw) w'
    | (Undefined, w') => (Undefined, w')
    end.

(** ** The allocator *)

Definition is_obj (s : slot T) : bool :=
  match s with Obj _ => true | Raw => false end.

(** The constructed objects of a block *)
Definition live (blk : list (slot T)) : nat := length (filter is_obj blk).

(** The objects of type [T] that [bytes] bytes have room for *)
Definition room (bytes : N) : nat := N.to_nat (bytes / N.pos sizeof_T).

(** [operator new(bytes)]: a new block of [bytes] bytes, all of it raw, at
    an address no block has, or [std::bad_alloc]; a request of no bytes
    gets the address of a block without room for any object *)
Definition operator_new (bytes : N) : M ptr :=
  tick true ;;;
  fun w =>
    let b := fresh (dom (heap w)) in
    (Normal (Ptr b 0), set_heap (<[b := replicate (room bytes) Raw]> (heap w)) w).

(** [operator delete(p)]: nothing for a null pointer; for the address of a
    block, the block is released, the objects still alive in it losing
    their storage undestroyed; undefined for any other pointer *)
Definition operator_delete (p : ptr) : M unit :=
  fun w =>
    match p with
    | nullptr => (Normal tt, w)
    | Ptr b 0 =>
        match heap w !! b with
        | Some blk =>
            (Normal tt,
             set_undestroyed (undestroyed w + live blk)
               (set_heap (delete b (heap w)) w))
        | None => (Undefined, w)
        end
    | _ => (Undefined, w)
    end.

(** ** RawMemory<T> *)

(** [RawMemory::Allocate] *)
Definition Allocate (n_ : nat) : M ptr :=
  if decide (n_ ≠ 0)
  then operator_new (size_t_mul (N.of_nat n_) (N.pos sizeof_T))
  else ret nullptr.

(** [RawMemory::Deallocate] *)
Definition Deallocate (buf_ : ptr) : M unit := operator_delete buf_.

(** [RawMemory() = default] *)
Definition RawMemory_default : RawMemory := mkRawMemory nullptr 0.

(** [explicit RawMemory(size_t capacity_)] *)
Definition RawMemory_ctor (capacity_ : nat) : M RawMemory :=
  b <- Allocate capacity_ ;;
  ret (mkRawMemory b capacity_).

(** [RawMemory(RawMemory&& other_)]: the new object and what is left of
    [other_] *)
Definition RawMemory_move_ctor (other_ : RawMemory) : RawMemory * RawMemory :=
  (mkRawMemory (buffer other_) (capacity other_), mkRawMemory nullptr 0).

(** [~RawMemory()] *)
Definition RawMemory_dtor (r : RawMemory) : M unit := Deallocate (buffer r).

(** [RawMemory::operator=(RawMemory&& rhs_)] for [this != &rhs_]: the new
    [*this] and what is left of [rhs_]; the block [*this] had is not
    released *)
Definition RawMemory_move_assign (this rhs_ : RawMemory) : RawMemory * RawMemory :=
  (mkRawMemory (buffer rhs_) (capacity rhs_), mkRawMemory nullptr 0).

(** [RawMemory::operator+(size_t offset_)] *)
Definition RawMemory_plus (r : RawMemory) (offset_ : nat) : M ptr :=
  assert (bool_decide (offset_ ≤ capacity r)) ;;;
  ret (ptr_add (buffer r) offset_).

(** [RawMemory::operator[](size_t index_)]: the reference is the address *)
Definition RawMemory_index (r : RawMemory) (index_ : nat) : M ptr :=
  assert (bool_decide (index_ < capacity r)) ;;;
  ret (ptr_add (buffer r) index_).

(** [RawMemory::Swap]: the new [*this] and the new [other_] *)
Definition RawMemory_Swap (this other_ : RawMemory) : RawMemory * RawMemory :=
  (mkRawMemory (buffer other_) (capacity other_),
   mkRawMemory (buffer this) (capacity this)).

Definition GetAddress (r : RawMemory) : ptr := buffer r.

(** A local [RawMemory<T> new_data(n)] and the block [body] it is in scope
    of.  [body] returns, with its result, the value [new_data] has when the
    block is left; an exception leaves [body] before [new_data] was
    swapped, the only statement that changes it.  The destructor of
    [new_data] runs on both exits. *)
Definition with_RawMemory {A} (n : nat) (body : RawMemory -> M (A * RawMemory))
  : M A :=
  new_data <- RawMemory_ctor n ;;
  fun w =>
    match body new_data w with
    | (Normal (a, r), w') => (RawMemory_dtor r ;;; ret a) w'
    | (Thrown, w') => (RawMemory_dtor new_data ;;; throw) w'
    | (Undefined, w') => (Undefined, w')
    end.

(** ** Vector<T> *)

Definition get_vec (this : nat) : M Vector :=
  fun w =>
    match vecs w !! this with
    | Some v => (Normal v, w)
    | None => (Undefined, w)
    end.

Definition put_vec (this : nat) (v : Vector) : M unit :=
  fun w => (Normal tt, set_vecs (<[this := v]> (vecs w)) w).

Definition del_vec (this : nat) : M unit :=
  fun w => (Normal tt, set_vecs (delete this (vecs w)) w).

(** [this->data = d] *)
Definition set_data (this : nat) (d : RawMemory) : M unit :=
  v <- get_vec this ;;
  put_vec this (mkVector d (size v)).

(** [this->size = n] *)
Definition set_size (this : nat) (n : nat) : M unit :=
  v <- get_vec this ;;
  put_vec this (mkVector (data v) n).

(** The [if constexpr] of [Reserve], [PushBack] and [EmplaceBack]:
    elements are moved when the move constructor cannot throw or there is
    no copy constructor, and copied otherwise. *)
Definition moves_elements : bool :=
  is_nothrow_move_constructible || negb is_copy_constructible.

Definition transfer_n (first : ptr) (n : nat) (d_first : ptr) : M unit :=
  if moves_elements
  then uninitialized_move_n first n d_first
  else uninitialized_copy_n first n d_first.

(** *** Constructors and destructor *)

(** [Vector() = default] *)
Definition Vector_default_ctor (this : nat) : M unit :=
  put_vec this (mkVector RawMemory_default 0).

(** [explicit Vector(size_t size_)]; if the body throws, the member [data]
    is destroyed and there is no object *)
Definition Vector_size_ctor (this : nat) (size_ : nat) : M unit :=
  d <- RawMemory_ctor size_ ;;
  put_vec this (mkVector d size_) ;;;
  try_catch
    (uninitialized_value_construct_n (GetAddress d) size_)
    (del_vec this ;;; RawMemory_dtor d ;;; throw).

(** [Vector(const Vector& other_)] *)
Definition Vector_copy_ctor (this other_ : nat) : M unit :=
  o <- get_vec other_ ;;
  d <- RawMemory_ctor (size o) ;;
  put_vec this (mkVector d (size o)) ;;;
  try_catch
    (uninitialized_copy_n (GetAddress (data o)) (size o) (GetAddress d))
    (del_vec this ;;; RawMemory_dtor d ;;; throw).

(** [Vector(Vector&& other_) noexcept] *)
Definition Vector_move_ctor (this other_ : nat) : M unit :=
  o <- get_vec other_ ;;
  let (d, d_other) := RawMemory_move_ctor (data o) in
  set_data other_ d_other ;;;
  set_size other_ 0 ;;;
  put_vec this (mkVector d (size o)).

(** [Vector(std::initializer_list<T> init_list_)] *)
Definition Vector_init_list_ctor (this : nat) (init_list_ : list T) : M unit :=
  d <- RawMemory_ctor (length init_list_) ;;
  put_vec this (mkVector d (length init_list_)) ;;;
  try_catch
    (uninitialized_copy init_list_ (GetAddress d))
    (del_vec this ;;; RawMemory_dtor d ;;; throw).

(** [~Vector()], then the destructor of the member [data] *)
Definition Vector_dtor (this : nat) : M unit :=
  v <- get_vec this ;;
  destroy_n (GetAddress (data v)) (size v) ;;;
  RawMemory_dtor (data v) ;;;
  del_vec this.

(** *** Iterators and queries *)

Definition begin_ (this : nat) : M ptr :=
  v <- get_vec this ;;
  ret (GetAddress (data v)).

Definition end_ (this : nat) : M ptr :=
  v <- get_vec this ;;
  ret (ptr_add (GetAddress (data v)) (size v)).

Definition Size (this : nat) : M nat :=
  v <- get_vec this ;;
  ret (size v).

Definition Capacity (this : nat) : M nat :=
  v <- get_vec this ;;
  ret (capacity (data v)).

Definition IsEmpty (this : nat) : M bool :=
  v <- get_vec this ;;
  ret (bool_decide (size v = 0)).

(** [Vector::operator[]] and [Vector::At]: the reference is the address *)
Definition At (this : nat) (index_ : nat) : M ptr :=
  v <- get_vec this ;;
  assert (bool_decide (index_ < size v)) ;;;
  RawMemory_index (data v) index_.

(** *** Non-template methods *)

Definition Clear (this : nat) : M unit :=
  v <- get_vec this ;;
  destroy_n (GetAddress (data v)) (size v) ;;;
  set_size this 0.

(** [data.Swap(other_.data), std::swap(size, other_.size)] *)
Definition Swap (this other_ : nat) : M unit :=
  v <- get_vec this ;;
  o <- get_vec other_ ;;
  let (d, d_other) := RawMemory_Swap (data v) (data o) in
  set_data this d ;;;
  set_data other_ d_other ;;;
  v <- get_vec this ;;
  o <- get_vec other_ ;;
  set_size this (size o) ;;;
  set_size other_ (size v).

Definition Reserve (this : nat) (new_capacity_ : nat) : M unit :=
  v <- get_vec this ;;
  if decide (new_capacity_ ≤ capacity (data v)) then ret tt
  else
    with_RawMemory new_capacity_ (fun new_data =>
      transfer_n (GetAddress (data v)) (size v) (GetAddress new_data) ;;;
      destroy_n (GetAddress (data v)) (size v) ;;;
      let (d, new_data') := RawMemory_Swap (data v) new_data in
      set_data this d ;;;
      ret (tt, new_data')).

Definition Resize (this : nat) (new_size_ : nat) : M unit :=
  v <- get_vec this ;;
  (if decide (new_size_ < size v)
   then destroy_n (ptr_add (GetAddress (data v)) new_size_) (size v - new_size_)
   else
     (if decide (capacity (data v) < new_size_)
      then
        let new_capacity := Nat.max (capacity (data v) * 2) new_size_ in
        Reserve this new_capacity
      else ret tt) ;;;
     v <- get_vec this ;;
     uninitialized_value_construct_n
       (ptr_add (GetAddress (data v)) (size v)) (new_size_ - size v)) ;;;
  set_size this new_size_.

Definition ShrinkToFit (this : nat) : M unit :=
  v <- get_vec this ;;
  if decide (size v = capacity (data v)) then ret tt
  else if decide (size v = 0)
  then
    let (d, temporary) := RawMemory_move_assign (data v) RawMemory_default in
    set_data this d ;;;
    RawMemory_dtor temporary
  else
    with_RawMemory (size v) (fun new_data =>
      uninitialized_move_n (GetAddress (data v)) (size v) (GetAddress new_data) ;;;
      let (d, new_data') := RawMemory_Swap (data v) new_data in
      set_data this d ;;;
      ret (tt, new_data')).

(** [Erase(ConstIterator pos_)]; [int position = pos_ - begin()] *)
Definition Erase (this : nat) (pos_ : ptr) : M ptr :=
  b <- begin_ this ;;
  e <- end_ this ;;
  assert (ptr_le b pos_ && ptr_le pos_ e) ;;;
  match ptr_diff pos_ b with
  | None => undefined
  | Some d =>
      let position := to_int (Z.of_nat d) in
      std_move (ptr_add (ptr_add_int b position) 1) e (ptr_add_int b position) ;;;
      destroy_at (ptr_sub e 1) ;;;
      v <- get_vec this ;;
      set_size this (size v - 1) ;;;
      b <- begin_ this ;;
      ret (ptr_add_int b position)
  end.

Definition PopBack (this : nat) : M unit :=
  v <- get_vec this ;;
  assert (bool_decide (size v ≠ 0)) ;;;
  destroy_at (ptr_sub (ptr_add (GetAddress (data v)) (size v)) 1) ;;;
  set_size this (size v - 1).

(** *** Template methods *)

(** The capacity of the buffer a growing insertion allocates:
    [size == 0 ? 1 : size * 2] *)
Definition grown (size_ : nat) : nat :=
  if decide (size_ = 0) then 1 else size_ * 2.

(** [PushBack(Type&& value_)], where [T(std::forward<Type>(value_))]
    yields [x] *)
Definition PushBack (this : nat) (x : T) : M unit :=
  v <- get_vec this ;;
  (if decide (capacity (data v) ≤ size v)
   then
     with_RawMemory (grown (size v)) (fun new_data =>
       construct_at (ptr_add (GetAddress new_data) (size v)) x ;;;
       transfer_n (GetAddress (data v)) (size v) (GetAddress new_data) ;;;
       destroy_n (GetAddress (data v)) (size v) ;;;
       let (d, new_data') := RawMemory_Swap (data v) new_data in
       set_data this d ;;;
       ret (tt, new_data'))
   else construct_at (ptr_add (GetAddress (data v)) (size v)) x) ;;;
  v <- get_vec this ;;
  set_size this (S (size v)).

(** [EmplaceBack(Args&&... args_)], where [T(std::forward<Args>(args_)...)]
    yields [x]; the result is the address of the new element *)
Definition EmplaceBack (this : nat) (x : T) : M ptr :=
  v <- get_vec this ;;
  (if decide (capacity (data v) ≤ size v)
   then
     with_RawMemory (grown (size v)) (fun new_data =>
       construct_at (ptr_add (GetAddress new_data) (size v)) x ;;;
       transfer_n (GetAddress (data v)) (size v) (GetAddress new_data) ;;;
       destroy_n (GetAddress (data v)) (size v) ;;;
       let (d, new_data') := RawMemory_Swap (data v) new_data in
       set_data this d ;;;
       ret (tt, new_data'))
   else construct_at (ptr_add (GetAddress (data v)) (size v)) x) ;;;
  v <- get_vec this ;;
  set_size this (S (size v)) ;;;
  RawMemory_index (data v) (size v).

(** [Emplace(ConstIterator pos_, Args&&... args_)], where
    [T(std::forward<Args>(args_)...)] yields [x].  The position is an
    [int]: it is the count of the first transfer as it is, and
    [size - position] is taken in [size_t]. *)
Definition Emplace (this : nat) (pos_ : ptr) (x : T) : M ptr :=
  b <- begin_ this ;;
  e <- end_ this ;;
  assert (ptr_le b pos_ && ptr_le pos_ e) ;;;
  match ptr_diff pos_ b with
  | None => undefined
  | Some d =>
      let position := to_int (Z.of_nat d) in
      v <- get_vec this ;;
      (if decide (capacity (data v) ≤ size v)
       then
         with_RawMemory (grown (size v)) (fun new_data =>
           construct_at (ptr_add_int (GetAddress new_data) position) x ;;;
           (if moves_elements
            then
              uninitialized_move_n
                (GetAddress (data v)) (int_count position)
                (GetAddress new_data) ;;;
              uninitialized_move_n
                (ptr_add_int (GetAddress (data v)) position)
                (size_t_sub (size v) (int_to_size_t position))
                (ptr_add (ptr_add_int (GetAddress new_data) position) 1)
            else
              uninitialized_copy_n
                (GetAddress (data v)) (int_count position)
                (GetAddress new_data) ;;;
              uninitialized_copy_n
                (ptr_add_int (GetAddress (data v)) position)
                (size_t_sub (size v) (int_to_size_t position))
                (ptr_add (ptr_add_int (GetAddress new_data) position) 1)) ;;;
           destroy_n (GetAddress (data v)) (size v) ;;;
           let (d, new_data') := RawMemory_Swap (data v) new_data in
           set_data this d ;;;
           ret (tt, new_data'))
       else
         try_catch
           (if decide (pos_ ≠ e)
            then
              tick true ;;;
              finally
                (last <- RawMemory_index (data v) (size v - 1) ;;
                 move_construct_at e last ;;;
                 std_move_backward (ptr_add_int b position) (ptr_sub e 1) e ;;;
                 assign_at (ptr_add_int b position) x)
                destroy_local
            else construct_at e x)
           (e <- end_ this ;;
            operator_delete e ;;;
            throw)) ;;;
      v <- get_vec this ;;
      set_size this (S (size v)) ;;;
      b <- begin_ this ;;
      ret (ptr_add_int b position)
  end.

(** [Insert(ConstIterator pos_, const T& item_)] and
    [Insert(ConstIterator pos_, T&& item_)] *)
Definition Insert (this : nat) (pos_ : ptr) (item_ : T) : M ptr :=
  Emplace this pos_ item_.

(** A range [[first_, last_)] of input iterators, as the two traversals
    that [Assign] makes of it find it: [std::distance] meets the elements
    [counted], and [std::uninitialized_copy], which starts again from
    [first_], the elements [copied].  A multi-pass range (forward
    iterators, pointers, an initializer list) gives the same elements both
    times; of a single-pass range the second traversal finds what the
    first one left. *)
Record input_range : Type := InputRange {
  counted : list T;
  copied : list T
}.

(** A range that can be traversed again *)
Definition multi_pass (xs : list T) : input_range := InputRange xs xs.

(** [Assign(InputIt first_, InputIt last_)] *)
Definition Assign (this : nat) (r : input_range) : M unit :=
  Clear this ;;;
  let new_size := length (counted r) in
  v <- get_vec this ;;
  (if decide (capacity (data v) < new_size)
   then
     with_RawMemory new_size (fun new_data =>
       uninitialized_copy (copied r) (GetAddress new_data) ;;;
       let (d, new_data') := RawMemory_Swap (data v) new_data in
       set_data this d ;;;
       ret (tt, new_data'))
   else uninitialized_copy (copied r) (GetAddress (data v))) ;;;
  set_size this new_size.

(** *** Assignment *)

(** A local [Vector] made by [ctor] at an address no object has, in scope
    of [body]; its destructor runs on both exits. *)
Definition with_Vector {A} (ctor : nat -> M unit) (body : nat -> M A) : M A :=
  fun w =>
    let a := fresh (dom (vecs w)) in
    (ctor a ;;; finally (body a) (Vector_dtor a)) w.

(** [Vector::operator=(const Vector& other_)] *)
Definition copy_assign (this other_ : nat) : M unit :=
  if decide (this ≠ other_)
  then
    o <- get_vec other_ ;;
    v <- get_vec this ;;
    if decide (size o ≤ capacity (data v))
    then
      (if decide (size v ≤ size o)
       then
         std_copy (GetAddress (data o)) (ptr_add (GetAddress (data o)) (size v))
           (GetAddress (data v)) ;;;
         uninitialized_copy_n
           (ptr_add (GetAddress (data o)) (size v)) (size o - size v)
           (ptr_add (GetAddress (data v)) (size v))
       else
         std_copy (GetAddress (data o)) (ptr_add (GetAddress (data o)) (size o))
           (GetAddress (data v)) ;;;
         destroy_n (ptr_add (GetAddress (data v)) (size o)) (size v - size o)) ;;;
      set_size this (size o)
    else
      with_Vector (fun other_copy => Vector_copy_ctor other_copy other_)
        (fun other_copy => Swap this other_copy)
  else ret tt.

(** [Vector::operator=(Vector&& other_) noexcept] *)
Definition move_assign (this other_ : nat) : M unit :=
  Swap this other_.

(** *** Sequences of [PushBack] and [PopBack] *)

Inductive back_op : Type :=
| Push (x : T)
| Pop.

Fixpoint run_back_ops (this : nat) (os : list back_op) : M unit :=
  match os with
  | [] => ret tt
  | Push x :: os' => PushBack this x ;;; run_back_ops this os'
  | Pop :: os' => PopBack this ;;; run_back_ops this os'
  end.

(** The sequence the specification gives for it: a push appends its value,
    a pop removes the last one and is not applied to an empty sequence. *)
Fixpoint after_back_ops (os : list back_op) (l : list T) : option (list T) :=
  match os with
  | [] => Some l
  | Push x :: os' => after_back_ops os' (l ++ [x])
  | Pop :: os' =>
      match l with
      | [] => None
      | _ :: _ => after_back_ops os' (removelast l)
      end
  end.

Fixpoint pushes (os : list back_op) : nat :=
  match os with
  | [] => 0
  | Push _ :: os' => S (pushes os')
  | Pop :: os' => pushes os'
  end.

Fixpoint pops (os : list back_op) : nat :=
  match os with
  | [] => 0
  | Push _ :: os' => pops os'
  | Pop :: os' => S (pops os')
  end.

(** *** Comparison operators *)

Context {CT : Comparable T}.

(** The objects [p[0]], ..., [p[n - 1]] *)
Fixpoint read_range (p : ptr) (n : nat) : M (list T) :=
  match n with
  | 0 => ret []
  | S n' =>
      x <- get_obj p ;;
      xs <- read_range (ptr_add p 1) n' ;;
      ret (x :: xs)
  end.

(** The range [[begin(), end())] of a vector *)
Definition elements (this : nat) : M (list T) :=
  v <- get_vec this ;;
  read_range (GetAddress (data v)) (size v).

Fixpoint equal_loop (l1 l2 : list T) : bool :=
  match l1, l2 with
  | x :: l1', y :: l2' => if elt_eq x y then equal_loop l1' l2' else false
  | _, _ => true
  end.

(** [std::equal(first1, last1, first2, last2)] on random access iterators *)
Definition std_equal (l1 l2 : list T) : bool :=
  if decide (length l1 = length l2) then equal_loop l1 l2 else false.

(** [std::lexicographical_compare(first1, last1, first2, last2)] *)
Fixpoint lexicographical_compare (l1 l2 : list T) : bool :=
  match l1, l2 with
  | x :: l1', y :: l2' =>
      if elt_lt x y then true
      else if elt_lt y x then false
      else lexicographical_compare l1' l2'
  | [], _ :: _ => true
  | _, [] => false
  end.

(** [std::lexicographical_compare_three_way(first1, last1, first2, last2)] *)
Fixpoint lexicographical_compare_three_way (l1 l2 : list T) : comparison :=
  match l1, l2 with
  | x :: l1', y :: l2' =>
      match elt_cmp x y with
      | Eq => lexicographical_compare_three_way l1' l2'
      | c => c
      end
  | _ :: _, [] => Gt
  | [], _ :: _ => Lt
  | [], [] => Eq
  end.

Definition operator_eq (lhs_ rhs_ : nat) : M bool :=
  l <- elements lhs_ ;;
  r <- elements rhs_ ;;
  ret (std_equal l r).

Definition operator_ne (lhs_ rhs_ : nat) : M bool :=
  c <- operator_eq lhs_ rhs_ ;;
  ret (negb c).

Definition operator_lt (lhs_ rhs_ : nat) : M bool :=
  l <- elements lhs_ ;;
  r <- elements rhs_ ;;
  ret (lexicographical_compare l r).

Definition operator_le (lhs_ rhs_ : nat) : M bool :=
  c <- operator_lt rhs_ lhs_ ;;
  ret (negb c).

Definition operator_gt (lhs_ rhs_ : nat) : M bool :=
  operator_le lhs_ rhs_.

Definition operator_ge (lhs_ rhs_ : nat) : M bool :=
  c <- operator_lt lhs_ rhs_ ;;
  ret (negb c).

Definition operator_spaceship (lhs_ rhs_ : nat) : M comparison :=
  l <- elements lhs_ ;;
  r <- elements rhs_ ;;
  ret (lexicographical_compare_three_way l r).

(** *** Element access *)

(** [Front()]: the reference is the address *)
Definition Front (this : nat) : M ptr :=
  v <- get_vec this ;;
  assert (bool_decide (0 < size v)) ;;;
  RawMemory_index (data v) 0.

(** [Back()] *)
Definition Back (this : nat) : M ptr :=
  v <- get_vec this ;;
  assert (bool_decide (0 < size v)) ;;;
  RawMemory_index (data v) (size v - 1).

(** [Assign(std::initializer_list<T> ilist_)] *)
Definition Assign_init_list (this : nat) (ilist_ : list T) : M unit :=
  Assign this (multi_pass ilist_).

(** *** Reverse iterators *)

(** A [std::reverse_iterator<T*>] is the iterator it adapts: it designates
    the object before [base]. *)
Record reverse_iterator : Type := ReverseIterator { base : ptr }.

(** [*it], as an address: [tmp = base; return *--tmp] *)
Definition reverse_deref (it : reverse_iterator) : ptr := ptr_sub (base it) 1.

(** [++it] *)
Definition reverse_next (it : reverse_iterator) : reverse_iterator :=
  ReverseIterator (ptr_sub (base it) 1).

(** [rbein()], the non-const overload, named so in the source *)
Definition rbein (this : nat) : M reverse_iterator :=
  b <- begin_ this ;;
  ret (ReverseIterator b).

(** [rend()], the non-const overload *)
Definition rend (this : nat) : M reverse_iterator :=
  e <- end_ this ;;
  ret (ReverseIterator e).

(** [crbegin() const] *)
Definition crbegin (this : nat) : M reverse_iterator :=
  e <- end_ this ;;
  ret (ReverseIterator e).

(** [crend() const] *)
Definition crend (this : nat) : M reverse_iterator :=
  b <- begin_ this ;;
  ret (ReverseIterator b).

(** [rbegin() const] and [rend() const] *)
Definition rbegin_const (this : nat) : M reverse_iterator := crbegin this.
Definition rend_const (this : nat) : M reverse_iterator := crend this.

(** The objects of the range [[first, last)] of reverse iterators, in the
    order [++] visits them; [last] must be reachable from [first]. *)
Fixpoint reverse_read (it : reverse_iterator) (n : nat) : M (list T) :=
  match n with
  | 0 => ret []
  | S n' =>
      x <- get_obj (reverse_deref it) ;;
      xs <- reverse_read (reverse_next it) n' ;;
      ret (x :: xs)
  end.

Definition reverse_range (first last : reverse_iterator) : M (list T) :=
  match ptr_diff (base first) (base last) with
  | Some n => reverse_read first n
  | None => undefined
  end.

End Program.

(** ** Instances used to run the programs *)

(** [int]: trivially copyable, a move leaves the value in place *)
Definition int_element : ElementType Z :=
  {| default_value := 0%Z;
     moved_from := fun x => x;
     is_nothrow_move_constructible := true;
     is_copy_constructible := true;
     sizeof_T := 4 |}.

Definition int_comparable : Comparable Z :=
  {| elt_eq := Z.eqb; elt_lt := Z.ltb; elt_cmp := Z.compare |}.

(** A copyable type whose move constructor may throw and leaves [0] behind:
    the container copies it when it reallocates. *)
Definition throwing_element : ElementType Z :=
  {| default_value := 0%Z;
     moved_from := fun _ => 0%Z;
     is_nothrow_move_constructible := false;
     is_copy_constructible := true;
     sizeof_T := 4 |}.

(** The schedule without faults, and the one whose only fault is at [k] *)
Definition no_faults : nat -> bool := fun _ => false.
Definition fault_at (k : nat) : nat -> bool := fun n => bool_decide (n = k).

Definition empty_world {T} : World T := mkWorld ∅ ∅ 0 0 0.

(** The world a computation leaves when run from [w] *)
Definition exec {T A} (m : M T A) (w : World T) : World T := (m w).2.

(** The outcome of a computation run from [w] *)
Definition result {T A} (m : M T A) (w : World T) : outcome A := (m w).1.

(** A vector [{1, 2, 3}] at address [0] *)
Definition world_123 : World Z :=
  exec (Vector_init_list_ctor (ET := int_element) no_faults 0 [1; 2; 3]%Z)
    empty_world.

(** A vector [{1, 2}] of capacity [4] at address [0] *)
Definition world_12_spare : World Z :=
  exec (Vector_init_list_ctor (ET := int_element) no_faults 0 [1; 2]%Z ;;;
        Reserve (ET := int_element) no_faults 0 4)
    empty_world.

(** Vectors [a = {1, 2, 4}] at address [0] and [b = {1, 2, 3}] at address [1] *)
Definition world_124_123 : World Z :=
  exec (Vector_init_list_ctor (ET := int_element) no_faults 0 [1; 2; 4]%Z ;;;
        Vector_init_list_ctor (ET := int_element) no_faults 1 [1; 2; 3]%Z)
    empty_world.

(** Vectors [a = {7}] at address [0] and [b = {1, 2}] at address [1] *)
Definition world_7_12 : World Z :=
  exec (Vector_init_list_ctor (ET := int_element) no_faults 0 [7]%Z ;;;
        Vector_init_list_ctor (ET := int_element) no_faults 1 [1; 2]%Z)
    empty_world.

(** The scenario of the specification: from an empty vector,
    [PushBack(1)], [PushBack(2)], [PushBack(3)], [Insert(begin() + 1, 9)],
    [Erase(begin() + 2)], [PopBack()]; the result is the sequence and the
    size after the pushes and the sequence after each later step. *)
Definition scenario : M Z (list Z * nat * list Z * list Z * list Z) :=
  let _ := int_element in
  Vector_default_ctor 0 ;;;
  PushBack no_faults 0 1%Z ;;;
  PushBack no_faults 0 2%Z ;;;
  PushBack no_faults 0 3%Z ;;;
  pushed <- elements 0 ;;
  n <- Size 0 ;;
  b <- begin_ 0 ;;
  Insert no_faults 0 (ptr_add b 1) 9%Z ;;;
  inserted <- elements 0 ;;
  b <- begin_ 0 ;;
  Erase no_faults 0 (ptr_add b 2) ;;;
  erased <- elements 0 ;;
  PopBack 0 ;;;
  popped <- elements 0 ;;
  ret (pushed, n, inserted, erased, popped).

(** A type that cannot be copied and whose move constructor may throw and
    leaves [0] behind: the container moves it when it reallocates. *)
Definition move_only_element : ElementType Z :=
  {| default_value := 0%Z;
     moved_from := fun _ => 0%Z;
     is_nothrow_move_constructible := false;
     is_copy_constructible := false;
     sizeof_T := 4 |}.

(** A default-constructed vector at address [0] *)
Definition world_default : World Z :=
  exec (Vector_default_ctor 0) empty_world.

(** An empty vector of capacity [4] at address [0] *)
Definition world_empty_spare : World Z :=
  exec (Vector_default_ctor 0 ;;;
        Reserve (ET := int_element) no_faults 0 4)
    empty_world.

(** A full vector of [n] zeros at address [0] *)
Definition world_zeros (n : nat) : World Z :=
  mkWorld {[0 := Obj <$> replicate n 0%Z]}
    {[0 := mkVector (mkRawMemory (Ptr 0 0) n) n]} 0 0 0.

(** * Program logic *)

Section Logic.

Context {T : Type} {ET : ElementType T}.
Variable faults : nat -> bool.

Local Abbreviation World := (World T).
Local Abbreviation M := (M T).

(** *** Specifications *)

(** [wp m w QN QT QU]: run from [w], [m] returns a value and a world in
    [QN], or throws leaving a world in [QT], or is undefined with [QU]. *)
Definition wp {A} (m : M A) (w : World)
  (QN : A -> World -> Prop) (QT : World -> Prop) (QU : Prop) : Prop :=
  match m w with
  | (Normal a, w') => QN a w'
  | (Thrown, w') => QT w'
  | (Undefined, _) => QU
  end.

(** What a range of objects looks like after its first [k] have been
    moved from *)
Definition moved_prefix (k : nat) (xs : list T) : list (slot T) :=
  (Obj <$> (moved_from <$> take k xs)) ++ (Obj <$> drop k xs).

(** The object left in the last slot of a range shifted one slot down *)
Definition last_moved (y : T) (xs : list T) : T :=
  match last xs with
  | Some z => moved_from z
  | None => y
  end.

(** The object left in the first slot of a range shifted one slot up *)
Definition first_moved (y : T) (xs : list T) : T :=
  match xs with
  | x :: _ => moved_from x
  | [] => y
  end.

(** A block of [cap] slots whose first slots hold the objects [l] *)
Definition block_of (l : list T) (cap : nat) : list (slot T) :=
  (Obj <$> l) ++ replicate (cap - length l) Raw.

(** The storage [p] is the address of: no storage for a null pointer,
    block [b] for its address *)
Definition stores (w : World) (p : ptr) (blk : list (slot T)) : Prop :=
  match p with
  | nullptr => blk = []
  | Ptr b 0 => heap w !! b = Some blk
  | _ => False
  end.

(** The object at [this] is a vector of the elements [l] and capacity
    [cap]: its size is the length of [l], the first slots of its buffer
    hold [l] and the others are raw. *)
Definition owns (w : World) (this : nat) (l : list T) (cap : nat) : Prop :=
  exists v,
    vecs w !! this = Some v /\
    size v = length l /\
    capacity (data v) = cap /\
    length l <= cap /\
    stores w (buffer (data v)) (block_of l cap).

(** A fault was scheduled at or after tick [k] *)
Definition faulted (k : nat) : Prop := exists j, k <= j /\ faults j = true.

(** [n * sizeof(T)] is in the range of [size_t]: a request for [n] objects
    gets a block of [n] slots *)
Definition fits (n : nat) : Prop :=
  (N.of_nat n * N.pos sizeof_T < size_t_modulus)%N.

(** A size whose positions are in the range of [int] *)
Definition int_sized (n : nat) : Prop := (Z.of_nat n < int_modulus)%Z.

(** The capacity after an append *)
Definition capacity_after_append (l : list T) (cap : nat) : nat :=
  if decide (cap <= length l) then grown (length l) else cap.

(** The capacity after [Resize(n)] *)
Definition capacity_after_resize (cap n : nat) : nat :=
  if decide (cap < n) then Nat.max (cap * 2) n else cap.

(** From [w] to [w'], vector [a] kept its storage: the object has the same
    buffer and capacity, and every block but the one at that buffer is
    what it was. *)
Definition keeps_storage (w w' : World) (a : nat) : Prop :=
  exists va va',
    vecs w !! a = Some va /\ vecs w' !! a = Some va' /\
    data va' = data va /\
    forall b', buffer (data va) <> Ptr b' 0 -> heap w' !! b' = heap w !! b'.

(** A computation that leaves the vector objects as they are, whatever
    its outcome *)
Definition keeps_vecs {A} (m : M A) : Prop :=
  forall w, vecs (m w).2 = vecs w.

(** Two vector objects do not share a block. *)
Definition separate (w : World) (a b : nat) : Prop :=
  forall va vb ba bb i j,
    vecs w !! a = Some va -> vecs w !! b = Some vb ->
    buffer (data va) = Ptr ba i -> buffer (data vb) = Ptr bb j ->
    ba <> bb.

(** The heap [w'] has every block of [w], unchanged. *)
Definition keeps_blocks (w w' : World) : Prop :=
  forall b blk, heap w !! b = Some blk -> heap w' !! b = Some blk.

(** The objects other than [this] are what they were. *)
Definition keeps_others (this : nat) (w w' : World) : Prop :=
  forall a, a <> this -> vecs w' !! a = vecs w !! a.

(** [w'] is [w] with one more object, [this], whose storage, if it has
    any, is a block that [w] did not have. *)
Definition constructed (this : nat) (w w' : World) : Prop :=
  exists v',
    vecs w' = <[this := v']> (vecs w) /\
    match buffer (data v') with
    | Ptr b _ => heap w !! b = None /\ exists blk, heap w' = <[b := blk]> (heap w)
    | _ => heap w' = heap w
    end.

(** A capacity with less than half of it unused: no storage, or fewer
    than twice as many slots as elements. *)
Definition tight (len cap : nat) : Prop :=
  len <= cap /\ (cap = 0 \/ cap < 2 * len).

(** The capacities that appending to an empty vector without storage
    leads to: [0] for no element, and otherwise the power of two with
    [len <= cap < 2 * len]. *)
Definition doubled (len cap : nat) : Prop :=
  (len = 0 /\ cap = 0) \/ (exists k, cap = 2 ^ k /\ len <= cap /\ cap < 2 * len).

(** The comparisons of the element type agree with equality and with each
    other: [==] is equality, and [<=>] is less, greater or equal as [<]
    and equality say. *)
Definition lawful_comparisons (CT : Comparable T) : Prop :=
  (forall x y, elt_eq x y = true <-> x = y) /\
  (forall x y, elt_cmp x y = Lt <-> elt_lt x y = true) /\
  (forall x y, elt_cmp x y = Gt <-> elt_lt y x = true) /\
  (forall x y, elt_cmp x y = Eq <-> x = y).

(** From [w] to [w'], the block that vector [a] had was released. *)
Definition released (w w' : World) (a : nat) : Prop :=
  forall va ba, vecs w !! a = Some va -> buffer (data va) = Ptr ba 0 ->
    heap w' !! ba = None.

(** [PTRDIFF_MAX]: no object has more bytes. *)
Definition ptrdiff_max : N := 9223372036854775807.

(** [n] objects of type [T] make an object the implementation can hold *)
Definition object_sized (n : nat) : Prop :=
  (N.of_nat n * N.pos sizeof_T <= ptrdiff_max)%N.

#[local] Arguments wp : simpl never.

Lemma wp_ret {A} (a : A) w QN QT QU : QN a w -> wp (ret a) w QN QT QU.
Proof. done. Qed.

Lemma wp_throw {A} w (QN : A -> World -> Prop) QT QU :
  QT w -> wp throw w QN QT QU.
Proof. done. Qed.

Lemma wp_undefined {A} w (QN : A -> World -> Prop) QT (QU : Prop) :
  QU -> wp undefined w QN QT QU.
Proof. done. Qed.

Lemma wp_bind {A B} (m : M A) (k : A -> M B) w QN QT QU :
  wp m w (fun a w' => wp (k a) w' QN QT QU) QT QU ->
  wp (bind m k) w QN QT QU.
Proof.
  unfold wp, bind. destruct (m w) as [[a| |] w']; done.
Qed.

Lemma wp_mono {A} (m : M A) w (QN QN' : A -> World -> Prop) (QT QT' : World -> Prop)
  (QU QU' : Prop) :
  wp m w QN QT QU ->
  (forall a w', QN a w' -> QN' a w') ->
  (forall w', QT w' -> QT' w') ->
  (QU -> QU') ->
  wp m w QN' QT' QU'.
Proof.
  unfold wp. destruct (m w) as [[a| |] w']; auto.
Qed.

Lemma wp_try_catch {A} (m h : M A) w QN QT QU :
  wp m w QN (fun w' => wp h w' QN QT QU) QU ->
  wp (try_catch m h) w QN QT QU.
Proof.
  unfold wp, try_catch. destruct (m w) as [[a| |] w']; done.
Qed.

Lemma wp_finally {A} (m : M A) (c : M unit) w QN QT QU :
  wp m w
    (fun a w' => wp c w' (fun _ w'' => QN a w'') QT QU)
    (fun w' => wp c w' (fun _ w'' => QT w'') QT QU) QU ->
  wp (finally m c) w QN QT QU.
Proof.
  unfold wp, finally, bind, ret, throw.
  destruct (m w) as [[a| |] w']; [| |done];
    destruct (c w') as [[[]| |] w'']; done.
Qed.

Lemma wp_assert (c : bool) w QN QT (QU : Prop) :
  (c = true -> QN tt w) -> (c = false -> QU) -> wp (assert c) w QN QT QU.
Proof. destruct c; unfold wp; simpl; auto. Qed.

Lemma wp_tick (c : bool) w QN QT QU :
  (c && faults (ops w) = false -> QN tt (set_ops (S (ops w)) w)) ->
  (c = true -> faults (ops w) = true -> QT (set_ops (S (ops w)) w)) ->
  wp (tick faults c) w QN QT QU.
Proof.
  unfold wp, tick. destruct c, (faults (ops w)); simpl; auto.
Qed.

#[local] Arguments replicate : simpl never.
#[local] Arguments ptr_diff : simpl never.
#[local] Arguments ptr_le : simpl never.
#[local] Arguments ptr_sub : simpl never.
#[local] Arguments ptr_add_int : simpl never.
#[local] Arguments to_int : simpl never.
#[local] Arguments int_to_size_t : simpl never.
#[local] Arguments int_count : simpl never.
#[local] Arguments size_t_sub : simpl never.

(** The postcondition holds of a world equal to the one at hand. *)
Ltac use_post HQ :=
  match type of HQ with
  | ?Q ?a ?w1 =>
      match goal with |- Q a ?w2 => replace w2 with w1; [exact HQ|] end
  | ?Q ?w1 =>
      match goal with |- Q ?w2 => replace w2 with w1; [exact HQ|] end
  end.

(** The length of lists built with [++], [take], [drop], [fmap] *)
Ltac simpl_length :=
  repeat first
    [ rewrite length_app | rewrite length_fmap | rewrite length_take
    | rewrite length_drop | rewrite length_replicate
    | progress cbn [length] ].

(** Lookups through the insertions and deletions made so far *)
Ltac heap_lookup :=
  cbn;
  repeat (rewrite lookup_insert_eq ||
          (rewrite lookup_insert_ne by done) ||
          (rewrite lookup_delete_ne by done));
  try done.

(** *** Slots *)

Lemma wp_read_slot b i pre s post w (QN : slot T -> World -> Prop) QT QU :
  heap w !! b = Some (pre ++ s :: post) -> i = length pre ->
  QN s w ->
  wp (read_slot (Ptr b i)) w QN QT QU.
Proof.
  intros Hb -> HQ. unfold wp, read_slot. rewrite Hb.
  by rewrite list_lookup_middle.
Qed.

Lemma wp_write_slot b i pre s0 s post w QN QT QU :
  heap w !! b = Some (pre ++ s0 :: post) -> i = length pre ->
  QN tt (set_heap (<[b := pre ++ s :: post]> (heap w)) w) ->
  wp (write_slot (Ptr b i) s) w QN QT QU.
Proof.
  intros Hb -> HQ. unfold wp, write_slot. rewrite Hb.
  rewrite decide_True; last (rewrite length_app; simpl; lia).
  replace (length pre) with (length pre + 0) by lia.
  by rewrite insert_app_r.
Qed.

Lemma wp_get_obj b i pre v post w (QN : T -> World -> Prop) QT QU :
  heap w !! b = Some (pre ++ Obj v :: post) -> i = length pre ->
  QN v w ->
  wp (get_obj (Ptr b i)) w QN QT QU.
Proof.
  intros Hb -> HQ. apply wp_bind.
  eapply wp_read_slot; [done..|]. by apply wp_ret.
Qed.

Lemma wp_emplace_slot b i pre v post w QN QT QU :
  heap w !! b = Some (pre ++ Raw :: post) -> i = length pre ->
  QN tt (set_heap (<[b := pre ++ Obj v :: post]> (heap w)) w) ->
  wp (emplace_slot (Ptr b i) v) w QN QT QU.
Proof.
  intros Hb -> HQ. apply wp_bind.
  eapply wp_read_slot; [done..|]. apply wp_bind, wp_ret.
  by eapply wp_write_slot.
Qed.

(** *** Operations of the element type *)

Lemma wp_construct_at b i pre v post w QN QT QU :
  heap w !! b = Some (pre ++ Raw :: post) -> i = length pre ->
  (faults (ops w) = false ->
   QN tt (mkWorld (<[b := pre ++ Obj v :: post]> (heap w)) (vecs w)
            (S (ops w)) (dtors w) (undestroyed w))) ->
  (faults (ops w) = true -> QT (set_ops (S (ops w)) w)) ->
  wp (construct_at faults (Ptr b i) v) w QN QT QU.
Proof.
  intros Hb -> HN HT. apply wp_bind.
  eapply wp_read_slot; [done..|]. apply wp_bind, wp_tick; [|auto].
  intros Hf. eapply wp_emplace_slot; [done..|]. by apply HN.
Qed.

Lemma wp_destroy_at b i pre v post w QN QT QU :
  heap w !! b = Some (pre ++ Obj v :: post) -> i = length pre ->
  QN tt (mkWorld (<[b := pre ++ Raw :: post]> (heap w)) (vecs w)
           (ops w) (S (dtors w)) (undestroyed w)) ->
  wp (destroy_at (Ptr b i)) w QN QT QU.
Proof.
  intros Hb -> HQ. apply wp_bind.
  eapply wp_get_obj; [done..|]. apply wp_bind.
  eapply wp_write_slot; [done..|]. done.
Qed.

Lemma wp_assign_at b i pre v0 v post w QN QT QU :
  heap w !! b = Some (pre ++ Obj v0 :: post) -> i = length pre ->
  (faults (ops w) = false ->
   QN tt (mkWorld (<[b := pre ++ Obj v :: post]> (heap w)) (vecs w)
            (S (ops w)) (dtors w) (undestroyed w))) ->
  (faults (ops w) = true -> QT (set_ops (S (ops w)) w)) ->
  wp (assign_at faults (Ptr b i) v) w QN QT QU.
Proof.
  intros Hb -> HN HT. apply wp_bind.
  eapply wp_get_obj; [done..|]. apply wp_bind, wp_tick; [|auto].
  intros Hf. eapply wp_write_slot; [done..|]. by apply HN.
Qed.

(** *** Standard algorithms *)

Lemma ptr_add_Ptr b i n : ptr_add (Ptr b i) n = Ptr b (i + n).
Proof. done. Qed.

Lemma wp_destroy_n b i pre xs post n w QN QT QU :
  heap w !! b = Some (pre ++ (Obj <$> xs) ++ post) ->
  i = length pre -> n = length xs ->
  QN tt (mkWorld (<[b := pre ++ replicate n Raw ++ post]> (heap w)) (vecs w)
           (ops w) (dtors w + n) (undestroyed w)) ->
  wp (destroy_n (Ptr b i) n) w QN QT QU.
Proof.
  intros Hb Hi ->. revert pre i w Hb Hi.
  induction xs as [|x xs IH]; intros pre i w Hb Hi HQ.
  - apply wp_ret. destruct w as [h vs o d u]; simpl in *.
    rewrite insert_id in HQ by done. by rewrite Nat.add_0_r in HQ.
  - rewrite fmap_cons in Hb. simpl.
    apply wp_bind. eapply wp_destroy_at; [done..|].
    apply (IH (pre ++ [Raw])).
    + simpl. rewrite lookup_insert_eq. by rewrite <- app_assoc.
    + rewrite length_app. simpl. lia.
    + simpl in *. rewrite insert_insert_eq, <- app_assoc. simpl.
      use_post HQ. f_equal. lia.
Qed.

(** The invariant rule of the [std::uninitialized_*] loop *)
Lemma wp_uninitialized_loop (ctor : nat -> M unit) d (I : nat -> World -> Prop)
  n k w QN QT QU :
  I k w ->
  (forall j w', k <= j < k + n -> I j w' ->
     wp (ctor j) w' (fun _ w'' => I (S j) w'')
       (fun w'' => wp (destroy_n d j) w'' (fun _ w3 => QT w3) QT QU) QU) ->
  (forall w', I (k + n) w' -> QN tt w') ->
  wp (uninitialized_loop ctor d k n) w QN QT QU.
Proof.
  revert k w. induction n as [|n IH]; intros k w HI Hstep HQ; simpl.
  - apply wp_ret, HQ. by rewrite Nat.add_0_r.
  - apply wp_bind, wp_try_catch.
    eapply wp_mono; [apply (Hstep k w); [lia|done] | | |done].
    + intros [] w' HI'. apply IH; [done| |].
      * intros j w'' Hj. apply Hstep. lia.
      * intros w'' HI''. apply HQ. by rewrite <- Nat.add_succ_comm.
    + intros w' Hd. apply wp_bind.
      eapply wp_mono; [exact Hd| | |]; auto.
Qed.

(** [std::uninitialized_value_construct_n] into raw slots of a block *)
Lemma wp_uninitialized_value_construct_n b i pre post n w QN QT QU :
  heap w !! b = Some (pre ++ replicate n Raw ++ post) ->
  i = length pre ->
  ((forall j, j < n -> faults (ops w + j) = false) ->
   QN tt (mkWorld (<[b := pre ++ replicate n (Obj default_value) ++ post]> (heap w))
            (vecs w) (ops w + n) (dtors w) (undestroyed w))) ->
  (forall j, j < n -> faults (ops w + j) = true ->
     QT (mkWorld (heap w) (vecs w) (ops w + S j) (dtors w + j) (undestroyed w))) ->
  wp (uninitialized_value_construct_n faults (Ptr b i) n) w QN QT QU.
Proof.
  intros Hb -> HN HT.
  apply (wp_uninitialized_loop _ _
    (fun k w' => k <= n /\ (forall j, j < k -> faults (ops w + j) = false) /\
       w' = mkWorld
         (<[b := pre ++ replicate k (Obj default_value) ++ replicate (n - k) Raw ++ post]>
            (heap w))
         (vecs w) (ops w + k) (dtors w) (undestroyed w))).
  - split; [lia|]. split; [intros; lia|].
    destruct w as [h vs o d u]; simpl in *.
    rewrite Nat.sub_0_r, insert_id, Nat.add_0_r; done.
  - intros j w' Hj (_ & Hnf & ->). simpl in Hj.
    unfold value_construct_at. rewrite ptr_add_Ptr.
    assert (Hn : n - j = S (n - S j)) by lia.
    eapply (wp_construct_at _ _ (pre ++ replicate j (Obj default_value))).
    + simpl. rewrite lookup_insert_eq, Hn. simpl. by rewrite <- app_assoc.
    + rewrite length_app, length_replicate. done.
    + cbn. intros Hf. split; [lia|]. split.
      { intros j' Hj'. destruct (decide (j' = j)) as [->|]; [done|]. apply Hnf. lia. }
      rewrite insert_insert_eq. f_equal; [|lia].
      f_equal. by rewrite replicate_S_end, <- !app_assoc.
    + simpl. intros Hf.
      eapply (wp_destroy_n _ _ pre (replicate j default_value)).
      * simpl. rewrite lookup_insert_eq. f_equal. f_equal.
        by rewrite fmap_replicate.
      * done.
      * by rewrite length_replicate.
      * simpl. rewrite insert_insert_eq.
        replace (pre ++ replicate j Raw ++ replicate (n - j) Raw ++ post)
          with (pre ++ replicate n Raw ++ post).
        2:{ f_equal. rewrite app_assoc, <- replicate_add. do 2 f_equal. lia. }
        rewrite insert_id by done.
        replace (S (ops w + j)) with (ops w + S j) by lia. apply HT; [lia|done].
  - intros w' (_ & Hnf & ->). cbn.
    rewrite Nat.sub_diag. apply HN, Hnf.
Qed.

Lemma wp_get_obj_lookup b i blk v w (QN : T -> World -> Prop) QT QU :
  heap w !! b = Some blk -> blk !! i = Some (Obj v) ->
  QN v w ->
  wp (get_obj (Ptr b i)) w QN QT QU.
Proof.
  intros Hb Hi HQ. unfold wp, get_obj, bind, read_slot. by rewrite Hb, Hi.
Qed.

Lemma fmap_middle {A B} (f : A -> B) (xs : list A) k x :
  xs !! k = Some x ->
  f <$> xs = (f <$> take k xs) ++ f x :: (f <$> drop (S k) xs).
Proof.
  intros Hk. rewrite <- (take_drop_middle xs k x Hk) at 1.
  by rewrite fmap_app, fmap_cons.
Qed.

(** The move constructor, from a slot of one block to a raw slot of
    another *)
Lemma wp_move_construct_at bs is_ spre v spost bd id dpre dpost w QN QT QU :
  bs <> bd ->
  heap w !! bs = Some (spre ++ Obj v :: spost) -> is_ = length spre ->
  heap w !! bd = Some (dpre ++ Raw :: dpost) -> id = length dpre ->
  (negb is_nothrow_move_constructible && faults (ops w) = false ->
   QN tt (mkWorld
            (<[bs := spre ++ Obj (moved_from v) :: spost]>
               (<[bd := dpre ++ Obj v :: dpost]> (heap w)))
            (vecs w) (S (ops w)) (dtors w) (undestroyed w))) ->
  (is_nothrow_move_constructible = false -> faults (ops w) = true ->
   QT (set_ops (S (ops w)) w)) ->
  wp (move_construct_at faults (Ptr bd id) (Ptr bs is_)) w QN QT QU.
Proof.
  intros Hne Hs -> Hd -> HN HT. apply wp_bind.
  eapply wp_get_obj; [done..|]. apply wp_bind.
  eapply wp_read_slot; [done..|]. apply wp_bind, wp_tick.
  - intros Hf. apply wp_bind. eapply wp_emplace_slot; [done..|].
    eapply wp_write_slot; [|done|].
    + cbn. by rewrite lookup_insert_ne.
    + cbn. by apply HN.
  - intros Hc Hf. apply HT; [|done]. by destruct is_nothrow_move_constructible.
Qed.

(** [std::uninitialized_copy_n] from one block into raw slots of another *)
Lemma wp_uninitialized_copy_n bs is_ sblk xs bd id dpre dpost n w QN QT QU :
  bs <> bd ->
  heap w !! bs = Some sblk ->
  (forall k x, xs !! k = Some x -> sblk !! (is_ + k) = Some (Obj x)) ->
  heap w !! bd = Some (dpre ++ replicate n Raw ++ dpost) ->
  id = length dpre -> n = length xs ->
  ((forall j, j < n -> faults (ops w + j) = false) ->
   QN tt (mkWorld (<[bd := dpre ++ (Obj <$> xs) ++ dpost]> (heap w))
            (vecs w) (ops w + n) (dtors w) (undestroyed w))) ->
  (forall j, j < n -> faults (ops w + j) = true ->
     QT (mkWorld (heap w) (vecs w) (ops w + S j) (dtors w + j) (undestroyed w))) ->
  wp (uninitialized_copy_n faults (Ptr bs is_) n (Ptr bd id)) w QN QT QU.
Proof.
  intros Hne Hs Hxs Hd -> -> HN HT.
  apply (wp_uninitialized_loop _ _
    (fun k w' => k <= length xs /\
       (forall j, j < k -> faults (ops w + j) = false) /\
       w' = mkWorld
         (<[bd := dpre ++ (Obj <$> take k xs) ++
                  replicate (length xs - k) Raw ++ dpost]> (heap w))
         (vecs w) (ops w + k) (dtors w) (undestroyed w))).
  - split; [lia|]. split; [intros; lia|].
    destruct w as [h vs o d u]; cbn in *.
    rewrite Nat.sub_0_r, insert_id, Nat.add_0_r; done.
  - intros j w' Hj (_ & Hnf & ->). cbn in Hj.
    destruct (lookup_lt_is_Some_2 xs j) as [x Hx]; [lia|].
    unfold copy_construct_at. rewrite !ptr_add_Ptr.
    assert (Hn : length xs - j = S (length xs - S j)) by lia.
    apply wp_bind. eapply wp_get_obj_lookup.
    { cbn. rewrite lookup_insert_ne by done. exact Hs. }
    { by apply Hxs. }
    eapply (wp_construct_at _ _ (dpre ++ (Obj <$> take j xs))).
    + cbn. rewrite lookup_insert_eq, Hn, replicate_S.
      by rewrite <- app_assoc.
    + rewrite length_app, length_fmap, length_take. lia.
    + cbn. intros Hf. split; [lia|]. split.
      { intros j' Hj'. destruct (decide (j' = j)) as [->|]; [done|]. apply Hnf. lia. }
      rewrite insert_insert_eq. f_equal; [|lia].
      f_equal. rewrite (take_S_r _ _ _ Hx), fmap_app, <- !app_assoc. done.
    + cbn. intros Hf.
      eapply (wp_destroy_n _ _ dpre (take j xs)).
      * cbn. by rewrite lookup_insert_eq.
      * done.
      * rewrite length_take. lia.
      * cbn. rewrite insert_insert_eq.
        replace (dpre ++ replicate j Raw ++ replicate (length xs - j) Raw ++ dpost)
          with (dpre ++ replicate (length xs) Raw ++ dpost).
        2:{ f_equal. rewrite app_assoc, <- replicate_add. do 2 f_equal. lia. }
        rewrite insert_id by done.
        replace (S (ops w + j)) with (ops w + S j) by lia. apply HT; [lia|done].
  - intros w' (_ & Hnf & ->). cbn.
    rewrite Nat.sub_diag, firstn_all. apply HN, Hnf.
Qed.

#[local] Arguments moved_prefix : simpl never.

Lemma moved_prefix_0 xs : moved_prefix 0 xs = Obj <$> xs.
Proof. unfold moved_prefix. by rewrite take_0, drop_0. Qed.

Lemma moved_prefix_all xs :
  moved_prefix (length xs) xs = Obj <$> (moved_from <$> xs).
Proof. unfold moved_prefix. by rewrite firstn_all, drop_all, app_nil_r. Qed.

Lemma moved_prefix_S k xs x :
  xs !! k = Some x ->
  moved_prefix k xs =
    (Obj <$> (moved_from <$> take k xs)) ++ Obj x :: (Obj <$> drop (S k) xs) /\
  moved_prefix (S k) xs =
    (Obj <$> (moved_from <$> take k xs)) ++
    Obj (moved_from x) :: (Obj <$> drop (S k) xs).
Proof.
  intros Hk. unfold moved_prefix. split.
  - by rewrite (drop_S _ _ _ Hk), fmap_cons.
  - by rewrite (take_S_r _ _ _ Hk), !fmap_app, <- app_assoc.
Qed.

(** [std::uninitialized_move_n] from one block into raw slots of another *)
Lemma wp_uninitialized_move_n bs is_ spre xs spost bd id dpre dpost n w QN QT QU :
  bs <> bd ->
  heap w !! bs = Some (spre ++ (Obj <$> xs) ++ spost) -> is_ = length spre ->
  heap w !! bd = Some (dpre ++ replicate n Raw ++ dpost) ->
  id = length dpre -> n = length xs ->
  QN tt (mkWorld
           (<[bd := dpre ++ (Obj <$> xs) ++ dpost]>
              (<[bs := spre ++ (Obj <$> (moved_from <$> xs)) ++ spost]> (heap w)))
           (vecs w) (ops w + n) (dtors w) (undestroyed w)) ->
  (forall j, j < n -> is_nothrow_move_constructible = false ->
     faults (ops w + j) = true ->
     QT (mkWorld (<[bs := spre ++ moved_prefix j xs ++ spost]> (heap w))
           (vecs w) (ops w + S j) (dtors w + j) (undestroyed w))) ->
  wp (uninitialized_move_n faults (Ptr bs is_) n (Ptr bd id)) w QN QT QU.
Proof.
  intros Hne Hs -> Hd -> -> HN HT.
  apply (wp_uninitialized_loop _ _
    (fun k w' => k <= length xs /\
       w' = mkWorld
         (<[bd := dpre ++ (Obj <$> take k xs) ++
                  replicate (length xs - k) Raw ++ dpost]>
            (<[bs := spre ++ moved_prefix k xs ++ spost]> (heap w)))
         (vecs w) (ops w + k) (dtors w) (undestroyed w))).
  - split; [lia|].
    destruct w as [h vs o d u]; cbn in *.
    rewrite Nat.sub_0_r, moved_prefix_0, Nat.add_0_r.
    rewrite (insert_id h bs) by done. by rewrite insert_id.
  - intros j w' Hj (_ & ->). cbn in Hj.
    destruct (lookup_lt_is_Some_2 xs j) as [x Hx]; [lia|].
    destruct (moved_prefix_S _ _ _ Hx) as [Hm HmS].
    rewrite !ptr_add_Ptr.
    assert (Hn : length xs - j = S (length xs - S j)) by lia.
    eapply (wp_move_construct_at _ _
              (spre ++ (Obj <$> (moved_from <$> take j xs))) x
              ((Obj <$> drop (S j) xs) ++ spost)
              _ _ (dpre ++ (Obj <$> take j xs))); [done|..].
    + cbn. rewrite lookup_insert_ne, lookup_insert_eq by done.
      by rewrite Hm, <- !app_assoc.
    + rewrite length_app, !length_fmap, length_take. lia.
    + cbn. rewrite lookup_insert_eq, Hn, replicate_S.
      by rewrite <- app_assoc.
    + rewrite length_app, length_fmap, length_take. lia.
    + cbn. intros Hf. split; [lia|].
      rewrite insert_insert_eq, (insert_insert_ne _ bs bd) by done.
      rewrite insert_insert_eq. f_equal; [|lia]. f_equal.
      * rewrite (take_S_r _ _ _ Hx), fmap_app, <- !app_assoc. done.
      * by rewrite HmS, <- !app_assoc.
    + cbn. intros Hc Hf.
      eapply (wp_destroy_n _ _ dpre (take j xs)).
      * cbn. by rewrite lookup_insert_eq.
      * done.
      * rewrite length_take. lia.
      * cbn. rewrite insert_insert_eq.
        replace (dpre ++ replicate j Raw ++ replicate (length xs - j) Raw ++ dpost)
          with (dpre ++ replicate (length xs) Raw ++ dpost).
        2:{ f_equal. rewrite app_assoc, <- replicate_add. do 2 f_equal. lia. }
        rewrite insert_id by (by rewrite lookup_insert_ne).
        replace (S (ops w + j)) with (ops w + S j) by lia.
        apply HT; [lia|done..].
  - intros w' (_ & ->). cbn.
    rewrite Nat.sub_diag, moved_prefix_all, firstn_all. apply HN.
Qed.

(** *** The allocator and [RawMemory] *)

Lemma wp_operator_new n w (QN : ptr -> World -> Prop) QT QU :
  (faults (ops w) = false ->
   forall b, heap w !! b = None ->
     QN (Ptr b 0) (mkWorld (<[b := replicate (room n) Raw]> (heap w)) (vecs w)
                     (S (ops w)) (dtors w) (undestroyed w))) ->
  (faults (ops w) = true -> QT (set_ops (S (ops w)) w)) ->
  wp (operator_new faults n) w QN QT QU.
Proof.
  intros HN HT. apply wp_bind, wp_tick; [|auto].
  intros Hf. unfold wp. cbn. apply HN; [done|].
  apply not_elem_of_dom, is_fresh.
Qed.

Lemma live_replicate_Raw n : live (replicate n (@Raw T)) = 0.
Proof. unfold live. induction n as [|n IH]; [done|]. by rewrite replicate_S. Qed.

Lemma live_app (l1 l2 : list (slot T)) : live (l1 ++ l2) = live l1 + live l2.
Proof. unfold live. by rewrite filter_app, length_app. Qed.

Lemma live_Obj (xs : list T) : live (Obj <$> xs) = length xs.
Proof.
  unfold live. induction xs as [|x xs IH]; [done|].
  rewrite fmap_cons, filter_cons_True by done. simpl. by rewrite IH.
Qed.

Lemma wp_operator_delete b blk w QN QT QU :
  heap w !! b = Some blk ->
  QN tt (mkWorld (delete b (heap w)) (vecs w) (ops w) (dtors w)
           (undestroyed w + live blk)) ->
  wp (operator_delete (Ptr b 0)) w QN QT QU.
Proof. intros Hb HQ. unfold wp, operator_delete. by rewrite Hb. Qed.

Lemma room_fits n :
  fits n -> room (size_t_mul (N.of_nat n) (N.pos sizeof_T)) = n.
Proof.
  unfold fits, room, size_t_mul. intros Hn.
  rewrite N.mod_small by done. rewrite N.div_mul by done. apply Nat2N.id.
Qed.

Lemma fits_le n m : fits n -> m <= n -> fits m.
Proof.
  unfold fits. intros Hn Hm.
  eapply N.le_lt_trans; [|exact Hn].
  apply N.mul_le_mono_r. lia.
Qed.

Ltac fit :=
  first [ assumption
        | eapply fits_le; [eassumption|cbn; lia]
        | match goal with H : _ -> fits _ |- _ => apply H; cbn; lia end ].

Lemma wp_RawMemory_ctor n w (QN : RawMemory -> World -> Prop) QT QU :
  n <> 0 -> fits n ->
  (faults (ops w) = false ->
   forall b, heap w !! b = None ->
     QN (mkRawMemory (Ptr b 0) n)
        (mkWorld (<[b := replicate n Raw]> (heap w)) (vecs w)
           (S (ops w)) (dtors w) (undestroyed w))) ->
  (faults (ops w) = true -> QT (set_ops (S (ops w)) w)) ->
  wp (RawMemory_ctor faults n) w QN QT QU.
Proof.
  intros Hn Hfit HN HT. apply wp_bind. unfold Allocate.
  rewrite decide_True by done.
  apply wp_operator_new; [|done].
  intros Hf b Hb. apply wp_ret. rewrite room_fits by done. by apply HN.
Qed.

Lemma wp_with_RawMemory {A} n (body : RawMemory -> M (A * RawMemory)) w QN QT QU :
  wp (RawMemory_ctor faults n) w
    (fun new_data w1 =>
       wp (body new_data) w1
         (fun ar w2 => wp (RawMemory_dtor ar.2) w2 (fun _ w3 => QN ar.1 w3) QT QU)
         (fun w2 => wp (RawMemory_dtor new_data) w2 (fun _ w3 => QT w3) QT QU)
         QU)
    QT QU ->
  wp (with_RawMemory faults n body) w QN QT QU.
Proof.
  intros Hw. apply wp_bind. eapply wp_mono; [exact Hw| |done..].
  intros new_data w1. unfold wp, bind, ret, throw.
  destruct (body new_data w1) as [[[a r]| |] w2]; cbn; [| |done].
  - destruct (RawMemory_dtor r w2) as [[[]| |] w3]; done.
  - destruct (RawMemory_dtor new_data w2) as [[[]| |] w3]; done.
Qed.

(** *** Vector objects *)

Lemma wp_get_vec this v w (QN : Vector -> World -> Prop) QT QU :
  vecs w !! this = Some v -> QN v w -> wp (get_vec this) w QN QT QU.
Proof. intros Hv HQ. unfold wp, get_vec. by rewrite Hv. Qed.

Lemma wp_set_data this v d w QN QT QU :
  vecs w !! this = Some v ->
  QN tt (set_vecs (<[this := mkVector d (size v)]> (vecs w)) w) ->
  wp (set_data this d) w QN QT QU.
Proof. intros Hv HQ. apply wp_bind. by eapply wp_get_vec. Qed.

Lemma wp_set_size this v n w QN QT QU :
  vecs w !! this = Some v ->
  QN tt (set_vecs (<[this := mkVector (data v) n]> (vecs w)) w) ->
  wp (set_size this n) w QN QT QU.
Proof. intros Hv HQ. apply wp_bind. by eapply wp_get_vec. Qed.

(** ** The representation of a vector *)

#[local] Arguments block_of : simpl never.

Lemma block_of_nil_inv l cap : block_of l cap = [] -> l = [] /\ cap = 0.
Proof.
  unfold block_of. intros Hnil. apply app_eq_nil in Hnil as [Hl Hr].
  apply fmap_nil_inv in Hl as ->. split; [done|].
  destruct cap; [done|]. simpl in Hr. by rewrite replicate_S in Hr.
Qed.

Lemma block_of_nil cap : block_of [] cap = replicate cap Raw.
Proof. unfold block_of. simpl. by rewrite Nat.sub_0_r. Qed.

Lemma length_block_of l cap : length l <= cap -> length (block_of l cap) = cap.
Proof.
  intros Hl. unfold block_of.
  rewrite length_app, length_fmap, length_replicate. lia.
Qed.

Lemma block_of_lookup l cap k x :
  l !! k = Some x -> block_of l cap !! (0 + k) = Some (Obj x).
Proof.
  intros Hk. unfold block_of. apply lookup_app_l_Some.
  rewrite list_lookup_fmap. cbn. by rewrite Hk.
Qed.

Lemma transfer_n_0 first d_first : transfer_n faults first 0 d_first = ret tt.
Proof. unfold transfer_n. by destruct moves_elements. Qed.

Lemma wp_RawMemory_dtor_null r w QN QT QU :
  buffer r = nullptr -> QN tt w -> wp (RawMemory_dtor r) w QN QT QU.
Proof. intros Hr HQ. unfold wp, RawMemory_dtor, Deallocate. by rewrite Hr. Qed.

Lemma wp_RawMemory_dtor r b blk w QN QT QU :
  buffer r = Ptr b 0 ->
  heap w !! b = Some blk ->
  QN tt (mkWorld (delete b (heap w)) (vecs w) (ops w) (dtors w)
           (undestroyed w + live blk)) ->
  wp (RawMemory_dtor r) w QN QT QU.
Proof.
  intros Hr Hb HQ. unfold RawMemory_dtor, Deallocate. rewrite Hr.
  by eapply wp_operator_delete.
Qed.

Lemma Reserve_spec this l cap n w :
  owns w this l cap -> cap < n ->
  fits n ->
  wp (Reserve faults this n) w
    (fun _ w' =>
       owns w' this l n /\
       (forall a, a <> this -> vecs w' !! a = vecs w !! a) /\
       dtors w' = dtors w + length l /\
       undestroyed w' = undestroyed w /\
       ops w <= ops w')
    (fun w' =>
       faulted (ops w) /\ vecs w' = vecs w /\
       (moves_elements = false -> heap w' = heap w))
    False.
Proof.
  intros (v & Hv & Hsz & Hcap & Hle & Hst) Hn Hfit. unfold Reserve.
  apply wp_bind. eapply wp_get_vec; [done|].
  rewrite decide_False by lia.
  apply wp_with_RawMemory, wp_RawMemory_ctor; [lia|fit| |].
  2:{ intros Hf. split; [by exists (ops w)|]. done. }
  intros Hf bn Hbn. cbn.
  destruct v as [[p c] sz]; cbn in *. subst c sz.
  destruct p as [|b [|i]|]; cbn in Hst; [| |done..].
  - (* no storage *)
    apply block_of_nil_inv in Hst as [-> ->]. cbn.
    rewrite transfer_n_0. apply wp_bind, wp_ret, wp_bind, wp_ret.
    unfold RawMemory_Swap. cbn. apply wp_bind.
    eapply wp_set_data; [done|]. apply wp_ret. cbn.
    apply wp_RawMemory_dtor_null; [done|]. cbn.
    split_and!; [| |done|done|lia].
    + exists (mkVector (mkRawMemory (Ptr bn 0) n) 0); cbn.
      rewrite !lookup_insert_eq, block_of_nil. split_and!; done || lia.
    + intros a Ha. by rewrite lookup_insert_ne.
  - (* a block *)
    assert (Hbne : b <> bn) by (intros ->; congruence).
    apply wp_bind. unfold transfer_n.
    destruct moves_elements eqn:Hmv.
    + eapply (wp_uninitialized_move_n _ _ [] _ _ _ _ [] (replicate (n - length l) Raw));
        [done| | | | | | |].
      * cbn. rewrite lookup_insert_ne by done. exact Hst.
      * done.
      * cbn. rewrite lookup_insert_eq. f_equal.
        rewrite <- replicate_add. f_equal. lia.
      * done.
      * done.
      * cbn. apply wp_bind.
        eapply (wp_destroy_n _ _ [] (moved_from <$> l)).
        { cbn. rewrite lookup_insert_ne, lookup_insert_eq by done. done. }
        { done. }
        { by rewrite length_fmap. }
        cbn. unfold RawMemory_Swap. cbn. apply wp_bind.
        eapply wp_set_data; [done|]. apply wp_ret. cbn.
        eapply wp_RawMemory_dtor; [done| |].
        { cbn. rewrite lookup_insert_eq. done. }
        cbn. split_and!.
        -- exists (mkVector (mkRawMemory (Ptr bn 0) n) (length l)). cbn.
           rewrite lookup_insert_eq. repeat split; [lia|].
           rewrite delete_insert_eq, lookup_delete_ne, lookup_insert_eq by done.
           done.
        -- intros a Ha. by rewrite lookup_insert_ne.
        -- done.
        -- rewrite live_app, !live_replicate_Raw. lia.
        -- lia.
      * cbn. intros j Hj Hc Hf'.
        eapply wp_RawMemory_dtor; [done| |].
        { cbn. rewrite lookup_insert_ne, lookup_insert_eq by done. done. }
        cbn. split_and!; [|done..].
        exists (S (ops w + j)). split; [lia|done].
    + eapply (wp_uninitialized_copy_n _ 0 _ l _ _ [] (replicate (n - length l) Raw));
        [done| | | | | | |].
      * cbn. rewrite lookup_insert_ne by done. exact Hst.
      * intros k x Hk. by apply block_of_lookup.
      * cbn. rewrite lookup_insert_eq. f_equal.
        rewrite <- replicate_add. f_equal. lia.
      * done.
      * done.
      * cbn. intros Hnf. apply wp_bind.
        eapply (wp_destroy_n _ _ [] l).
        { cbn. rewrite lookup_insert_ne, lookup_insert_ne by done. exact Hst. }
        { done. }
        { done. }
        cbn. unfold RawMemory_Swap. cbn. apply wp_bind.
        eapply wp_set_data; [done|]. apply wp_ret. cbn.
        eapply wp_RawMemory_dtor; [done| |].
        { cbn. rewrite lookup_insert_eq. done. }
        cbn. split_and!.
        -- exists (mkVector (mkRawMemory (Ptr bn 0) n) (length l)). cbn.
           rewrite lookup_insert_eq. split_and!; [done..|lia|].
           rewrite delete_insert_eq, lookup_delete_ne, lookup_insert_eq by done.
           done.
        -- intros a Ha. by rewrite lookup_insert_ne.
        -- done.
        -- rewrite live_app, !live_replicate_Raw. lia.
        -- lia.
      * cbn. intros j Hj Hf'.
        eapply wp_RawMemory_dtor; [done| |].
        { cbn. rewrite lookup_insert_eq. done. }
        cbn. split_and!; [|done|].
        -- exists (S (ops w + j)). split; [lia|done].
        -- intros _. by rewrite delete_insert_eq, delete_id.
Qed.

Lemma grown_gt n : n < grown n.
Proof. unfold grown. case_decide; lia. Qed.

Lemma block_of_snoc l cap x :
  length l < cap ->
  (Obj <$> l) ++ Obj x :: replicate (cap - S (length l)) Raw = block_of (l ++ [x]) cap.
Proof.
  intros Hl. unfold block_of.
  rewrite fmap_app, length_app, <- app_assoc. cbn.
  do 3 f_equal. lia.
Qed.

Lemma block_of_raw_next l cap :
  length l < cap ->
  block_of l cap = (Obj <$> l) ++ Raw :: replicate (cap - S (length l)) Raw.
Proof.
  intros Hl. unfold block_of. f_equal.
  rewrite <- replicate_S. f_equal. lia.
Qed.

(** The first statement of [PushBack] and [EmplaceBack]: the new element
    is constructed past the end, in a larger buffer if the vector is full. *)
Lemma wp_append this v l cap x w :
  vecs w !! this = Some v -> size v = length l -> capacity (data v) = cap ->
  length l <= cap -> stores w (buffer (data v)) (block_of l cap) ->
  (cap <= length l -> fits (grown (length l))) ->
  wp (if decide (capacity (data v) <= size v)
      then
        with_RawMemory faults (grown (size v)) (fun new_data =>
          construct_at faults (ptr_add (GetAddress new_data) (size v)) x ;;;
          transfer_n faults (GetAddress (data v)) (size v) (GetAddress new_data) ;;;
          destroy_n (GetAddress (data v)) (size v) ;;;
          let (d, new_data') := RawMemory_Swap (data v) new_data in
          set_data this d ;;;
          ret (tt, new_data'))
      else construct_at faults (ptr_add (GetAddress (data v)) (size v)) x) w
    (fun _ w' =>
       let cap' := if decide (cap <= length l) then grown (length l) else cap in
       (exists v',
          vecs w' = <[this := v']> (vecs w) /\
          size v' = length l /\ capacity (data v') = cap' /\
          stores w' (buffer (data v')) (block_of (l ++ [x]) cap')) /\
       undestroyed w' = undestroyed w /\
       (cap <= length l -> faults (ops w) = false /\ faults (S (ops w)) = false))
    (fun w' =>
       faulted (ops w) /\ vecs w' = vecs w /\
       (moves_elements = false \/ length l < cap \/
        faults (ops w) = true \/ faults (S (ops w)) = true ->
        heap w' = heap w) /\
       (cap <= length l -> faults (ops w) = false -> faults (S (ops w)) = true ->
        ops w' = S (S (ops w)) /\ dtors w' = dtors w))
    False.
Proof.
  intros Hv Hsz Hcap Hle Hst Hfit.
  destruct v as [[p c] sz]; cbn in *. subst c sz.
  case_decide as Hfull.
  - (* the vector is full *)
    assert (cap = length l) as -> by lia. clear Hle Hfull.
    pose proof (grown_gt (length l)) as Hg.
    apply wp_with_RawMemory, wp_RawMemory_ctor; [lia|fit| |].
    2:{ intros Hf. split_and!; [by exists (ops w)|done|done|].
        intros _ ?. congruence. }
    intros Hf bn Hbn. cbn.
    apply wp_bind.
    eapply (wp_construct_at _ _ (replicate (length l) Raw) _
              (replicate (grown (length l) - S (length l)) Raw)).
    { cbn. rewrite lookup_insert_eq. f_equal.
      rewrite <- replicate_S, <- replicate_add. f_equal. lia. }
    { by rewrite length_replicate. }
    2:{ cbn. intros Hf'.
        eapply wp_RawMemory_dtor; [done| |].
        { cbn. by rewrite lookup_insert_eq. }
        cbn. split_and!; [|done| |done].
        - exists (S (ops w)). split; [lia|done].
        - intros _. by rewrite delete_insert_eq, delete_id. }
    cbn. intros Hf'.
    destruct p as [|b [|i]|]; cbn in Hst; [| |done..].
    + (* no storage *)
      apply block_of_nil_inv in Hst as [-> _]. cbn.
      rewrite transfer_n_0. apply wp_bind, wp_ret, wp_bind, wp_ret.
      unfold RawMemory_Swap. cbn. apply wp_bind.
      eapply wp_set_data; [done|]. apply wp_ret. cbn.
      apply wp_RawMemory_dtor_null; [done|]. cbn.
      split_and!; [|done..].
      eexists. split; [done|]. cbn. split_and!; [done..|].
      by rewrite insert_insert_eq, lookup_insert_eq.
    + (* a block *)
      assert (Hbne : b <> bn) by (intros ->; congruence).
      unfold block_of in Hst. rewrite Nat.sub_diag in Hst.
      apply wp_bind. unfold transfer_n.
      destruct moves_elements eqn:Hmv.
      * eapply (wp_uninitialized_move_n _ _ [] _ _ _ _ []); [done| | | | | | |].
        -- heap_lookup.
        -- done.
        -- cbn. by rewrite lookup_insert_eq.
        -- done.
        -- done.
        -- cbn. apply wp_bind.
           eapply (wp_destroy_n _ _ [] (moved_from <$> l)).
           { cbn. rewrite lookup_insert_ne, lookup_insert_eq by done. done. }
           { done. }
           { by rewrite length_fmap. }
           cbn. unfold RawMemory_Swap. cbn. apply wp_bind.
           eapply wp_set_data; [done|]. apply wp_ret. cbn.
           eapply wp_RawMemory_dtor; [done| |].
           { cbn. rewrite lookup_insert_eq. done. }
           cbn. split_and!; [| |done].
           ++ eexists. split; [done|]. cbn. split_and!; [done..|].
              rewrite delete_insert_eq, lookup_delete_ne by done.
              rewrite insert_insert_eq, lookup_insert_eq.
              by rewrite block_of_snoc.
           ++ rewrite live_app, !live_replicate_Raw. cbn. lia.
        -- cbn. intros j Hj Hc Hfj.
           eapply wp_RawMemory_dtor; [done| |].
           { cbn. rewrite lookup_insert_ne, lookup_insert_eq by done. done. }
           cbn. split_and!; [|done| |intros _ _ ?; congruence].
           ++ exists (S (S (ops w + j))). split; [lia|done].
           ++ intros [|[|[|]]]; [done|lia|congruence..].
      * eapply (wp_uninitialized_copy_n _ 0 _ l _ _ []); [done| | | | | | |].
        -- heap_lookup.
        -- intros k y Hk. apply lookup_app_l_Some.
           rewrite list_lookup_fmap. cbn. by rewrite Hk.
        -- cbn. by rewrite lookup_insert_eq.
        -- done.
        -- done.
        -- cbn. intros Hnf. apply wp_bind.
           eapply (wp_destroy_n _ _ [] l).
           { heap_lookup. }
           { done. }
           { done. }
           cbn. unfold RawMemory_Swap. cbn. apply wp_bind.
           eapply wp_set_data; [done|]. apply wp_ret. cbn.
           eapply wp_RawMemory_dtor; [done| |].
           { cbn. rewrite lookup_insert_eq. done. }
           cbn. split_and!; [| |done].
           ++ eexists. split; [done|]. cbn. split_and!; [done..|].
              rewrite delete_insert_eq, lookup_delete_ne by done.
              rewrite insert_insert_eq, lookup_insert_eq.
              by rewrite block_of_snoc.
           ++ rewrite live_app, !live_replicate_Raw. cbn. lia.
        -- cbn. intros j Hj Hfj.
           eapply wp_RawMemory_dtor; [done| |].
           { cbn. rewrite lookup_insert_eq. done. }
           cbn. split_and!; [|done| |intros _ _ ?; congruence].
           ++ exists (S (S (ops w + j))). split; [lia|done].
           ++ intros _. by rewrite insert_insert_eq, delete_insert_eq, delete_id.
  - (* spare capacity *)
    assert (Hlt : length l < cap) by lia.
    destruct p as [|b [|i]|]; cbn in Hst; [| |done..].
    { apply block_of_nil_inv in Hst as [_ ->]. lia. }
    rewrite block_of_raw_next in Hst by done.
    eapply wp_construct_at; [done| |..].
    + by rewrite length_fmap.
    + intros Hf. cbn. split_and!; [|done|intros; lia].
      exists (mkVector (mkRawMemory (Ptr b 0) cap) (length l)).
      rewrite insert_id by done. cbn. split_and!; [done..|].
      by rewrite lookup_insert_eq, block_of_snoc.
    + intros Hf. split_and!; [by exists (ops w)|done|done|intros; lia].
Qed.

Lemma capacity_after_append_gt l cap :
  length l <= cap -> length l < capacity_after_append l cap.
Proof.
  unfold capacity_after_append. case_decide; [|lia].
  intros _. apply grown_gt.
Qed.

Lemma PushBack_spec this l cap x w :
  owns w this l cap ->
  (cap <= length l -> fits (grown (length l))) ->
  wp (PushBack faults this x) w
    (fun _ w' =>
       owns w' this (l ++ [x]) (capacity_after_append l cap) /\
       (forall a, a <> this -> vecs w' !! a = vecs w !! a) /\
       undestroyed w' = undestroyed w /\
       (cap <= length l -> faults (ops w) = false /\ faults (S (ops w)) = false))
    (fun w' =>
       faulted (ops w) /\ vecs w' = vecs w /\
       (moves_elements = false \/ length l < cap \/
        faults (ops w) = true \/ faults (S (ops w)) = true ->
        heap w' = heap w) /\
       (cap <= length l -> faults (ops w) = false -> faults (S (ops w)) = true ->
        ops w' = S (S (ops w)) /\ dtors w' = dtors w))
    False.
Proof.
  intros (v & Hv & Hsz & Hcap & Hle & Hst) Hfit. unfold PushBack.
  apply wp_bind. eapply wp_get_vec; [done|].
  apply wp_bind.
  eapply wp_mono; [by apply (wp_append this v l cap x w)| |done..].
  intros [] w' [(v' & Hvs & Hsz' & Hcap' & Hst') [Hu Hnf]]. cbn in *.
  apply wp_bind. eapply wp_get_vec; [by rewrite Hvs, lookup_insert_eq|].
  eapply wp_set_size; [by rewrite Hvs, lookup_insert_eq|].
  cbn. split_and!; [| |done..].
  - eexists. split; [heap_lookup|]. cbn.
    pose proof (capacity_after_append_gt l cap Hle).
    rewrite length_app. cbn. split_and!; [lia|done|lia|done].
  - intros a Ha. by rewrite Hvs, !lookup_insert_ne.
Qed.

Lemma EmplaceBack_spec this l cap x w :
  owns w this l cap ->
  (cap <= length l -> fits (grown (length l))) ->
  wp (EmplaceBack faults this x) w
    (fun r w' =>
       owns w' this (l ++ [x]) (capacity_after_append l cap) /\
       (exists v', vecs w' !! this = Some v' /\
                   r = ptr_add (buffer (data v')) (length l)) /\
       (forall a, a <> this -> vecs w' !! a = vecs w !! a) /\
       undestroyed w' = undestroyed w /\
       (cap <= length l -> faults (ops w) = false /\ faults (S (ops w)) = false))
    (fun w' =>
       faulted (ops w) /\ vecs w' = vecs w /\
       (moves_elements = false \/ length l < cap \/
        faults (ops w) = true \/ faults (S (ops w)) = true ->
        heap w' = heap w) /\
       (cap <= length l -> faults (ops w) = false -> faults (S (ops w)) = true ->
        ops w' = S (S (ops w)) /\ dtors w' = dtors w))
    False.
Proof.
  intros (v & Hv & Hsz & Hcap & Hle & Hst) Hfit. unfold EmplaceBack.
  apply wp_bind. eapply wp_get_vec; [done|].
  apply wp_bind.
  eapply wp_mono; [by apply (wp_append this v l cap x w)| |done..].
  intros [] w' [(v' & Hvs & Hsz' & Hcap' & Hst') [Hu Hnf]]. cbn in *.
  apply wp_bind. eapply wp_get_vec; [by rewrite Hvs, lookup_insert_eq|].
  apply wp_bind.
  eapply wp_set_size; [by rewrite Hvs, lookup_insert_eq|].
  pose proof (capacity_after_append_gt l cap Hle) as Hgt.
  fold (capacity_after_append l cap) in Hcap', Hst'.
  apply wp_bind, wp_assert.
  2:{ intros Hc. apply bool_decide_eq_false in Hc. lia. }
  intros _. apply wp_ret.
  cbn. split_and!; [| | |done..].
  - eexists. split; [heap_lookup|]. cbn.
    rewrite length_app. cbn. split_and!; [lia|done|lia|done].
  - eexists. split; [heap_lookup|]. cbn. by rewrite Hsz'.
  - intros a Ha. by rewrite Hvs, !lookup_insert_ne.
Qed.

(** *** Shifting a range by one slot inside a block *)

(** [p[0] = std::move(p[1])] *)
Lemma wp_move_assign_left b d pre y x post w QN QT QU :
  heap w !! b = Some (pre ++ Obj y :: Obj x :: post) -> d = length pre ->
  (faults (ops w) = false ->
   QN tt (mkWorld (<[b := pre ++ Obj x :: Obj (moved_from x) :: post]> (heap w))
            (vecs w) (S (ops w)) (dtors w) (undestroyed w))) ->
  (faults (ops w) = true -> QT (set_ops (S (ops w)) w)) ->
  wp (move_assign_at faults (Ptr b d) (Ptr b (d + 1))) w QN QT QU.
Proof.
  intros Hb -> HN HT. apply wp_bind.
  eapply (wp_get_obj _ _ (pre ++ [Obj y])).
  { rewrite <- app_assoc. exact Hb. }
  { rewrite length_app. done. }
  apply wp_bind. eapply wp_assign_at; [done..| |done].
  intros Hf.
  eapply (wp_write_slot _ _ (pre ++ [Obj x])).
  { heap_lookup. by rewrite <- app_assoc. }
  { rewrite length_app. done. }
  cbn. rewrite insert_insert_eq, <- app_assoc. by apply HN.
Qed.

(** [p[1] = std::move(p[0])] *)
Lemma wp_move_assign_right b d pre x y post w QN QT QU :
  heap w !! b = Some (pre ++ Obj x :: Obj y :: post) -> d = length pre ->
  (faults (ops w) = false ->
   QN tt (mkWorld (<[b := pre ++ Obj (moved_from x) :: Obj x :: post]> (heap w))
            (vecs w) (S (ops w)) (dtors w) (undestroyed w))) ->
  (faults (ops w) = true -> QT (set_ops (S (ops w)) w)) ->
  wp (move_assign_at faults (Ptr b (d + 1)) (Ptr b d)) w QN QT QU.
Proof.
  intros Hb -> HN HT. apply wp_bind.
  eapply wp_get_obj; [done..|].
  apply wp_bind. eapply (wp_assign_at _ _ (pre ++ [Obj x])).
  { rewrite <- app_assoc. exact Hb. }
  { rewrite length_app. done. }
  2:{ done. }
  intros Hf.
  eapply (wp_write_slot _ _ pre).
  { heap_lookup. by rewrite <- app_assoc. }
  { done. }
  cbn. rewrite insert_insert_eq. by apply HN.
Qed.

Lemma last_moved_cons y x xs : last_moved y (x :: xs) = last_moved (moved_from x) xs.
Proof.
  unfold last_moved. destruct xs as [|z xs]; [done|].
  rewrite last_cons_cons.
  destruct (last (z :: xs)) eqn:E; [done|]. by apply last_None in E.
Qed.

Lemma first_moved_snoc y xs x :
  first_moved y (xs ++ [x]) = first_moved (moved_from x) xs.
Proof. by destruct xs. Qed.

(** [std::move(p + 1, p + 1 + n, p)] *)
Lemma wp_shift_left b d pre y xs post n w QN QT QU :
  heap w !! b = Some (pre ++ Obj y :: (Obj <$> xs) ++ post) ->
  d = length pre -> n = length xs ->
  ((forall j, j < n -> faults (ops w + j) = false) ->
   QN tt (mkWorld
            (<[b := pre ++ (Obj <$> xs) ++ Obj (last_moved y xs) :: post]> (heap w))
            (vecs w) (ops w + n) (dtors w) (undestroyed w))) ->
  (forall w', vecs w' = vecs w -> faulted (ops w) -> QT w') ->
  wp (assign_forward (move_assign_at faults) (Ptr b (d + 1)) n (Ptr b d)) w QN QT QU.
Proof.
  intros Hb Hd ->. revert pre d y w Hb Hd.
  induction xs as [|x xs IH]; intros pre d y w Hb Hd HN HT.
  - apply wp_ret. destruct w as [h vs o dt u]; cbn in *.
    rewrite insert_id, Nat.add_0_r in HN by done. apply HN. intros; lia.
  - rewrite fmap_cons in Hb. cbn [assign_forward length].
    apply wp_bind. eapply wp_move_assign_left; [done..| |].
    2:{ intros Hf. apply HT; [done|]. by exists (ops w). }
    intros Hf. rewrite !ptr_add_Ptr.
    apply (IH (pre ++ [Obj x]) (d + 1) (moved_from x)).
    + heap_lookup. by rewrite <- app_assoc.
    + rewrite length_app. cbn. lia.
    + cbn. intros Hnf. rewrite insert_insert_eq.
      rewrite last_moved_cons, fmap_cons in HN. cbn in HN.
      rewrite <- app_assoc. cbn.
      assert (Hall : forall j, j < S (length xs) -> faults (ops w + j) = false).
      { intros [|j] Hj; [by rewrite Nat.add_0_r|].
        replace (ops w + S j) with (S (ops w + j)) by lia. apply Hnf. lia. }
      specialize (HN Hall). use_post HN. f_equal. lia.
    + cbn. intros w' Hvs (k & Hk & Hfk). apply HT; [done|].
      exists k. split; [lia|done].
Qed.

(** [std::move_backward(p, p + n, p + n + 1)] *)
Lemma wp_shift_right b d pre xs y post n w QN QT QU :
  heap w !! b = Some (pre ++ (Obj <$> xs) ++ Obj y :: post) ->
  d = length pre -> n = length xs ->
  ((forall j, j < n -> faults (ops w + j) = false) ->
   QN tt (mkWorld
            (<[b := pre ++ Obj (first_moved y xs) :: (Obj <$> xs) ++ post]> (heap w))
            (vecs w) (ops w + n) (dtors w) (undestroyed w))) ->
  (forall w', vecs w' = vecs w -> faulted (ops w) -> QT w') ->
  wp (assign_backward (move_assign_at faults) (Ptr b (d + n)) n (Ptr b (d + n + 1)))
    w QN QT QU.
Proof.
  intros Hb Hd ->. revert y post w Hb.
  induction xs as [|x xs IH] using rev_ind; intros y post w Hb HN HT.
  - apply wp_ret. destruct w as [h vs o dt u]; cbn in *.
    rewrite insert_id, Nat.add_0_r in HN by done. apply HN. intros; lia.
  - rewrite fmap_app, <- app_assoc in Hb. cbn in Hb.
    rewrite length_app. cbn [length].
    replace (length xs + 1) with (S (length xs)) by lia.
    cbn [assign_backward]. unfold ptr_sub.
    rewrite !decide_True by lia.
    replace (d + S (length xs) + 1 - 1) with (d + length xs + 1) by lia.
    replace (d + S (length xs) - 1) with (d + length xs) by lia.
    apply wp_bind.
    eapply (wp_move_assign_right _ _ (pre ++ (Obj <$> xs))).
    { by rewrite <- app_assoc. }
    { rewrite length_app, length_fmap. lia. }
    2:{ intros Hf. apply HT; [done|]. by exists (ops w). }
    intros Hf.
    apply (IH (moved_from x) (Obj x :: post)).
    + heap_lookup. by rewrite <- app_assoc.
    + cbn. intros Hnf. rewrite insert_insert_eq.
      rewrite first_moved_snoc, fmap_app, <- app_assoc in HN. cbn in HN.
      rewrite length_app in HN. cbn in HN.
      assert (Hall : forall j, j < length xs + 1 -> faults (ops w + j) = false).
      { intros [|j] Hj; [by rewrite Nat.add_0_r|].
        replace (ops w + S j) with (S (ops w + j)) by lia. apply Hnf. lia. }
      specialize (HN Hall). use_post HN. f_equal. lia.
    + cbn. intros w' Hvs (k & Hk & Hfk). apply HT; [done|].
      exists k. split; [lia|done].
Qed.

Lemma block_of_snoc_raw l x cap :
  length l < cap ->
  (Obj <$> l) ++ Raw :: replicate (cap - length (l ++ [x])) Raw = block_of l cap.
Proof.
  intros Hl. unfold block_of. f_equal.
  rewrite length_app, <- replicate_S. cbn. f_equal. lia.
Qed.

Lemma PopBack_spec this l x cap w :
  owns w this (l ++ [x]) cap ->
  wp (PopBack this) w
    (fun _ w' =>
       owns w' this l cap /\
       (forall a, a <> this -> vecs w' !! a = vecs w !! a) /\
       dtors w' = S (dtors w) /\ undestroyed w' = undestroyed w /\
       ops w' = ops w)
    (fun _ => False) False.
Proof.
  intros (v & Hv & Hsz & Hcap & Hle & Hst). unfold PopBack.
  rewrite length_app in Hsz, Hle. cbn in Hsz, Hle.
  apply wp_bind. eapply wp_get_vec; [done|].
  apply wp_bind, wp_assert.
  2:{ intros Hc. apply bool_decide_eq_false in Hc. lia. }
  intros _.
  destruct v as [[p c] sz]; cbn in *. subst c sz.
  destruct p as [|b [|i]|]; cbn in Hst; [| |done..].
  { apply block_of_nil_inv in Hst as [Hl _]. by destruct l. }
  unfold block_of in Hst. rewrite fmap_app, <- app_assoc in Hst. cbn in Hst.
  unfold GetAddress, ptr_sub. cbn. rewrite decide_True by lia.
  apply wp_bind. eapply wp_destroy_at; [done| |].
  { rewrite length_fmap. lia. }
  eapply wp_set_size; [done|]. cbn.
  split_and!; [| |done..].
  - eexists. split; [heap_lookup|]. cbn. split_and!; [lia|done|lia|].
    heap_lookup. f_equal. apply block_of_snoc_raw. lia.
  - intros a Ha. by rewrite lookup_insert_ne.
Qed.

Lemma to_int_small d n :
  int_sized n -> d <= n -> to_int (Z.of_nat d) = Z.of_nat d.
Proof.
  unfold int_sized, to_int, int_modulus. intros Hn Hd.
  rewrite Z.mod_small by lia. lia.
Qed.

Lemma int_sized_le n m : int_sized n -> m <= n -> int_sized m.
Proof. unfold int_sized. lia. Qed.

Lemma ptr_add_int_nat q p : ptr_add_int q (Z.of_nat p) = ptr_add q p.
Proof.
  unfold ptr_add_int. rewrite decide_True by lia. by rewrite Nat2Z.id.
Qed.

Lemma int_to_size_t_nat p n :
  int_sized n -> p <= n -> int_to_size_t (Z.of_nat p) = p.
Proof.
  unfold int_sized, int_to_size_t, int_modulus, size_t_modulus. intros Hn Hp.
  rewrite Z.mod_small by lia. apply Nat2Z.id.
Qed.

Lemma int_count_nat p : int_count (Z.of_nat p) = p.
Proof. apply Nat2Z.id. Qed.

Lemma size_t_sub_le a b : b <= a -> size_t_sub a b = a - b.
Proof. intros Hb. unfold size_t_sub. by rewrite decide_True. Qed.

(** The position of [Emplace] and [Erase] for an offset [p] into a vector
    whose size [n] is in the range of [int] *)
Ltac narrow p n :=
  rewrite ?(to_int_small p n) by (done || lia);
  rewrite ?ptr_add_int_nat, ?int_count_nat;
  rewrite ?(int_to_size_t_nat p n) by (done || lia);
  rewrite ?size_t_sub_le by lia.

Ltac renarrow := rewrite ?ptr_add_int_nat; rewrite ?size_t_sub_le by lia.

Lemma ptr_diff_Ptr b j i : i <= j -> ptr_diff (Ptr b j) (Ptr b i) = Some (j - i).
Proof. intros Hij. unfold ptr_diff. by rewrite decide_True. Qed.

Lemma ptr_le_Ptr b i j : i <= j -> ptr_le (Ptr b i) (Ptr b j) = true.
Proof. intros Hij. unfold ptr_le. by rewrite ptr_diff_Ptr. Qed.

Lemma block_of_erase l p y cap :
  l !! p = Some y -> length l <= cap ->
  block_of l cap =
    (Obj <$> take p l) ++ Obj y :: (Obj <$> drop (S p) l) ++
    replicate (cap - length l) Raw /\
  block_of (take p l ++ drop (S p) l) cap =
    ((Obj <$> take p l) ++ (Obj <$> drop (S p) l)) ++
    Raw :: replicate (cap - length l) Raw.
Proof.
  intros Hp Hle. pose proof (lookup_lt_Some _ _ _ Hp) as Hlt. unfold block_of. split.
  - rewrite (fmap_middle Obj l p y Hp) at 1. by rewrite <- app_assoc.
  - rewrite fmap_app. f_equal.
    rewrite length_app, length_take, length_drop, <- replicate_S. f_equal. lia.
Qed.

Lemma Erase_spec this v l cap p w :
  owns w this l cap -> vecs w !! this = Some v -> p < length l ->
  int_sized (length l) ->
  wp (Erase faults this (ptr_add (buffer (data v)) p)) w
    (fun r w' =>
       owns w' this (take p l ++ drop (S p) l) cap /\
       vecs w' = <[this := mkVector (data v) (length l - 1)]> (vecs w) /\
       r = ptr_add (buffer (data v)) p /\
       dtors w' = S (dtors w) /\ undestroyed w' = undestroyed w)
    (fun w' => faulted (ops w) /\ vecs w' = vecs w)
    False.
Proof.
  intros (v' & Hv' & Hsz & Hcap & Hle & Hst) Hv Hp Hint. unfold Erase.
  assert (v' = v) as -> by congruence. clear Hv'.
  destruct (lookup_lt_is_Some_2 l p Hp) as [y Hy].
  destruct (block_of_erase l p y cap Hy Hle) as [Hblk Hblk'].
  destruct v as [[q c] sz]; cbn in *. subst c sz.
  destruct q as [|b [|i]|]; cbn in Hst; [| |done..].
  { apply block_of_nil_inv in Hst as [-> _]. cbn in Hp. lia. }
  unfold begin_, end_.
  apply wp_bind, wp_bind. eapply wp_get_vec; [done|]. apply wp_ret.
  apply wp_bind, wp_bind. eapply wp_get_vec; [done|]. apply wp_ret.
  cbn. apply wp_bind, wp_assert.
  2:{ rewrite !ptr_le_Ptr by lia. done. }
  intros _. rewrite ptr_diff_Ptr by lia. rewrite Nat.sub_0_r.
  cbn beta iota zeta. narrow p (length l).
  apply wp_bind. unfold std_move. cbn.
  rewrite ptr_diff_Ptr by lia.
  rewrite Hblk in Hst.
  eapply (wp_shift_left _ _ (Obj <$> take p l) y (drop (S p) l)); [done| | | |].
  { rewrite length_fmap, length_take. lia. }
  { rewrite length_drop. lia. }
  2:{ intros w' Hvs Hf. done. }
  intros Hnf. unfold ptr_sub. rewrite decide_True by lia.
  apply wp_bind.
  eapply (wp_destroy_at _ _ ((Obj <$> take p l) ++ (Obj <$> drop (S p) l))).
  { heap_lookup. by rewrite <- app_assoc. }
  { rewrite length_app, !length_fmap, length_take, length_drop. lia. }
  cbn. apply wp_bind. eapply wp_get_vec; [done|].
  apply wp_bind. eapply wp_set_size; [done|].
  apply wp_bind, wp_bind. eapply wp_get_vec; [heap_lookup|]. apply wp_ret, wp_ret.
  cbn. rewrite ?ptr_add_int_nat. split_and!; [|done..].
  eexists. split; [heap_lookup|]. cbn.
  rewrite length_app, length_take, length_drop.
  split_and!; [lia|done|lia|].
  heap_lookup. by rewrite Hblk'.
Qed.

(** *** Emplace *)

Lemma ptr_diff_null : ptr_diff nullptr nullptr = Some 0.
Proof. done. Qed.

Lemma block_of_full l : block_of l (length l) = Obj <$> l.
Proof. unfold block_of. by rewrite Nat.sub_diag, app_nil_r. Qed.

Lemma block_of_splice l p x g :
  p <= length l -> length l < g ->
  ((Obj <$> take p l) ++ [Obj x]) ++ (Obj <$> drop p l) ++
  replicate (g - S (length l)) Raw =
  block_of (take p l ++ x :: drop p l) g.
Proof.
  intros Hp Hg. unfold block_of.
  rewrite fmap_app, fmap_cons, <- !app_assoc. cbn. do 4 f_equal.
  rewrite length_app. cbn. rewrite length_take, length_drop. lia.
Qed.

Lemma length_splice l p (x : T) :
  p <= length l -> length (take p l ++ x :: drop p l) = S (length l).
Proof.
  intros Hp. rewrite length_app. cbn. rewrite length_take, length_drop. lia.
Qed.

Lemma wp_if_same {A} (c : bool) (m : M A) w QN QT QU :
  wp m w QN QT QU -> wp (if c then m else m) w QN QT QU.
Proof. by destruct c. Qed.

(** The steps of [Emplace] up to the test of the capacity *)
Ltac Emplace_prelude Hv :=
  unfold Emplace, begin_, end_;
  apply wp_bind, wp_bind; eapply wp_get_vec; [exact Hv|]; apply wp_ret;
  apply wp_bind, wp_bind; eapply wp_get_vec; [exact Hv|]; apply wp_ret;
  cbn.

Lemma Emplace_grow_spec this v l p x w :
  owns w this l (length l) -> vecs w !! this = Some v -> p <= length l ->
  fits (grown (length l)) ->
  int_sized (length l) ->
  wp (Emplace faults this (ptr_add (buffer (data v)) p) x) w
    (fun r w' =>
       owns w' this (take p l ++ x :: drop p l) (grown (length l)) /\
       (exists v', vecs w' = <[this := v']> (vecs w) /\
                   r = ptr_add (buffer (data v')) p))
    (fun w' => faulted (ops w) /\ vecs w' = vecs w)
    False.
Proof.
  intros (v' & Hv' & Hsz & Hcap & _ & Hst) Hv Hp Hfit Hint.
  assert (v' = v) as -> by congruence. clear Hv'.
  pose proof (grown_gt (length l)) as Hg.
  rewrite block_of_full in Hst.
  destruct v as [[q c] sz]; cbn in *. subst c sz.
  Emplace_prelude Hv.
  destruct q as [|b [|i]|]; cbn in Hst; [| |done..].
  - (* no storage *)
    apply fmap_nil_inv in Hst as ->. cbn in *.
    assert (p = 0) as -> by lia. cbn.
    apply wp_bind, wp_ret. rewrite ptr_diff_null.
    cbn beta iota zeta. narrow 0 0.
    apply wp_bind. eapply wp_get_vec; [done|]. cbn.
    apply wp_bind.
    apply wp_with_RawMemory, wp_RawMemory_ctor; [done|fit| |].
    2:{ intros Hf. split; [by exists (ops w)|done]. }
    intros Hf bn Hbn. cbn. renarrow.
    apply wp_bind.
    eapply (wp_construct_at _ _ []); [heap_lookup|done| |].
    2:{ cbn. intros Hf'.
        eapply wp_RawMemory_dtor; [done|heap_lookup|].
        cbn. split; [|done]. exists (S (ops w)). split; [lia|done]. }
    cbn. intros Hf'.
    apply wp_bind, wp_if_same, wp_bind, wp_ret, wp_ret.
    apply wp_bind, wp_ret.
    unfold RawMemory_Swap. cbn. apply wp_bind.
    eapply wp_set_data; [done|]. apply wp_ret. cbn.
    apply wp_RawMemory_dtor_null; [done|].
    apply wp_bind. eapply wp_get_vec; [heap_lookup|].
    apply wp_bind. eapply wp_set_size; [heap_lookup|].
    apply wp_bind, wp_bind. eapply wp_get_vec; [heap_lookup|].
    apply wp_ret, wp_ret. cbn. renarrow. split.
    + eexists. split; [heap_lookup|]. cbn. split_and!; [done..|lia|].
      heap_lookup.
    + eexists. split; [by rewrite !insert_insert_eq|done].
  - (* a block *)
    cbn. apply wp_bind, wp_assert.
    2:{ rewrite !ptr_le_Ptr by lia. done. }
    intros _. rewrite ptr_diff_Ptr by lia. rewrite Nat.sub_0_r.
    cbn beta iota zeta. narrow p (length l).
    apply wp_bind. eapply wp_get_vec; [done|]. cbn.
    rewrite decide_True by lia.
    apply wp_bind.
    apply wp_with_RawMemory, wp_RawMemory_ctor; [lia|fit| |].
    2:{ intros Hf. split; [by exists (ops w)|done]. }
    intros Hf bn Hbn. cbn. renarrow.
    assert (Hbne : b <> bn) by (intros ->; congruence).
    assert (Hraw : replicate (grown (length l)) (@Raw T) =
                   replicate p Raw ++ Raw ::
                   replicate (length l - p) Raw ++
                   replicate (grown (length l) - S (length l)) Raw).
    { rewrite <- replicate_add, <- replicate_S, <- replicate_add. f_equal. lia. }
    assert (Hsplit : Obj <$> l = (Obj <$> take p l) ++ (Obj <$> drop p l)).
    { by rewrite <- fmap_app, take_drop. }
    apply wp_bind.
    eapply (wp_construct_at _ _ (replicate p Raw)).
    { heap_lookup. by rewrite Hraw. }
    { by rewrite length_replicate. }
    2:{ cbn. intros Hf'.
        eapply wp_RawMemory_dtor; [done|heap_lookup|].
        cbn. split; [|done]. exists (S (ops w)). split; [lia|done]. }
    cbn. intros Hf'.
    apply wp_bind.
    destruct moves_elements eqn:Hmv.
    + apply wp_bind.
      eapply (wp_uninitialized_move_n _ _ [] (take p l) (Obj <$> drop p l) _ _ []);
        [done|heap_lookup; by rewrite Hst, Hsplit|done|heap_lookup|done| | |].
      { rewrite length_take. lia. }
      2:{ cbn. intros j Hj Hc Hfj.
          eapply wp_RawMemory_dtor; [done|heap_lookup|].
          cbn. split; [|done]. exists (S (S (ops w + j))). split; [lia|done]. }
      cbn.
      eapply (wp_uninitialized_move_n _ _ (Obj <$> (moved_from <$> take p l))
                (drop p l) [] _ _ ((Obj <$> take p l) ++ [Obj x]));
        [done|heap_lookup; by rewrite app_nil_r|..].
      { rewrite !length_fmap, length_take. lia. }
      { heap_lookup. by rewrite <- app_assoc. }
      { rewrite length_app, length_fmap, length_take. cbn. lia. }
      { rewrite length_drop. lia. }
      2:{ cbn. intros j Hj Hc Hfj.
          eapply wp_RawMemory_dtor; [done|heap_lookup|].
          cbn. split; [|done].
          exists (S (S (ops w + p + j))). split; [lia|done]. }
      cbn. apply wp_bind.
      eapply (wp_destroy_n _ _ [] (moved_from <$> l) []).
      { heap_lookup. f_equal. cbn.
        by rewrite !app_nil_r, <- !fmap_app, take_drop. }
      { done. }
      { by rewrite length_fmap. }
      cbn. unfold RawMemory_Swap. cbn. apply wp_bind.
      eapply wp_set_data; [done|]. apply wp_ret. cbn.
      eapply wp_RawMemory_dtor; [done|heap_lookup|].
      apply wp_bind. eapply wp_get_vec; [heap_lookup|].
      apply wp_bind. eapply wp_set_size; [heap_lookup|].
      apply wp_bind, wp_bind. eapply wp_get_vec; [heap_lookup|].
      apply wp_ret, wp_ret. cbn. renarrow. split.
      * eexists. split; [heap_lookup|]. cbn.
        rewrite length_splice by done. split_and!; [done..|lia|].
        heap_lookup. by rewrite block_of_splice.
      * eexists. split; [by rewrite !insert_insert_eq|done].
    + apply wp_bind.
      eapply (wp_uninitialized_copy_n _ 0 _ (take p l) _ _ []);
        [done|heap_lookup| |heap_lookup|done| | |].
      { intros k y Hk. rewrite Hsplit. apply lookup_app_l_Some.
        rewrite list_lookup_fmap. cbn. by rewrite Hk. }
      { rewrite length_take. lia. }
      2:{ cbn. intros j Hj Hfj.
          eapply wp_RawMemory_dtor; [done|heap_lookup|].
          cbn. split; [|done]. exists (S (S (ops w + j))). split; [lia|done]. }
      cbn. intros Hnf.
      eapply (wp_uninitialized_copy_n _ p _ (drop p l) _ _
                ((Obj <$> take p l) ++ [Obj x]));
        [done|heap_lookup| | | | | |].
      { intros k y Hk. rewrite list_lookup_fmap, <- lookup_drop. cbn.
        by rewrite Hk. }
      { heap_lookup. by rewrite <- app_assoc. }
      { rewrite length_app, length_fmap, length_take. cbn. lia. }
      { rewrite length_drop. lia. }
      2:{ cbn. intros j Hj Hfj.
          eapply wp_RawMemory_dtor; [done|heap_lookup|].
          cbn. split; [|done].
          exists (S (S (ops w + p + j))). split; [lia|done]. }
      cbn. intros Hnf'.
      apply wp_bind.
      eapply (wp_destroy_n _ _ [] l []).
      { heap_lookup. by rewrite app_nil_r. }
      { done. }
      { done. }
      cbn. unfold RawMemory_Swap. cbn. apply wp_bind.
      eapply wp_set_data; [done|]. apply wp_ret. cbn.
      eapply wp_RawMemory_dtor; [done|heap_lookup|].
      apply wp_bind. eapply wp_get_vec; [heap_lookup|].
      apply wp_bind. eapply wp_set_size; [heap_lookup|].
      apply wp_bind, wp_bind. eapply wp_get_vec; [heap_lookup|].
      apply wp_ret, wp_ret. cbn. renarrow. split.
      * eexists. split; [heap_lookup|]. cbn.
        rewrite length_splice by done. split_and!; [done..|lia|].
        heap_lookup. by rewrite block_of_splice.
      * eexists. split; [by rewrite !insert_insert_eq|done].
Qed.

(** The move constructor, from a slot to the raw slot after it *)
Lemma wp_move_construct_next b d pre v post w QN QT QU :
  heap w !! b = Some (pre ++ Obj v :: Raw :: post) -> d = length pre ->
  (negb is_nothrow_move_constructible && faults (ops w) = false ->
   QN tt (mkWorld (<[b := pre ++ Obj (moved_from v) :: Obj v :: post]> (heap w))
            (vecs w) (S (ops w)) (dtors w) (undestroyed w))) ->
  (is_nothrow_move_constructible = false -> faults (ops w) = true ->
   QT (set_ops (S (ops w)) w)) ->
  wp (move_construct_at faults (Ptr b (S d)) (Ptr b d)) w QN QT QU.
Proof.
  intros Hb -> HN HT. apply wp_bind.
  eapply wp_get_obj; [done..|]. apply wp_bind.
  eapply (wp_read_slot _ _ (pre ++ [Obj v])).
  { rewrite <- app_assoc. exact Hb. }
  { rewrite length_app. cbn. lia. }
  apply wp_bind, wp_tick.
  - intros Hf. apply wp_bind.
    eapply (wp_emplace_slot _ _ (pre ++ [Obj v])).
    { rewrite <- app_assoc. exact Hb. }
    { rewrite length_app. cbn. lia. }
    eapply (wp_write_slot _ _ pre).
    { heap_lookup. by rewrite <- app_assoc. }
    { done. }
    cbn. rewrite insert_insert_eq. by apply HN.
  - intros Hc Hf. apply HT; [|done]. by destruct is_nothrow_move_constructible.
Qed.

Lemma wp_operator_delete_interior b i w (QN : unit -> World -> Prop) QT (QU : Prop) :
  i <> 0 -> QU -> wp (operator_delete (Ptr b i)) w QN QT QU.
Proof. intros Hi HQ. unfold wp, operator_delete. by destruct i. Qed.

(** The handler of [Emplace] on a vector that is not empty:
    [operator delete(end())] is given an address inside the block. *)
Lemma wp_Emplace_handler this b c n w (QN : unit -> World -> Prop) QT (QU : Prop) :
  vecs w !! this = Some (mkVector (mkRawMemory (Ptr b 0) c) (S n)) ->
  QU ->
  wp (e <- end_ this ;; operator_delete e ;;; throw) w QN QT QU.
Proof.
  intros Hv HQ. unfold end_.
  apply wp_bind, wp_bind. eapply wp_get_vec; [done|]. apply wp_ret. cbn.
  apply wp_bind. by apply wp_operator_delete_interior.
Qed.

Lemma block_of_inplace l z p cap :
  p <= length l -> S (length l) < cap ->
  block_of (l ++ [z]) cap =
    (Obj <$> take p l) ++ (Obj <$> drop p l) ++ Obj z :: Raw ::
    replicate (cap - S (S (length l))) Raw.
Proof.
  intros Hp Hl. unfold block_of.
  rewrite fmap_app, <- (take_drop p l) at 1. rewrite fmap_app, <- !app_assoc.
  cbn. do 3 f_equal. rewrite <- replicate_S, length_app. cbn. f_equal. lia.
Qed.

Lemma splice_snoc l z p (x : T) :
  p <= length l ->
  take p (l ++ [z]) ++ x :: drop p (l ++ [z]) = (take p l ++ x :: drop p l) ++ [z].
Proof.
  intros Hp. rewrite take_app_le, drop_app_le by done.
  by rewrite <- app_assoc.
Qed.

Lemma wp_shift_right' b d e e' pre xs y post n w QN QT QU :
  heap w !! b = Some (pre ++ (Obj <$> xs) ++ Obj y :: post) ->
  d = length pre -> n = length xs -> e = d + n -> e' = S e ->
  ((forall j, j < n -> faults (ops w + j) = false) ->
   QN tt (mkWorld
            (<[b := pre ++ Obj (first_moved y xs) :: (Obj <$> xs) ++ post]> (heap w))
            (vecs w) (ops w + n) (dtors w) (undestroyed w))) ->
  (forall w', vecs w' = vecs w -> faulted (ops w) -> QT w') ->
  wp (assign_backward (move_assign_at faults) (Ptr b e) n (Ptr b e')) w QN QT QU.
Proof.
  intros Hb Hd Hn -> -> HN HT.
  replace (S (d + n)) with (d + n + 1) by lia.
  by eapply wp_shift_right.
Qed.

Lemma Emplace_inplace_spec this v l p x cap w :
  owns w this l cap -> vecs w !! this = Some v ->
  length l < cap -> p < length l ->
  int_sized (length l) ->
  wp (Emplace faults this (ptr_add (buffer (data v)) p) x) w
    (fun r w' =>
       owns w' this (take p l ++ x :: drop p l) cap /\
       vecs w' = <[this := mkVector (data v) (S (length l))]> (vecs w) /\
       r = ptr_add (buffer (data v)) p /\
       faults (ops w) = false)
    (fun _ => False)
    (faulted (ops w)).
Proof.
  intros (v' & Hv' & Hsz & Hcap & _ & Hst) Hv Hlt Hp Hint.
  assert (v' = v) as -> by congruence. clear Hv'.
  destruct l as [|z l _] using rev_ind; [cbn in Hp; lia|].
  rewrite length_app in *. cbn [length] in *.
  assert (Hp' : p <= length l) by lia.
  rewrite (block_of_inplace l z p cap) in Hst by lia.
  destruct v as [[q c] sz]; cbn in *. subst c sz.
  Emplace_prelude Hv.
  destruct q as [|b [|i]|]; cbn in Hst; [| |done..].
  { apply app_eq_nil in Hst as [_ Hst].
    apply app_eq_nil in Hst as [_ Hst]. done. }
  cbn. apply wp_bind, wp_assert.
  2:{ rewrite !ptr_le_Ptr by lia. done. }
  intros _. rewrite ptr_diff_Ptr by lia. rewrite Nat.sub_0_r.
    cbn beta iota zeta. narrow p (length l + 1).
  apply wp_bind. eapply wp_get_vec; [done|]. cbn.
  rewrite decide_False by lia.
  replace (length l + 1) with (S (length l)) in * by lia.
  rewrite decide_True by (intros [= ?]; lia).
  apply wp_bind, wp_try_catch, wp_bind, wp_tick.
  2:{ intros _ Hf. eapply wp_Emplace_handler; [done|]. by exists (ops w). }
  intros Hf. cbn in Hf.
  apply wp_finally.
  match goal with
  | |- wp _ _ _ ?QT _ =>
      assert (Hh : forall w', vecs w' = vecs w -> faulted (ops w) -> QT w')
  end.
  { intros w' Hvs Hfl. cbn beta. unfold wp at 1. cbn.
    eapply wp_Emplace_handler; [cbn; rewrite Hvs; exact Hv|done]. }
  apply wp_bind, wp_bind, wp_assert.
  2:{ intros Hc. apply bool_decide_eq_false in Hc. cbn in Hc. lia. }
  intros _. apply wp_ret. cbn. rewrite Nat.sub_0_r.
  apply wp_bind.
  eapply (wp_move_construct_next _ _ ((Obj <$> take p l) ++ (Obj <$> drop p l))).
  { cbn. rewrite <- app_assoc. exact Hst. }
  { rewrite <- fmap_app, take_drop, length_fmap. done. }
  2:{ intros Hc Hf'. apply Hh; [done|]. exists (S (ops w)). split; [cbn; lia|done]. }
  intros Hf'. cbn. renarrow.
  apply wp_bind. unfold std_move_backward, ptr_sub.
  rewrite decide_True by lia. cbn. rewrite Nat.sub_0_r.
  rewrite ptr_diff_Ptr by lia.
  eapply (wp_shift_right' _ p _ _ (Obj <$> take p l) (drop p l)).
  { heap_lookup. by rewrite <- app_assoc. }
  { rewrite length_fmap, length_take. lia. }
  { rewrite length_drop. lia. }
  { lia. }
  { done. }
  2:{ intros w' Hvs (k & Hk & Hfk). apply Hh; [done|].
      exists k. split; [cbn in Hk; lia|done]. }
  cbn. intros Hnf.
  eapply (wp_assign_at _ _ (Obj <$> take p l)).
  { heap_lookup. }
  { rewrite length_fmap, length_take. lia. }
  2:{ cbn. intros Hfa. apply Hh; [done|].
      eexists. split; [|exact Hfa]. lia. }
  cbn. intros Hfa. unfold wp at 1. cbn.
  apply wp_bind. eapply wp_get_vec; [heap_lookup|].
  apply wp_bind. eapply wp_set_size; [heap_lookup|].
  apply wp_bind, wp_bind. eapply wp_get_vec; [heap_lookup|].
  apply wp_ret, wp_ret. cbn. renarrow. split_and!; [|done..].
  eexists. split; [heap_lookup|]. cbn.
  rewrite splice_snoc by done. rewrite length_app, length_splice by done. cbn.
  split_and!; [lia|done|lia|].
  heap_lookup. f_equal. unfold block_of.
  rewrite !fmap_app, fmap_cons, <- !app_assoc. cbn.
  do 5 f_equal. simpl_length. lia.
Qed.

Lemma Emplace_end_spec this v l x cap w :
  owns w this l cap -> vecs w !! this = Some v -> length l < cap ->
  int_sized (length l) ->
  wp (Emplace faults this (ptr_add (buffer (data v)) (length l)) x) w
    (fun r w' =>
       owns w' this (l ++ [x]) cap /\
       vecs w' = <[this := mkVector (data v) (S (length l))]> (vecs w) /\
       r = ptr_add (buffer (data v)) (length l))
    (fun _ => faulted (ops w))
    (faulted (ops w)).
Proof.
  intros (v' & Hv' & Hsz & Hcap & _ & Hst) Hv Hlt Hint.
  assert (v' = v) as -> by congruence. clear Hv'.
  destruct v as [[q c] sz]; cbn in *. subst c sz.
  Emplace_prelude Hv.
  destruct q as [|b [|i]|]; cbn in Hst; [| |done..].
  { apply block_of_nil_inv in Hst as [_ ->]. lia. }
  rewrite block_of_raw_next in Hst by done.
  cbn. apply wp_bind, wp_assert.
  2:{ rewrite !ptr_le_Ptr by lia. done. }
  intros _. rewrite ptr_diff_Ptr by lia. rewrite Nat.sub_0_r.
    cbn beta iota zeta. narrow (length l) (length l).
  apply wp_bind. eapply wp_get_vec; [done|]. cbn.
  rewrite decide_False by lia.
  rewrite (decide_False (P := Ptr b (length l) <> Ptr b (length l))) by (intros Hne; by apply Hne).
  apply wp_bind, wp_try_catch.
  eapply wp_construct_at; [done| |..].
  { by rewrite length_fmap. }
  - cbn. intros Hf.
    apply wp_bind. eapply wp_get_vec; [heap_lookup|].
    apply wp_bind. eapply wp_set_size; [heap_lookup|].
    apply wp_bind, wp_bind. eapply wp_get_vec; [heap_lookup|].
    apply wp_ret, wp_ret. cbn. renarrow. split_and!; [|done..].
    eexists. split; [heap_lookup|]. cbn. simpl_length.
    split_and!; [lia|done|lia|].
    heap_lookup. by rewrite block_of_snoc.
  - cbn. intros Hf. unfold end_.
    apply wp_bind, wp_bind. eapply wp_get_vec; [done|]. apply wp_ret. cbn.
    assert (Hfl : faulted (ops w)) by (by exists (ops w)).
    destruct (length l) as [|n] eqn:Hn.
    + apply wp_bind. eapply wp_operator_delete; [done|]. by apply wp_throw.
    + apply wp_bind. by apply wp_operator_delete_interior.
Qed.

(** [Emplace] at any position of any vector: the value is spliced in at
    the position; the call ends otherwise only if a fault was scheduled. *)
Lemma Emplace_spec this v l cap p x w :
  owns w this l cap -> vecs w !! this = Some v -> p <= length l ->
  (cap <= length l -> fits (grown (length l))) ->
  int_sized (length l) ->
  wp (Emplace faults this (ptr_add (buffer (data v)) p) x) w
    (fun r w' =>
       owns w' this (take p l ++ x :: drop p l) (capacity_after_append l cap) /\
       (exists v', vecs w' = <[this := v']> (vecs w) /\
                   r = ptr_add (buffer (data v')) p))
    (fun _ => faulted (ops w))
    (faulted (ops w)).
Proof.
  intros Ho Hv Hp Hfit Hint. pose proof Ho as (v' & Hv' & _ & _ & Hle & _).
  unfold capacity_after_append. case_decide as Hfull.
  - assert (cap = length l) as -> by lia.
    eapply wp_mono; [apply Emplace_grow_spec; first [done|fit]| |by intros ? [? _]|done].
    intros r w' [? ?]. done.
  - destruct (decide (p = length l)) as [->|Hne].
    + eapply wp_mono; [apply (Emplace_end_spec this v l x cap w); first [done|lia]| |done..].
      intros r w' (Ho' & Hvs & ->). rewrite firstn_all, drop_all.
      split; [done|]. eexists. split; [done|]. done.
    + eapply wp_mono;
        [apply (Emplace_inplace_spec this v l p x cap w); first [done|lia]| |done..].
      intros r w' (Ho' & Hvs & -> & _).
      split; [done|]. eexists. split; [done|]. done.
Qed.

(** *** Resize and ShrinkToFit *)

Lemma block_of_take l n cap :
  n <= length l -> length l <= cap ->
  block_of l cap =
    (Obj <$> take n l) ++ (Obj <$> drop n l) ++ replicate (cap - length l) Raw /\
  block_of (take n l) cap =
    (Obj <$> take n l) ++ replicate (length l - n) Raw ++
    replicate (cap - length l) Raw.
Proof.
  intros Hn Hl. unfold block_of. split.
  - by rewrite app_assoc, <- fmap_app, take_drop.
  - f_equal. rewrite <- replicate_add. f_equal. simpl_length. lia.
Qed.

Lemma Resize_shrink_spec this l cap n w :
  owns w this l cap -> n < length l ->
  wp (Resize faults this n) w
    (fun _ w' =>
       owns w' this (take n l) cap /\
       (forall a, a <> this -> vecs w' !! a = vecs w !! a) /\
       dtors w' = dtors w + (length l - n) /\
       undestroyed w' = undestroyed w /\ ops w' = ops w)
    (fun _ => False) False.
Proof.
  intros (v & Hv & Hsz & Hcap & Hle & Hst) Hn. unfold Resize.
  apply wp_bind. eapply wp_get_vec; [done|].
  rewrite decide_True by lia.
  destruct (block_of_take l n cap) as [Hblk Hblk']; [lia..|].
  destruct v as [[p c] sz]; cbn in *. subst c sz.
  destruct p as [|b [|i]|]; cbn in Hst; [| |done..].
  { apply block_of_nil_inv in Hst as [-> _]. cbn in Hn. lia. }
  rewrite Hblk in Hst. apply wp_bind.
  eapply (wp_destroy_n _ _ (Obj <$> take n l) (drop n l)); [done|..].
  { simpl_length. lia. }
  { simpl_length. done. }
  eapply wp_set_size; [done|]. cbn.
  split_and!; [| |done..].
  - eexists. split; [heap_lookup|]. cbn. simpl_length.
    split_and!; [lia|done|lia|]. heap_lookup. by rewrite Hblk'.
  - intros a Ha. by rewrite lookup_insert_ne.
Qed.

Lemma block_of_grow l n cap :
  length l <= n -> n <= cap ->
  block_of l cap =
    (Obj <$> l) ++ replicate (n - length l) Raw ++ replicate (cap - n) Raw /\
  block_of (l ++ replicate (n - length l) default_value) cap =
    (Obj <$> l) ++ replicate (n - length l) (Obj default_value) ++
    replicate (cap - n) Raw.
Proof.
  intros Hl Hn. unfold block_of. split.
  - f_equal. rewrite <- replicate_add. f_equal. lia.
  - rewrite fmap_app, fmap_replicate, <- app_assoc. do 3 f_equal.
    simpl_length. lia.
Qed.

Lemma Resize_grow_spec this l cap n w :
  owns w this l cap -> length l <= n ->
  (cap < n -> fits (Nat.max (cap * 2) n)) ->
  wp (Resize faults this n) w
    (fun _ w' =>
       owns w' this (l ++ replicate (n - length l) default_value)
         (capacity_after_resize cap n) /\
       (forall a, a <> this -> vecs w' !! a = vecs w !! a) /\
       undestroyed w' = undestroyed w)
    (fun w' => faulted (ops w))
    False.
Proof.
  intros Ho Hn Hfit. pose proof Ho as (v & Hv & Hsz & Hcap & Hle & Hst).
  unfold Resize, capacity_after_resize.
  apply wp_bind. eapply wp_get_vec; [done|].
  rewrite decide_False by lia. rewrite Hcap.
  assert (Hcont : forall w1 cap1,
    owns w1 this l cap1 -> n <= cap1 ->
    (forall a, a <> this -> vecs w1 !! a = vecs w !! a) ->
    undestroyed w1 = undestroyed w -> ops w <= ops w1 ->
    wp (v0 <- get_vec this ;;
        uninitialized_value_construct_n faults
          (ptr_add (GetAddress (data v0)) (size v0)) (n - size v0)) w1
      (fun _ w2 =>
         wp (set_size this n) w2
           (fun _ w' =>
              owns w' this (l ++ replicate (n - length l) default_value) cap1 /\
              (forall a, a <> this -> vecs w' !! a = vecs w !! a) /\
              undestroyed w' = undestroyed w)
           (fun _ => faulted (ops w)) False)
      (fun _ => faulted (ops w)) False).
  { clear v Hv Hsz Hcap Hle Hst.
    intros w1 cap1 (v & Hv & Hsz & Hcap & Hle & Hst) Hn1 Hfr Hu Hops.
    destruct (block_of_grow l n cap1) as [Hblk Hblk']; [lia..|].
    apply wp_bind. eapply wp_get_vec; [done|].
    destruct v as [[p c] sz]; cbn in *. subst c sz.
    destruct p as [|b [|i]|]; cbn in Hst; [| |done..].
    - apply block_of_nil_inv in Hst as [-> ->]. cbn in *.
      assert (n = 0) as -> by lia. cbn.
      apply wp_ret. eapply wp_set_size; [done|]. cbn.
      split_and!; [| |done].
      + eexists. split; [heap_lookup|]. cbn. done.
      + intros a Ha. rewrite lookup_insert_ne by done. by apply Hfr.
    - rewrite Hblk in Hst.
      eapply (wp_uninitialized_value_construct_n _ _ (Obj <$> l)); [done|..].
      { by simpl_length. }
      2:{ intros j Hj Hf. exists (ops w1 + j). split; [lia|done]. }
      intros Hnf. eapply wp_set_size; [done|]. cbn.
      split_and!; [| |done].
      + eexists. split; [heap_lookup|]. cbn. simpl_length.
        split_and!; [lia|done|lia|]. heap_lookup. by rewrite Hblk'.
      + intros a Ha. rewrite lookup_insert_ne by done. by apply Hfr. }
  case_decide as Hgrow.
  - apply wp_bind, wp_bind.
    eapply wp_mono;
      [apply (Reserve_spec this l cap (Nat.max (cap * 2) n) w); [done|lia|fit]| |
       by intros ? [? _]|done].
    intros [] w1 (Ho1 & Hfr & Hd & Hu & Hops).
    apply (Hcont w1 _ Ho1); [lia|done..].
  - apply wp_bind, wp_bind, wp_ret.
    apply (Hcont w cap Ho); [lia|done..].
Qed.

#[local] Arguments uninitialized_move_n : simpl never.
#[local] Arguments uninitialized_copy_n : simpl never.

Lemma ShrinkToFit_spec this l cap w :
  owns w this l cap -> 0 < length l -> length l < cap ->
  fits (length l) ->
  wp (ShrinkToFit faults this) w
    (fun _ w' =>
       owns w' this l (length l) /\
       dtors w' = dtors w /\
       undestroyed w' = undestroyed w + length l)
    (fun _ => faulted (ops w))
    False.
Proof.
  intros (v & Hv & Hsz & Hcap & Hle & Hst) Hpos Hlt Hfit. unfold ShrinkToFit.
  apply wp_bind. eapply wp_get_vec; [done|].
  rewrite !decide_False by lia.
  destruct v as [[p c] sz]; cbn in *. subst c sz.
  destruct p as [|b [|i]|]; cbn in Hst; [| |done..].
  { apply block_of_nil_inv in Hst as [_ ->]. lia. }
  apply wp_with_RawMemory, wp_RawMemory_ctor; [lia|fit| |].
  2:{ intros Hf. by exists (ops w). }
  intros Hf bn Hbn. cbn.
  assert (Hbne : b <> bn) by (intros ->; congruence).
  apply wp_bind.
  eapply (wp_uninitialized_move_n _ _ [] l _ _ _ [] []); [done|heap_lookup|done|..].
  { heap_lookup. by rewrite app_nil_r. }
  { done. }
  { done. }
  - cbn. unfold RawMemory_Swap. cbn. apply wp_bind.
    eapply wp_set_data; [done|]. apply wp_ret. cbn.
    eapply wp_RawMemory_dtor; [done|heap_lookup|]. cbn.
    split_and!; [|done|].
    + eexists. split; [heap_lookup|]. cbn. split_and!; [done..|].
      heap_lookup. by rewrite block_of_full, app_nil_r.
    + by rewrite live_app, live_Obj, live_replicate_Raw, length_fmap, Nat.add_0_r.
  - cbn. intros j Hj Hc Hfj.
    eapply wp_RawMemory_dtor; [done|heap_lookup|]. cbn.
    exists (S (ops w + j)). split; [lia|done].
Qed.

(** *** What the queries return *)

Lemma read_range_block b (pre : list (slot T)) (xs : list T) post i n (w : World) :
  heap w !! b = Some (pre ++ (Obj <$> xs) ++ post) ->
  i = length pre -> n = length xs ->
  read_range (Ptr b i) n w = (Normal xs, w).
Proof.
  intros Hb Hi ->. revert pre i Hb Hi.
  induction xs as [|x xs IH]; intros pre i Hb Hi; [done|].
  rewrite fmap_cons in Hb. cbn [app] in Hb. cbn [read_range length].
  unfold bind at 1. unfold get_obj, bind at 1, read_slot.
  rewrite Hb. subst i. rewrite list_lookup_middle by done. cbn.
  unfold bind at 1. rewrite (IH (pre ++ [Obj x])); [done| |].
  - by rewrite <- app_assoc.
  - simpl_length. lia.
Qed.

(** A vector that owns [l] with capacity [cap] is seen as such through its
    queries. *)
Lemma owns_queries w this l cap :
  owns w this l cap ->
  Size this w = (Normal (length l), w) /\
  Capacity this w = (Normal cap, w) /\
  elements this w = (Normal l, w).
Proof.
  intros (v & Hv & Hsz & Hcap & Hle & Hst).
  unfold Size, Capacity, elements, bind, get_vec, ret. rewrite Hv.
  split_and!; [by rewrite Hsz|by rewrite Hcap|].
  destruct v as [[p c] sz]; cbn in *. subst c sz.
  destruct p as [|b [|i]|]; cbn in Hst; [| |done..].
  - by apply block_of_nil_inv in Hst as [-> _].
  - by eapply (read_range_block _ []).
Qed.

(** *** Copy assignment *)

(** [std::copy] from one block onto constructed objects of another *)
Lemma wp_copy_forward bs is_ sblk xs bd id dpre ys dpost n w QN QT QU :
  bs <> bd ->
  heap w !! bs = Some sblk ->
  (forall k x, xs !! k = Some x -> sblk !! (is_ + k) = Some (Obj x)) ->
  heap w !! bd = Some (dpre ++ (Obj <$> ys) ++ dpost) ->
  id = length dpre -> n = length xs -> n = length ys ->
  ((forall j, j < n -> faults (ops w + j) = false) ->
   QN tt (mkWorld (<[bd := dpre ++ (Obj <$> xs) ++ dpost]> (heap w))
            (vecs w) (ops w + n) (dtors w) (undestroyed w))) ->
  (forall w', vecs w' = vecs w -> heap w' !! bs = Some sblk ->
     faulted (ops w) -> QT w') ->
  wp (assign_forward (copy_assign_at faults) (Ptr bs is_) n (Ptr bd id)) w QN QT QU.
Proof.
  intros Hne Hs Hxs Hd Hid -> Hlen. revert ys is_ id dpre w Hs Hxs Hd Hid Hlen.
  induction xs as [|x xs IH]; intros ys is_ id dpre w Hs Hxs Hd Hid Hlen HN HT.
  - destruct ys; [|done]. apply wp_ret.
    destruct w as [h vs o dt u]; cbn in *.
    rewrite insert_id, Nat.add_0_r in HN by done. apply HN. intros; lia.
  - destruct ys as [|y ys]; [done|]. rewrite fmap_cons in Hd. cbn [app] in Hd.
    cbn [assign_forward length]. apply wp_bind. unfold copy_assign_at.
    apply wp_bind. eapply wp_get_obj_lookup; [done| |].
    { specialize (Hxs 0 x eq_refl). by rewrite Nat.add_0_r in Hxs. }
    eapply wp_assign_at; [done..| |].
    2:{ intros Hf. apply HT; [done..|]. by exists (ops w). }
    intros Hf. rewrite !ptr_add_Ptr.
    apply (IH ys (is_ + 1) (id + 1) (dpre ++ [Obj x])).
    + heap_lookup.
    + intros k z Hk. specialize (Hxs (S k) z Hk).
      by replace (is_ + 1 + k) with (is_ + S k) by lia.
    + heap_lookup. by rewrite <- app_assoc.
    + simpl_length. lia.
    + cbn in Hlen. lia.
    + cbn. intros Hnf. rewrite insert_insert_eq.
      rewrite fmap_cons in HN. cbn in HN. rewrite <- app_assoc. cbn.
      assert (Hall : forall j, j < S (length xs) -> faults (ops w + j) = false).
      { intros [|j] Hj; [by rewrite Nat.add_0_r|].
        replace (ops w + S j) with (S (ops w + j)) by lia. apply Hnf. lia. }
      specialize (HN Hall). use_post HN. f_equal. lia.
    + cbn. intros w' Hvs Hs' (k & Hk & Hfk). apply HT; [done..|].
      exists k. split; [lia|done].
Qed.

Lemma wp_with_Vector {A} (ctor : nat -> M unit) (body : nat -> M A) w QN QT QU :
  (forall a, vecs w !! a = None ->
     wp (ctor a ;;; finally (body a) (Vector_dtor a)) w QN QT QU) ->
  wp (with_Vector ctor body) w QN QT QU.
Proof.
  intros Hw. unfold wp, with_Vector.
  apply (Hw (fresh (dom (vecs w)))), not_elem_of_dom, is_fresh.
Qed.

Lemma wp_put_vec this v w QN QT QU :
  QN tt (set_vecs (<[this := v]> (vecs w)) w) -> wp (put_vec this v) w QN QT QU.
Proof. done. Qed.

Lemma wp_del_vec this w QN QT QU :
  QN tt (set_vecs (delete this (vecs w)) w) -> wp (del_vec this) w QN QT QU.
Proof. done. Qed.

(** Bookkeeping steps on vector objects *)
Ltac wp_step :=
  first
    [ apply wp_ret
    | eapply wp_get_vec; [heap_lookup; fail|]
    | eapply wp_set_size; [heap_lookup; fail|]
    | eapply wp_set_data; [heap_lookup; fail|]
    | apply wp_put_vec
    | apply wp_del_vec ].

Lemma std_copy_nothing first d_first :
  first <> wild ->
  std_copy faults first (ptr_add first 0) d_first = ret (T := T) tt.
Proof.
  intros Hw. unfold std_copy. destruct first as [|b i|]; [done| |done].
  cbn. rewrite ptr_diff_Ptr by lia. by rewrite Nat.add_0_r, Nat.sub_diag.
Qed.

Lemma std_copy_null d_first :
  std_copy faults nullptr nullptr d_first = ret (T := T) tt.
Proof. done. Qed.

Lemma uninitialized_copy_n_nothing first d_first :
  uninitialized_copy_n faults first 0 d_first = ret (T := T) tt.
Proof. done. Qed.

Lemma copy_assign_inplace_spec a b la ca lb cb w :
  a <> b -> owns w a la ca -> owns w b lb cb -> separate w a b ->
  length lb <= ca ->
  wp (copy_assign faults a b) w
    (fun _ w' =>
       owns w' a lb ca /\ owns w' b lb cb /\
       (forall c, c <> a -> vecs w' !! c = vecs w !! c) /\
       keeps_storage w w' a /\ ops w' = ops w + length lb)
    (fun w' => faulted (ops w) /\ owns w' b lb cb /\ vecs w' !! b = vecs w !! b)
    False.
Proof.
  intros Hab (va & Hva & Hsza & Hcapa & Hlea & Hsta) Hob Hsep Hfit.
  pose proof Hob as (vb & Hvb & Hszb & Hcapb & Hleb & Hstb).
  unfold copy_assign. rewrite decide_True by done.
  apply wp_bind. wp_step. apply wp_bind. wp_step.
  rewrite decide_True by lia.
  specialize (Hsep va vb).
  destruct va as [[pa c] sz]; cbn in *. subst c sz.
  destruct vb as [[pb c] sz]; cbn in *. subst c sz.
  assert (Hfin : forall w1 : World,
    vecs w1 = vecs w -> stores w1 pa (block_of lb ca) ->
    stores w1 pb (block_of lb cb) ->
    (forall b', pa <> Ptr b' 0 -> heap w1 !! b' = heap w !! b') ->
    ops w1 = ops w + length lb ->
    wp (set_size a (length lb)) w1
      (fun _ w' =>
         owns w' a lb ca /\ owns w' b lb cb /\
         (forall c, c <> a -> vecs w' !! c = vecs w !! c) /\
         keeps_storage w w' a /\ ops w' = ops w + length lb)
      (fun w' => faulted (ops w) /\ owns w' b lb cb /\ vecs w' !! b = vecs w !! b)
      False).
  { intros w1 Hvs Hpa Hpb Hothers Hops. eapply wp_set_size; [by rewrite Hvs|]. cbn.
    split_and!.
    - eexists. split; [heap_lookup|]. cbn. done.
    - eexists. split; [heap_lookup; by rewrite Hvs|]. cbn. done.
    - intros c Hc. by rewrite lookup_insert_ne, Hvs.
    - eexists _, _. split_and!; [exact Hva|heap_lookup|done|done].
    - done. }
  apply wp_bind.
  destruct pa as [|ba [|?]|]; cbn in Hsta; [| |done..].
  - (* the destination has no storage *)
    apply block_of_nil_inv in Hsta as [-> ->].
    assert (lb = []) as -> by (destruct lb; [done|cbn in Hfit; lia]).
    cbn. rewrite decide_True by lia.
    rewrite std_copy_nothing by (by destruct pb as [|? [|?]|]).
    rewrite uninitialized_copy_n_nothing.
    apply wp_bind, wp_ret, wp_ret. apply Hfin; [done|reflexivity|exact Hstb|done|cbn; lia].
  - destruct pb as [|bb [|?]|]; cbn in Hstb; [| |done..].
    + (* the source has no storage *)
      apply block_of_nil_inv in Hstb as [-> ->]. cbn.
      case_decide as Hcmp.
      * assert (la = []) as -> by (destruct la; [done|cbn in Hcmp; lia]).
        cbn. rewrite std_copy_null, uninitialized_copy_n_nothing.
        apply wp_bind, wp_ret, wp_ret.
        apply Hfin; [done|exact Hsta|reflexivity|done|cbn; lia].
      * rewrite std_copy_null. apply wp_bind, wp_ret. rewrite Nat.sub_0_r.
        unfold block_of in Hsta.
        eapply (wp_destroy_n _ _ [] la); [exact Hsta|done..|].
        apply Hfin; [done| |reflexivity|(intros b' Hb'; cbn; rewrite ?lookup_insert_ne by (intros ->; by apply Hb'); done)|(cbn; simpl_length; lia)]. cbn. heap_lookup.
        rewrite block_of_nil, <- replicate_add. do 2 f_equal. lia.
    + (* both have storage *)
      assert (Hne : bb <> ba) by (intros ->; by eapply Hsep).
      case_decide as Hcmp.
      * destruct (block_of_grow la (length lb) ca) as [Hblk _]; [lia..|].
        rewrite Hblk in Hsta. cbn.
        apply wp_bind. unfold std_copy. rewrite ptr_diff_Ptr by lia.
        rewrite Nat.sub_0_r.
        eapply (wp_copy_forward _ _ _ (take (length la) lb) _ _ [] la);
          [done|done| |done|done| | | |].
        { intros k x Hk. apply lookup_take_Some in Hk as [Hk _].
          by apply block_of_lookup. }
        { simpl_length. lia. }
        { done. }
        2:{ intros w' Hvs Hs Hfl. split_and!; [done| |by rewrite Hvs].
            eexists. split; [by rewrite Hvs|]. done. }
        cbn. intros Hnf.
        eapply (wp_uninitialized_copy_n _ _ _ (drop (length la) lb) _ _
                  (Obj <$> take (length la) lb));
          [done|heap_lookup| |heap_lookup| | | |].
        { intros k x Hk. rewrite lookup_drop in Hk. by apply block_of_lookup. }
        { simpl_length. lia. }
        { simpl_length. lia. }
        { cbn. intros Hnf'. apply Hfin; [done| |heap_lookup|(intros b' Hb'; cbn; rewrite ?lookup_insert_ne by (intros ->; by apply Hb'); done)|(cbn; simpl_length; lia)]. cbn. heap_lookup.
          f_equal. unfold block_of.
          by rewrite app_assoc, <- fmap_app, take_drop. }
        { cbn. intros j Hj Hfj. split_and!; [|..].
          - eexists. split; [|exact Hfj]. cbn. lia.
          - eexists. split; [done|]. split_and!; [done..|]. cbn. heap_lookup.
          - done. }
      * destruct (block_of_take la (length lb) ca) as [Hblk Hblk']; [lia..|].
        rewrite Hblk in Hsta. cbn.
        apply wp_bind. unfold std_copy. rewrite ptr_diff_Ptr by lia.
        rewrite Nat.sub_0_r.
        eapply (wp_copy_forward _ _ _ lb _ _ [] (take (length lb) la));
          [done|done| |done|done| | | |].
        { intros k x Hk. by apply block_of_lookup. }
        { done. }
        { simpl_length. lia. }
        2:{ intros w' Hvs Hs Hfl. split_and!; [done| |by rewrite Hvs].
            eexists. split; [by rewrite Hvs|]. done. }
        cbn. intros Hnf.
        eapply (wp_destroy_n _ _ (Obj <$> lb) (drop (length lb) la)).
        { heap_lookup. }
        { by simpl_length. }
        { by simpl_length. }
        apply Hfin; [done| |heap_lookup|(intros b' Hb'; cbn; rewrite ?lookup_insert_ne by (intros ->; by apply Hb'); done)|(cbn; simpl_length; lia)]. cbn. heap_lookup.
        f_equal. unfold block_of. f_equal.
        rewrite <- replicate_add. f_equal. lia.
Qed.

Lemma copy_assign_realloc_spec a b la ca lb cb w :
  a <> b -> owns w a la ca -> owns w b lb cb -> separate w a b ->
  ca < length lb ->
  fits (length lb) ->
  wp (copy_assign faults a b) w
    (fun _ w' =>
       owns w' a lb (length lb) /\ owns w' b lb cb /\
       (forall c, c <> a -> vecs w' !! c = vecs w !! c))
    (fun w' => faulted (ops w) /\ owns w' b lb cb /\ vecs w' !! b = vecs w !! b)
    False.
Proof.
  intros Hab (va & Hva & Hsza & Hcapa & Hlea & Hsta) Hob Hsep Hfit Hfits.
  pose proof Hob as (vb & Hvb & Hszb & Hcapb & Hleb & Hstb).
  unfold copy_assign. rewrite decide_True by done.
  apply wp_bind. wp_step. apply wp_bind. wp_step.
  rewrite decide_False by lia.
  specialize (Hsep va vb).
  destruct va as [[pa c] sz]; cbn in *. subst c sz.
  destruct vb as [[pb c] sz]; cbn in *. subst c sz.
  destruct pb as [|bb [|?]|]; cbn in Hstb; [| |done..].
  { apply block_of_nil_inv in Hstb as [-> _]. cbn in Hfit. lia. }
  apply wp_with_Vector. intros a' Ha'.
  assert (Ha'a : a' <> a) by (intros ->; congruence).
  assert (Ha'b : a' <> b) by (intros ->; congruence).
  apply wp_bind. unfold Vector_copy_ctor.
  apply wp_bind. wp_step. cbn.
  apply wp_bind, wp_RawMemory_ctor; [lia|fit| |].
  2:{ intros Hf. split_and!; [by exists (ops w)|done..]. }
  intros Hf bn Hbn. cbn.
  assert (Hbbn : bb <> bn) by (intros ->; congruence).
  apply wp_bind. wp_step. cbn.
  apply wp_try_catch.
  eapply (wp_uninitialized_copy_n _ 0 _ lb _ _ [] []);
    [done|heap_lookup| |heap_lookup; by rewrite app_nil_r|done|done| |].
  { intros k x Hk. by apply block_of_lookup. }
  2:{ cbn. intros j Hj Hfj. apply wp_bind. wp_step. cbn.
      apply wp_bind. eapply wp_RawMemory_dtor; [done|heap_lookup|]. cbn.
      apply wp_throw. cbn.
      rewrite !delete_insert_eq, !delete_id by done.
      split_and!; [| |done].
      - eexists. split; [|exact Hfj]. lia.
      - eexists. split; [exact Hvb|]. cbn. done. }
  cbn. intros Hnf. rewrite insert_insert_eq, app_nil_r.
  apply wp_finally. unfold Swap.
  apply wp_bind. wp_step. apply wp_bind. wp_step. cbn.
  unfold RawMemory_Swap. cbn.
  apply wp_bind. wp_step. cbn. apply wp_bind. wp_step. cbn.
  apply wp_bind. wp_step. apply wp_bind. wp_step. cbn.
  apply wp_bind. wp_step. cbn. wp_step. cbn.
  unfold Vector_dtor. apply wp_bind. wp_step. cbn.
  assert (Hfin : forall w1 : World,
    vecs w1 !! a =
      Some (mkVector (mkRawMemory (Ptr bn 0) (length lb)) (length lb)) ->
    (forall c, c <> a -> c <> a' -> vecs w1 !! c = vecs w !! c) ->
    heap w1 !! bn = Some (Obj <$> lb) ->
    heap w1 !! bb = Some (block_of lb cb) ->
    wp (del_vec a') w1
      (fun _ w' =>
         owns w' a lb (length lb) /\ owns w' b lb cb /\
         (forall c, c <> a -> vecs w' !! c = vecs w !! c))
      (fun w' => faulted (ops w) /\ owns w' b lb cb /\ vecs w' !! b = vecs w !! b)
      False).
  { intros w1 Hvsa Hvs Hn Hb. wp_step. cbn. split_and!.
    - eexists. split; [heap_lookup|]. cbn. split_and!; [done..|].
      by rewrite block_of_full.
    - eexists. split; [heap_lookup; by rewrite Hvs|]. cbn. done.
    - intros c Hc. destruct (decide (c = a')) as [->|Hc'].
      + by rewrite lookup_delete_eq.
      + heap_lookup. by apply Hvs. }
  destruct pa as [|ba [|?]|]; cbn in Hsta; [| |done..].
  - apply block_of_nil_inv in Hsta as [-> ->]. cbn.
    apply wp_bind, wp_ret, wp_bind, wp_RawMemory_dtor_null; [done|].
    apply Hfin; [heap_lookup|intros; heap_lookup|heap_lookup..].
  - assert (Hban : ba <> bn) by (intros ->; congruence).
    assert (Hbab : ba <> bb) by (by eapply Hsep).
    unfold block_of in Hsta. apply wp_bind.
    eapply (wp_destroy_n _ _ [] la); [heap_lookup|done..|].
    apply wp_bind. eapply wp_RawMemory_dtor; [done|heap_lookup|].
    apply Hfin; [heap_lookup|intros; heap_lookup|heap_lookup..].
Qed.

(** Copy assignment between two vectors *)
Lemma copy_assign_spec a b la ca lb cb w :
  a <> b -> owns w a la ca -> owns w b lb cb -> separate w a b ->
  (ca < length lb -> fits (length lb)) ->
  wp (copy_assign faults a b) w
    (fun _ w' =>
       owns w' a lb (if decide (length lb <= ca) then ca else length lb) /\
       owns w' b lb cb /\
       (forall c, c <> a -> vecs w' !! c = vecs w !! c) /\
       (length lb <= ca ->
        keeps_storage w w' a /\ ops w' = ops w + length lb))
    (fun w' => faulted (ops w) /\ owns w' b lb cb /\ vecs w' !! b = vecs w !! b)
    False.
Proof.
  intros Hab Hoa Hob Hsep Hfits. case_decide.
  - eapply wp_mono;
      [by apply (copy_assign_inplace_spec a b la ca lb cb w)| |done..].
    intros [] w' (? & ? & ? & ? & ?). done.
  - eapply wp_mono;
      [apply (copy_assign_realloc_spec a b la ca lb cb w); [done..|lia|apply Hfits; lia]|
       |done..].
    intros [] w' (? & ? & ?). split_and!; [done..|]. intros ?. lia.
Qed.

(** *** Move construction and move assignment *)

Lemma Vector_eta (v : Vector) :
  mkVector (mkRawMemory (buffer (data v)) (capacity (data v))) (size v) = v.
Proof. by destruct v as [[? ?] ?]. Qed.

Lemma Vector_move_ctor_run this other v (w : World) :
  vecs w !! other = Some v ->
  Vector_move_ctor this other w =
    (Normal tt,
     set_vecs (<[this := v]> (<[other := mkVector (mkRawMemory nullptr 0) 0]> (vecs w))) w).
Proof.
  intros Hv. destruct w as [h vs k d u]. cbn in *.
  unfold Vector_move_ctor, bind, get_vec. cbn. rewrite Hv. cbn.
  unfold set_data, set_size, bind, get_vec, put_vec. cbn. rewrite Hv. cbn.
  rewrite lookup_insert_eq. cbn.
  by rewrite insert_insert_eq, Vector_eta.
Qed.

Lemma Swap_run this other v o (w : World) :
  vecs w !! this = Some v -> vecs w !! other = Some o ->
  Swap this other w =
    (Normal tt, set_vecs (<[other := v]> (<[this := o]> (vecs w))) w).
Proof.
  intros Hv Ho. destruct w as [h vs k d u]. cbn in *.
  unfold Swap, bind, get_vec. cbn. rewrite Hv. cbn. rewrite Ho. cbn.
  unfold set_data, set_size, bind, get_vec, put_vec. cbn.
  destruct (decide (this = other)) as [->|Hne].
  - assert (o = v) as -> by congruence.
    repeat (first [rewrite lookup_insert_eq | rewrite Hv]; cbn).
    unfold set_vecs. cbn. by rewrite !insert_insert_eq, Vector_eta.
  - repeat (first [ rewrite lookup_insert_eq
                  | rewrite lookup_insert_ne by done
                  | rewrite Hv | rewrite Ho ]; cbn).
    rewrite !Vector_eta. unfold set_vecs. cbn. do 2 f_equal.
    apply map_eq. intros c.
    destruct (decide (c = other)) as [->|Hco]; [by rewrite !lookup_insert_eq|].
    destruct (decide (c = this)) as [->|Hct].
    + by rewrite lookup_insert_ne, lookup_insert_eq, lookup_insert_ne,
        lookup_insert_eq by done.
    + by rewrite !lookup_insert_ne by done.
Qed.

Lemma owns_same_heap w w' this v l cap :
  owns w this l cap -> vecs w !! this = Some v ->
  heap w' = heap w -> forall a, vecs w' !! a = Some v -> owns w' a l cap.
Proof.
  intros (v' & Hv' & Hsz & Hcap & Hle & Hst) Hv Hh a Ha.
  assert (v' = v) as -> by congruence.
  exists v. split_and!; [done..|].
  unfold stores in *. by rewrite Hh.
Qed.

(** ** The properties of the container *)

Lemma wp_elim {A} (m : M A) w QN QT QU :
  wp m w QN QT QU ->
  match result m w with
  | Normal a => QN a (exec m w)
  | Thrown => QT (exec m w)
  | Undefined => QU
  end.
Proof. unfold wp, result, exec. by destruct (m w) as [[a| |] w']. Qed.

Lemma wp_intro {A} (m : M A) w QN QT (QU : Prop) :
  match result m w with
  | Normal a => QN a (exec m w)
  | Thrown => QT (exec m w)
  | Undefined => QU
  end ->
  wp m w QN QT QU.
Proof. unfold wp, result, exec. by destruct (m w) as [[a| |] w']. Qed.

Lemma not_faulted k : (forall j, faults j = false) -> ~ faulted k.
Proof. intros Hnf (j & _ & Hj). rewrite Hnf in Hj. done. Qed.

(** A computation that throws or is undefined only under a fault returns
    when the schedule has none. *)
Lemma wp_returns {A} (m : M A) w QN k k' :
  (forall j, faults j = false) ->
  wp m w QN (fun _ => faulted k) (faulted k') ->
  exists a w', m w = (Normal a, w') /\ QN a w'.
Proof.
  intros Hnf Hwp. unfold wp in Hwp. destruct (m w) as [[a| |] w'].
  - by exists a, w'.
  - by apply not_faulted in Hwp.
  - by apply not_faulted in Hwp.
Qed.

(** C1, as the code has it.  Move construction gives the new vector the
    storage and the size of the source and leaves the source with no
    storage, size 0 and capacity 0.  Move assignment exchanges storage and
    size of the two vectors: the destination holds the former elements of
    the source, and the source holds the former elements and capacity of
    the destination.  Neither allocates, constructs, assigns or destroys
    anything: the heap and the counters are what they were. *)
Theorem move_transfers_storage this other l cap w :
  owns w other l cap ->
  (let w' := exec (Vector_move_ctor this other) w in
   this <> other ->
   result (Vector_move_ctor this other) w = Normal tt /\
   owns w' this l cap /\ owns w' other [] 0 /\
   vecs w' !! this = vecs w !! other /\
   heap w' = heap w /\ ops w' = ops w /\ dtors w' = dtors w /\
   undestroyed w' = undestroyed w) /\
  (forall ld capd,
     let w' := exec (move_assign this other) w in
     owns w this ld capd ->
     result (move_assign this other) w = Normal tt /\
     owns w' this l cap /\ owns w' other ld capd /\
     vecs w' !! this = vecs w !! other /\
     vecs w' !! other = vecs w !! this /\
     heap w' = heap w /\ ops w' = ops w /\ dtors w' = dtors w /\
     undestroyed w' = undestroyed w).
Proof.
  intros Ho. pose proof Ho as (v & Hv & _). split.
  - intros w' Hne. subst w'. unfold result, exec.
    rewrite (Vector_move_ctor_run this other v w Hv). cbn.
    split_and!; [done| | |heap_lookup|done..].
    + eapply (owns_same_heap w); [done..|heap_lookup].
    + eexists. split; [heap_lookup|]. cbn. done.
  - intros ld capd w' Hd. subst w'. pose proof Hd as (u & Hu & _).
    unfold result, exec, move_assign.
    rewrite (Swap_run this other u v w Hu Hv). cbn.
    assert (Hthis : <[other := u]> (<[this := v]> (vecs w)) !! this = Some v).
    { destruct (decide (this = other)) as [->|Hne]; [|heap_lookup].
      rewrite lookup_insert_eq. congruence. }
    split_and!; [done| | |by rewrite Hthis|heap_lookup|done..].
    + by eapply (owns_same_heap w _ other v).
    + eapply (owns_same_heap w _ this u); [done..|heap_lookup].
Qed.

(** C3, what the code does.  [ShrinkToFit] on a vector with spare
    capacity moves the elements into a new block and releases the old one
    with the moved-from objects still alive in it: no destructor runs, and
    as many objects as the vector has elements lose their storage
    undestroyed.  [Reserve], on the same vector, destroys every element of
    the old block before it is released.  The requests for storage are
    such that [n * sizeof(T)] is in the range of [size_t]. *)
Theorem ShrinkToFit_releases_undestroyed this l cap w :
  owns w this l cap -> 0 < length l -> length l < cap -> fits (length l) ->
  wp (ShrinkToFit faults this) w
    (fun _ w' =>
       owns w' this l (length l) /\
       dtors w' = dtors w /\
       undestroyed w' = undestroyed w + length l)
    (fun _ => faulted (ops w))
    False /\
  ((forall k, faults k = false) ->
   result (ShrinkToFit faults this) w = Normal tt /\
   undestroyed (exec (ShrinkToFit faults this) w) = undestroyed w + length l) /\
  (forall n, cap < n -> fits n ->
   wp (Reserve faults this n) w
     (fun _ w' =>
        dtors w' = dtors w + length l /\ undestroyed w' = undestroyed w)
     (fun _ => faulted (ops w))
     False).
Proof.
  intros Ho Hpos Hlt Hfits.
  pose proof (ShrinkToFit_spec this l cap w Ho Hpos Hlt Hfits) as Hs.
  split_and!; [done| |].
  - intros Hnf. apply wp_elim in Hs.
    destruct (result (ShrinkToFit faults this) w) as [[]| |];
      [|by apply not_faulted in Hs|done].
    by destruct Hs as (_ & _ & Hu).
  - intros n Hn Hfn.
    eapply wp_mono; [by apply (Reserve_spec this l cap n w)| | |done].
    + by intros [] w' (_ & _ & Hd & Hu & _).
    + by intros w' (Hf & _).
Qed.

(** The growth path of [PushBack] and [EmplaceBack] for elements that are
    copied, when the allocation and the construction of the new element
    succeed: if the copy of element [j] throws, the [j] copies made so far
    are destroyed and the new block is released with the new element
    still alive in it. *)
Lemma wp_grow_copy_throw this v l x w :
  vecs w !! this = Some v -> size v = length l -> capacity (data v) = length l ->
  stores w (buffer (data v)) (block_of l (length l)) ->
  moves_elements = false ->
  faults (ops w) = false -> faults (S (ops w)) = false ->
  fits (grown (length l)) ->
  wp (with_RawMemory faults (grown (size v)) (fun new_data =>
        construct_at faults (ptr_add (GetAddress new_data) (size v)) x ;;;
        transfer_n faults (GetAddress (data v)) (size v) (GetAddress new_data) ;;;
        destroy_n (GetAddress (data v)) (size v) ;;;
        let (d, new_data') := RawMemory_Swap (data v) new_data in
        set_data this d ;;;
        ret (tt, new_data'))) w
    (fun _ w' => exists v', vecs w' !! this = Some v')
    (fun w' =>
       heap w' = heap w /\ vecs w' = vecs w /\
       undestroyed w' = S (undestroyed w) /\
       exists j, j < length l /\ faults (S (S (ops w + j))) = true /\
                 dtors w' = dtors w + j /\ ops w' = S (S (S (ops w + j))))
    False.
Proof.
  intros Hv Hsz Hcap Hst Hmv Hf0 Hf1 Hfits.
  destruct v as [[p c] sz]; cbn in *. subst c sz.
  pose proof (grown_gt (length l)) as Hg.
  apply wp_with_RawMemory, wp_RawMemory_ctor; [lia|fit| |congruence].
  intros _ bn Hbn. cbn.
  apply wp_bind.
  eapply (wp_construct_at _ _ (replicate (length l) Raw) _
            (replicate (grown (length l) - S (length l)) Raw)).
  { cbn. rewrite lookup_insert_eq. f_equal.
    rewrite <- replicate_S, <- replicate_add. f_equal. lia. }
  { by rewrite length_replicate. }
  2:{ cbn. congruence. }
  cbn. intros _.
  destruct p as [|b [|i]|]; cbn in Hst; [| |done..].
  - apply block_of_nil_inv in Hst as [-> _]. cbn.
    rewrite transfer_n_0. apply wp_bind, wp_ret, wp_bind, wp_ret.
    unfold RawMemory_Swap. cbn. apply wp_bind.
    eapply wp_set_data; [done|]. apply wp_ret. cbn.
    apply wp_RawMemory_dtor_null; [done|]. cbn.
    eexists. by rewrite lookup_insert_eq.
  - assert (Hbne : b <> bn) by (intros ->; congruence).
    unfold block_of in Hst. rewrite Nat.sub_diag in Hst.
    apply wp_bind. unfold transfer_n. rewrite Hmv.
    eapply (wp_uninitialized_copy_n _ 0 _ l _ _ []); [done| | | | | | |].
    + heap_lookup.
    + intros k y Hk. apply lookup_app_l_Some.
      rewrite list_lookup_fmap. cbn. by rewrite Hk.
    + cbn. by rewrite lookup_insert_eq.
    + done.
    + done.
    + cbn. intros Hnf. apply wp_bind.
      eapply (wp_destroy_n _ _ [] l).
      { heap_lookup. }
      { done. }
      { done. }
      cbn. unfold RawMemory_Swap. cbn. apply wp_bind.
      eapply wp_set_data; [done|]. apply wp_ret. cbn.
      eapply wp_RawMemory_dtor; [done| |].
      { cbn. rewrite lookup_insert_eq. done. }
      cbn. eexists. by rewrite lookup_insert_eq.
    + cbn. intros j Hj Hfj.
      eapply wp_RawMemory_dtor; [done| |].
      { cbn. rewrite lookup_insert_eq. done. }
      cbn. split_and!; [|done| |].
      * by rewrite insert_insert_eq, delete_insert_eq, delete_id.
      * change (Obj x :: replicate (grown (length l) - S (length l)) Raw)
          with ((Obj <$> [x]) ++ replicate (grown (length l) - S (length l)) Raw).
        rewrite !live_app, live_Obj, !live_replicate_Raw. cbn. lia.
      * exists j. split_and!; [done|done|done|lia].
Qed.

(** C4.  [PushBack] and [EmplaceBack] on a full vector, the request for
    the grown block being in the range of [size_t].  They are never
    undefined.  When they return, the allocation and the construction of
    the new element did not throw and the value is appended in a buffer
    of the grown capacity; without faults they do return.  They throw
    only if a fault is scheduled; if they throw while the elements are
    copied, or because the allocation or the construction of the new
    element threw, the heap and the vector object are what they were, so
    the vector still owns the same elements with the same capacity.  The
    new element is constructed in the new block first: if its constructor
    throws, it is the second fallible operation of the call, after the
    allocation, and no destructor ran; and if a later copy of an existing
    element throws, the new element is already alive in the new block,
    which is released with it, after the copies made so far were
    destroyed. *)
Theorem append_strong_guarantee this l cap x w :
  owns w this l cap -> cap <= length l -> fits (grown (length l)) ->
  (wp (PushBack faults this x) w
     (fun _ w' =>
        owns w' this (l ++ [x]) (grown (length l)) /\
        faults (ops w) = false /\ faults (S (ops w)) = false)
     (fun w' =>
        faulted (ops w) /\
        (moves_elements = false \/ faults (ops w) = true \/
         faults (S (ops w)) = true ->
         heap w' = heap w /\ vecs w' = vecs w /\ owns w' this l cap))
     False /\
   ((forall k, faults k = false) ->
    result (PushBack faults this x) w = Normal tt) /\
   (faults (ops w) = false -> faults (S (ops w)) = true ->
    result (PushBack faults this x) w = Thrown /\
    ops (exec (PushBack faults this x) w) = S (S (ops w)) /\
    dtors (exec (PushBack faults this x) w) = dtors w) /\
   (moves_elements = false ->
    faults (ops w) = false -> faults (S (ops w)) = false ->
    result (PushBack faults this x) w = Thrown ->
    undestroyed (exec (PushBack faults this x) w) = S (undestroyed w) /\
    exists j, j < length l /\ faults (S (S (ops w + j))) = true /\
              dtors (exec (PushBack faults this x) w) = dtors w + j)) /\
  (wp (EmplaceBack faults this x) w
     (fun _ w' =>
        owns w' this (l ++ [x]) (grown (length l)) /\
        faults (ops w) = false /\ faults (S (ops w)) = false)
     (fun w' =>
        faulted (ops w) /\
        (moves_elements = false \/ faults (ops w) = true \/
         faults (S (ops w)) = true ->
         heap w' = heap w /\ vecs w' = vecs w /\ owns w' this l cap))
     False /\
   ((forall k, faults k = false) ->
    exists r, result (EmplaceBack faults this x) w = Normal r) /\
   (faults (ops w) = false -> faults (S (ops w)) = true ->
    result (EmplaceBack faults this x) w = Thrown /\
    ops (exec (EmplaceBack faults this x) w) = S (S (ops w)) /\
    dtors (exec (EmplaceBack faults this x) w) = dtors w) /\
   (moves_elements = false ->
    faults (ops w) = false -> faults (S (ops w)) = false ->
    result (EmplaceBack faults this x) w = Thrown ->
    undestroyed (exec (EmplaceBack faults this x) w) = S (undestroyed w) /\
    exists j, j < length l /\ faults (S (S (ops w + j))) = true /\
              dtors (exec (EmplaceBack faults this x) w) = dtors w + j)).
Proof.
  intros Ho Hfull Hfits. pose proof Ho as (v & Hv & Hsz & Hcapv & Hle & Hst).
  assert (Hcap : capacity_after_append l cap = grown (length l)).
  { unfold capacity_after_append. by rewrite decide_True. }
  assert (Hsame : forall w', heap w' = heap w -> vecs w' = vecs w ->
                             owns w' this l cap).
  { intros w' Hh Hvs. eapply (owns_same_heap w); [done..|by rewrite Hvs]. }
  assert (Hcl : cap = length l) by lia.
  split.
  - pose proof (PushBack_spec this l cap x w Ho (fun _ => Hfits)) as Hs.
    split_and!.
    + eapply wp_mono; [exact Hs| | |done].
      * intros [] w' (Ho' & _ & _ & Hnf). rewrite <- Hcap. auto.
      * intros w' (Hfl & Hvs & Hh & _). split; [done|]. intros Hc.
        assert (heap w' = heap w) by (apply Hh; tauto). auto.
    + intros Hnf. apply wp_elim in Hs.
      destruct (result (PushBack faults this x) w) as [[]| |]; [done| |done].
      destruct Hs as [Hfl _]. by apply not_faulted in Hfl.
    + intros Hf0 Hf1. apply wp_elim in Hs.
      destruct (result (PushBack faults this x) w) as [[]| |]; [|auto|done].
      * destruct Hs as (_ & _ & _ & Hnf). destruct (Hnf Hfull). congruence.
      * destruct Hs as (_ & _ & _ & Hk). split; [done|]. by apply Hk.
    + intros Hmv Hf0 Hf1 Hr. rewrite Hcl in Hcapv, Hst.
      pose proof (wp_grow_copy_throw this v l x w Hv Hsz Hcapv Hst Hmv Hf0 Hf1
                    Hfits) as Hg.
      assert (Hwp : wp (PushBack faults this x) w (fun _ _ => True)
        (fun w' =>
           undestroyed w' = S (undestroyed w) /\
           exists j, j < length l /\ faults (S (S (ops w + j))) = true /\
                     dtors w' = dtors w + j)
        False).
      { unfold PushBack. apply wp_bind. eapply wp_get_vec; [done|].
        rewrite decide_True by lia. apply wp_bind.
        eapply wp_mono; [exact Hg| | |done].
        - intros [] w1 (v1 & Hv1). apply wp_bind. eapply wp_get_vec; [done|].
          by eapply wp_set_size.
        - intros w' (_ & _ & ? & j & ? & ? & ? & _). split; [done|].
          by exists j. }
      apply wp_elim in Hwp. by rewrite Hr in Hwp.
  - pose proof (EmplaceBack_spec this l cap x w Ho (fun _ => Hfits)) as Hs.
    split_and!.
    + eapply wp_mono; [exact Hs| | |done].
      * intros r w' (Ho' & _ & _ & _ & Hnf). rewrite <- Hcap. auto.
      * intros w' (Hfl & Hvs & Hh & _). split; [done|]. intros Hc.
        assert (heap w' = heap w) by (apply Hh; tauto). auto.
    + intros Hnf. apply wp_elim in Hs.
      destruct (result (EmplaceBack faults this x) w) as [r| |];
        [by exists r| |done].
      destruct Hs as [Hfl _]. by apply not_faulted in Hfl.
    + intros Hf0 Hf1. apply wp_elim in Hs.
      destruct (result (EmplaceBack faults this x) w) as [r| |]; [|auto|done].
      * destruct Hs as (_ & _ & _ & _ & Hnf). destruct (Hnf Hfull). congruence.
      * destruct Hs as (_ & _ & _ & Hk). split; [done|]. by apply Hk.
    + intros Hmv Hf0 Hf1 Hr. rewrite Hcl in Hcapv, Hst.
      pose proof (wp_grow_copy_throw this v l x w Hv Hsz Hcapv Hst Hmv Hf0 Hf1
                    Hfits) as Hg.
      assert (Hwp : wp (EmplaceBack faults this x) w (fun _ _ => True)
        (fun w' =>
           undestroyed w' = S (undestroyed w) /\
           exists j, j < length l /\ faults (S (S (ops w + j))) = true /\
                     dtors w' = dtors w + j)
        True).
      { unfold EmplaceBack. apply wp_bind. eapply wp_get_vec; [done|].
        rewrite decide_True by lia. apply wp_bind.
        eapply wp_mono; [exact Hg| | |done].
        - intros [] w1 (v1 & Hv1). apply wp_bind. eapply wp_get_vec; [done|].
          apply wp_bind. eapply wp_set_size; [done|].
          unfold RawMemory_index. apply wp_bind, wp_assert; [|done].
          intros _. by apply wp_ret.
        - intros w' (_ & _ & ? & j & ? & ? & ? & _). split; [done|].
          by exists j. }
      apply wp_elim in Hwp. by rewrite Hr in Hwp.
Qed.

(** C5.  [Reserve(n)] with [n <= capacity()] changes nothing.  Otherwise,
    for [n] such that [n * sizeof(T)] is in the range of [size_t], it is
    never undefined; when it returns, the capacity is exactly [n] and the
    size and the elements are what they were; it returns unless the
    allocation or the transfer throws, and then the vector object is what
    it was.  In every outcome the capacity is at least what it was. *)
Theorem Reserve_capacity this l cap n w :
  owns w this l cap -> (cap < n -> fits n) ->
  (n <= cap -> Reserve faults this n w = (Normal tt, w)) /\
  (cap < n ->
   wp (Reserve faults this n) w
     (fun _ w' => owns w' this l n)
     (fun w' => faulted (ops w) /\ vecs w' = vecs w)
     False) /\
  (exists v', vecs (exec (Reserve faults this n) w) !! this = Some v' /\
              cap <= capacity (data v')) /\
  ((forall k, faults k = false) ->
   result (Reserve faults this n) w = Normal tt /\
   owns (exec (Reserve faults this n) w) this l (Nat.max cap n)).
Proof.
  intros Ho Hfits. pose proof Ho as (v & Hv & Hsz & Hcap & Hle & Hst).
  assert (Hsmall : n <= cap -> Reserve faults this n w = (Normal tt, w)).
  { intros Hn. unfold Reserve, bind, get_vec. rewrite Hv.
    by rewrite decide_True by lia. }
  assert (Hlarge : cap < n ->
    wp (Reserve faults this n) w
      (fun _ w' => owns w' this l n)
      (fun w' => faulted (ops w) /\ vecs w' = vecs w)
      False).
  { intros Hn.
    eapply wp_mono; [apply (Reserve_spec this l cap n w); auto| | |done].
    - by intros [] w' (Ho' & _).
    - by intros w' (Hf & Hvs & _). }
  split_and!; [done..| |].
  - destruct (decide (n <= cap)) as [Hn|Hn].
    + unfold exec. rewrite Hsmall by done. exists v. split; [done|lia].
    + assert (Hlt : cap < n) by lia. apply Hlarge, wp_elim in Hlt.
      destruct (result (Reserve faults this n) w) as [[]| |]; [| |done].
      * destruct Hlt as (v' & Hv' & _ & Hc & _). exists v'. split; [done|lia].
      * destruct Hlt as [_ Hvs]. exists v. rewrite Hvs. split; [done|lia].
  - intros Hnf. destruct (decide (n <= cap)) as [Hn|Hn].
    + unfold result, exec. rewrite Hsmall by done. cbn.
      by rewrite Nat.max_l by lia.
    + assert (Hlt : cap < n) by lia. apply Hlarge, wp_elim in Hlt.
      rewrite Nat.max_r by lia.
      destruct (result (Reserve faults this n) w) as [[]| |]; [done| |done].
      destruct Hlt as [Hf _]. by apply not_faulted in Hf.
Qed.

(** C6.  After [Resize(n)] the size is [n].  For [n < size()] the elements
    are the first [n] of the old ones, the capacity is unchanged, the
    trailing [size() - n] objects were destroyed and nothing can throw.
    For [n >= size()] the old elements are followed by [n - size()] objects
    of the default value, and the capacity is [max(2 * capacity(), n)] if
    [n] exceeded it and unchanged otherwise; the bytes of that capacity
    are in the range of [size_t]. *)
Theorem Resize_size_and_elements this l cap n w :
  owns w this l cap -> (cap < n -> fits (Nat.max (cap * 2) n)) ->
  (n < length l ->
   wp (Resize faults this n) w
     (fun _ w' =>
        owns w' this (take n l) cap /\
        Size this w' = (Normal n, w') /\
        dtors w' = dtors w + (length l - n))
     (fun _ => False) False) /\
  (length l <= n ->
   wp (Resize faults this n) w
     (fun _ w' =>
        owns w' this (l ++ replicate (n - length l) default_value)
          (if decide (cap < n) then Nat.max (cap * 2) n else cap) /\
        Size this w' = (Normal n, w'))
     (fun _ => faulted (ops w)) False) /\
  ((forall k, faults k = false) -> result (Resize faults this n) w = Normal tt).
Proof.
  intros Ho Hfits. pose proof Ho as (v & Hv & Hsz & Hcap & Hle & Hst).
  assert (Hshrink : n < length l ->
    wp (Resize faults this n) w
      (fun _ w' =>
         owns w' this (take n l) cap /\
         Size this w' = (Normal n, w') /\
         dtors w' = dtors w + (length l - n))
      (fun _ => False) False).
  { intros Hn.
    eapply wp_mono; [by apply (Resize_shrink_spec this l cap n w)| |done..].
    intros [] w' (Ho' & _ & Hd & _). split_and!; [done| |done].
    destruct (owns_queries _ _ _ _ Ho') as (Hq & _).
    rewrite Hq, length_take. do 2 f_equal. lia. }
  assert (Hgrow : length l <= n ->
    wp (Resize faults this n) w
      (fun _ w' =>
         owns w' this (l ++ replicate (n - length l) default_value)
           (if decide (cap < n) then Nat.max (cap * 2) n else cap) /\
         Size this w' = (Normal n, w'))
      (fun _ => faulted (ops w)) False).
  { intros Hn.
    eapply wp_mono; [by apply (Resize_grow_spec this l cap n w)| |done..].
    intros [] w' (Ho' & _). split; [done|].
    destruct (owns_queries _ _ _ _ Ho') as (Hq & _).
    rewrite Hq. simpl_length. do 2 f_equal. lia. }
  split_and!; [done..|].
  intros Hnf. destruct (decide (n < length l)) as [Hn|Hn].
  - apply Hshrink, wp_elim in Hn.
    by destruct (result (Resize faults this n) w) as [[]| |].
  - assert (Hge : length l <= n) by lia. apply Hgrow, wp_elim in Hge.
    destruct (result (Resize faults this n) w) as [[]| |]; [done| |done].
    by apply not_faulted in Hge.
Qed.


Lemma after_back_ops_length os (l l' : list T) :
  after_back_ops os l = Some l' ->
  length l' + pops os = length l + pushes os.
Proof.
  revert l. induction os as [|[x|] os IH]; intros l Hl; cbn in *.
  - injection Hl as <-. lia.
  - apply IH in Hl. rewrite length_app in Hl. cbn in Hl. lia.
  - destruct l as [|y l] using rev_ind; [done|].
    assert (Hrl : after_back_ops os (removelast (l ++ [y])) = Some l').
    { by destruct (l ++ [y]) eqn:E; [destruct l|]. }
    rewrite removelast_last in Hrl. apply IH in Hrl.
    rewrite length_app. cbn. lia.
Qed.

(** Sequences of [PushBack] and [PopBack]: the vector follows the sequence
    of the specification. *)
Lemma run_back_ops_spec this os l l' cap w :
  owns w this l cap -> after_back_ops os l = Some l' ->
  fits (2 * (length l + pushes os)) ->
  wp (run_back_ops faults this os) w
    (fun _ w' => exists cap', owns w' this l' cap')
    (fun _ => faulted 0)
    False.
Proof.
  revert l cap w.
  induction os as [|[x|] os IH]; intros l cap w Ho Hl Hfits; cbn in *.
  - injection Hl as <-. apply wp_ret. by exists cap.
  - apply wp_bind.
    eapply wp_mono; [apply (PushBack_spec this l cap x w Ho)| | |done].
    + intros _. eapply fits_le; [exact Hfits|].
      unfold grown. case_decide; lia.
    + intros [] w' (Ho' & _). eapply IH; [done..|].
      eapply fits_le; [exact Hfits|]. rewrite length_app. cbn. lia.
    + intros w' ((k & _ & Hk) & _). exists k. split; [lia|done].
  - destruct l as [|y l _] using rev_ind; [done|].
    assert (Hrl : after_back_ops os (removelast (l ++ [y])) = Some l').
    { by destruct (l ++ [y]) eqn:E; [destruct l|]. }
    rewrite removelast_last in Hrl.
    apply wp_bind.
    eapply wp_mono; [by apply (PopBack_spec this l y cap w)| |done..].
    intros [] w' (Ho' & _). eapply IH; [done..|].
    eapply fits_le; [exact Hfits|]. rewrite length_app. cbn. lia.
Qed.

(** *** Operations on the elements leave the vector objects alone *)

Lemma kv_ret {A} (a : A) : keeps_vecs (ret a).
Proof. done. Qed.

Lemma kv_throw {A} : keeps_vecs (@throw T A).
Proof. done. Qed.

Lemma kv_undefined {A} : keeps_vecs (@undefined T A).
Proof. done. Qed.

Lemma kv_bind {A B} (m : M A) (k : A -> M B) :
  keeps_vecs m -> (forall a, keeps_vecs (k a)) -> keeps_vecs (bind m k).
Proof.
  intros Hm Hk w. unfold bind. specialize (Hm w).
  destruct (m w) as [[a| |] w1]; cbn in *; [|done..]. by rewrite Hk.
Qed.

Lemma kv_try_catch {A} (m h : M A) :
  keeps_vecs m -> keeps_vecs h -> keeps_vecs (try_catch m h).
Proof.
  intros Hm Hh w. unfold try_catch. specialize (Hm w).
  destruct (m w) as [[a| |] w1]; cbn in *; [done| |done]. by rewrite Hh.
Qed.

Lemma kv_finally {A} (m : M A) (c : M unit) :
  keeps_vecs m -> keeps_vecs c -> keeps_vecs (finally m c).
Proof.
  intros Hm Hc w. unfold finally. specialize (Hm w).
  destruct (m w) as [[a| |] w1]; cbn in *; [| |done].
  - rewrite <- Hm. apply (kv_bind c (fun _ => ret a)); [done|]. intros _. apply kv_ret.
  - rewrite <- Hm. apply (kv_bind c (fun _ => throw)); [done|]. intros _. apply kv_throw.
Qed.

Lemma kv_tick c : keeps_vecs (tick faults c).
Proof. intros w. unfold tick. by destruct (c && faults (ops w)). Qed.

Lemma kv_assert c : keeps_vecs (@assert T c).
Proof. by destruct c. Qed.

Lemma kv_read_slot p : keeps_vecs (read_slot p).
Proof.
  intros w. unfold read_slot. destruct p as [|b i|]; [done| |done].
  destruct (heap w !! b) as [blk|]; [|done]. by destruct (blk !! i).
Qed.

Lemma kv_write_slot p s : keeps_vecs (write_slot p s).
Proof.
  intros w. unfold write_slot. destruct p as [|b i|]; [done| |done].
  destruct (heap w !! b) as [blk|]; [|done]. by case_decide.
Qed.

Lemma kv_get_obj p : keeps_vecs (get_obj p).
Proof.
  apply kv_bind; [apply kv_read_slot|]. intros [|y]; [apply kv_undefined|apply kv_ret].
Qed.

Lemma kv_emplace_slot p y : keeps_vecs (emplace_slot p y).
Proof.
  apply kv_bind; [apply kv_read_slot|]. intros s.
  apply kv_bind; [by destruct s|]. intros _. apply kv_write_slot.
Qed.

Lemma kv_move_construct_at dst src : keeps_vecs (move_construct_at faults dst src).
Proof.
  apply kv_bind; [apply kv_get_obj|]. intros y.
  apply kv_bind; [apply kv_read_slot|]. intros _.
  apply kv_bind; [apply kv_tick|]. intros _.
  apply kv_bind; [apply kv_emplace_slot|]. intros _. apply kv_write_slot.
Qed.

Lemma kv_assign_at dst y : keeps_vecs (assign_at faults dst y).
Proof.
  apply kv_bind; [apply kv_get_obj|]. intros _.
  apply kv_bind; [apply kv_tick|]. intros _. apply kv_write_slot.
Qed.

Lemma kv_move_assign_at dst src : keeps_vecs (move_assign_at faults dst src).
Proof.
  apply kv_bind; [apply kv_get_obj|]. intros y.
  apply kv_bind; [apply kv_assign_at|]. intros _. apply kv_write_slot.
Qed.

Lemma kv_assign_backward asg last n d_last :
  (forall p q, keeps_vecs (asg p q)) ->
  keeps_vecs (assign_backward asg last n d_last).
Proof.
  intros Ha. revert last d_last.
  induction n as [|n IH]; intros last d_last; [apply kv_ret|].
  apply kv_bind; [apply Ha|]. intros _. apply IH.
Qed.

Lemma kv_std_move_backward first last d_last :
  keeps_vecs (std_move_backward faults first last d_last).
Proof.
  unfold std_move_backward. destruct (ptr_diff last first); [|apply kv_undefined].
  apply kv_assign_backward. apply kv_move_assign_at.
Qed.

(** The in-place path of [Emplace] before [end()] of a vector that is not
    empty never ends by throwing, whatever the position kept in the [int]
    is: every exception reaches the handler, which is undefined.  It is
    undefined as soon as the construction of the new value throws. *)
Lemma Emplace_inplace_not_thrown this v l p x cap w :
  owns w this l cap -> vecs w !! this = Some v ->
  length l < cap -> p < length l ->
  wp (Emplace faults this (ptr_add (buffer (data v)) p) x) w
    (fun _ _ => True) (fun _ => False) (faults (ops w) = true -> True) /\
  (faults (ops w) = true ->
   wp (Emplace faults this (ptr_add (buffer (data v)) p) x) w
     (fun _ _ => False) (fun _ => False) True).
Proof.
  intros (v' & Hv' & Hsz & Hcap & _ & Hst) Hv Hlt Hp.
  assert (v' = v) as -> by congruence. clear Hv'.
  destruct v as [[q c] sz]; cbn in *. subst c sz.
  destruct q as [|b [|i]|]; cbn in Hst; [| |done..].
  { apply block_of_nil_inv in Hst as [-> _]. cbn in Hp. lia. }
  destruct (length l) as [|n] eqn:Hn; [lia|].
  assert (Hbody : forall (m : M unit) QN (QU : Prop),
    keeps_vecs m -> QU -> (forall a w1, QN a w1) ->
    wp (try_catch m (e <- end_ this ;; operator_delete e ;;; throw)) w
      QN (fun _ => False) QU).
  { intros m QN QU Hm HQU HQN. unfold wp, try_catch. specialize (Hm w).
    destruct (m w) as [[a| |] w1]; cbn in *; [apply HQN| |done].
    eapply wp_Emplace_handler; [by rewrite Hm|done]. }
  assert (Hkv : forall position e,
    keeps_vecs
      (tick faults true ;;;
       finally
         (last <- RawMemory_index (mkRawMemory (Ptr b 0) cap) (S n - 1) ;;
          move_construct_at faults e last ;;;
          std_move_backward faults (ptr_add_int (Ptr b 0) position)
            (ptr_sub e 1) e ;;;
          assign_at faults (ptr_add_int (Ptr b 0) position) x)
         destroy_local)).
  { intros position e. apply kv_bind; [apply kv_tick|]. intros _.
    apply kv_finally; [|done].
    apply kv_bind.
    { apply kv_bind; [apply kv_assert|]. intros _. apply kv_ret. }
    intros last. apply kv_bind; [apply kv_move_construct_at|]. intros _.
    apply kv_bind; [apply kv_std_move_backward|]. intros _. apply kv_assign_at. }
  split.
  - Emplace_prelude Hv. cbn. apply wp_bind, wp_assert; [|done].
    intros _. rewrite ptr_diff_Ptr by lia. cbn beta iota zeta.
    apply wp_bind. eapply wp_get_vec; [done|]. cbn.
    rewrite decide_False by lia.
    rewrite decide_True by (intros [= ?]; lia).
    apply wp_bind. apply Hbody; [apply Hkv|done|].
    intros [] w1. unfold wp, set_size, begin_, put_vec, ret.
    repeat first
      [ done
      | progress cbn
      | progress unfold bind, get_vec
      | match goal with
        | |- context [match ?e with Some _ => _ | None => _ end] =>
            destruct e
        end ].
  - intros Hf. Emplace_prelude Hv. cbn. apply wp_bind, wp_assert; [|done].
    intros _. rewrite ptr_diff_Ptr by lia. cbn beta iota zeta.
    apply wp_bind. eapply wp_get_vec; [done|]. cbn.
    rewrite decide_False by lia.
    rewrite decide_True by (intros [= ?]; lia).
    apply wp_bind, wp_try_catch, wp_bind, wp_tick.
    + intros Hc. cbn in Hc. congruence.
    + intros _ _. by eapply wp_Emplace_handler.
Qed.

(** C9, what the code does.  [Emplace] and [Insert] before [end()] of a
    vector with spare capacity never end by throwing: when a step throws,
    the handler passes [end()], an address inside the block, to
    [operator delete], which is undefined.  So the call is undefined as
    soon as the construction of the new value throws.  For a size in the
    range of [int], in which the position is kept, the call is undefined
    only if a fault was scheduled. *)
Theorem Emplace_inplace_throw_is_undefined this v l p x cap w :
  owns w this l cap -> vecs w !! this = Some v ->
  length l < cap -> p < length l ->
  Insert faults this (ptr_add (buffer (data v)) p) x =
    Emplace faults this (ptr_add (buffer (data v)) p) x /\
  result (Emplace faults this (ptr_add (buffer (data v)) p) x) w <> Thrown /\
  (faults (ops w) = true ->
   result (Emplace faults this (ptr_add (buffer (data v)) p) x) w = Undefined) /\
  (int_sized (length l) ->
   result (Emplace faults this (ptr_add (buffer (data v)) p) x) w = Undefined ->
   faulted (ops w)).
Proof.
  intros Ho Hv Hlt Hp.
  destruct (Emplace_inplace_not_thrown this v l p x cap w Ho Hv Hlt Hp)
    as [Hnt Hu].
  split_and!; [done| | |].
  - apply wp_elim in Hnt. intros Hr. by rewrite Hr in Hnt.
  - intros Hf. specialize (Hu Hf). apply wp_elim in Hu.
    by destruct (result (Emplace faults this (ptr_add (buffer (data v)) p) x) w).
  - intros Hint Hr.
    pose proof (Emplace_inplace_spec this v l p x cap w Ho Hv Hlt Hp Hint) as Hs.
    apply wp_elim in Hs. by rewrite Hr in Hs.
Qed.

(** C10.  Copy assignment [a = b] between two vectors: when it returns,
    [a] has the elements of [b], so the same size, and [b] is what it was.
    If the elements of [b] fitted in the capacity of [a], the storage of
    [a] is reused: its buffer and capacity are what they were, no other
    block of the heap changed, and the fallible operations of the call
    are the copies of the elements of [b], one each, so nothing was
    allocated.  Otherwise a block for the elements of [b] is requested,
    of a size in the range of [size_t].  The call returns unless an
    allocation, a copy or an assignment throws, and is never undefined.
    Self assignment changes nothing. *)
Theorem copy_assign_copies a b la ca lb cb w :
  owns w a la ca -> owns w b lb cb -> a <> b -> separate w a b ->
  (ca < length lb -> fits (length lb)) ->
  wp (copy_assign faults a b) w
    (fun _ w' =>
       exists ca',
         owns w' a lb ca' /\ (length lb <= ca -> ca' = ca) /\
         owns w' b lb cb /\ vecs w' !! b = vecs w !! b /\
         elements a w' = (Normal lb, w') /\ elements b w' = (Normal lb, w') /\
         Size a w' = Size b w' /\
         (length lb <= ca ->
          keeps_storage w w' a /\ ops w' = ops w + length lb))
    (fun w' => faulted (ops w) /\ owns w' b lb cb)
    False /\
  copy_assign faults a a w = (Normal tt, w) /\
  ((forall k, faults k = false) -> result (copy_assign faults a b) w = Normal tt).
Proof.
  intros Hoa Hob Hab Hsep Hfits.
  assert (Hmain :
    wp (copy_assign faults a b) w
      (fun _ w' =>
         exists ca',
           owns w' a lb ca' /\ (length lb <= ca -> ca' = ca) /\
           owns w' b lb cb /\ vecs w' !! b = vecs w !! b /\
           elements a w' = (Normal lb, w') /\ elements b w' = (Normal lb, w') /\
           Size a w' = Size b w' /\
           (length lb <= ca ->
            keeps_storage w w' a /\ ops w' = ops w + length lb))
      (fun w' => faulted (ops w) /\ owns w' b lb cb)
      False).
  { eapply wp_mono;
      [by apply (copy_assign_spec a b la ca lb cb w)| |by intros ? (? & ? & _)|done].
    intros [] w' (Hoa' & Hob' & Hfr & Hkeep).
    destruct (owns_queries _ _ _ _ Hoa') as (Hsa & _ & Hea).
    destruct (owns_queries _ _ _ _ Hob') as (Hsb & _ & Heb).
    eexists.
    split_and!; [exact Hoa'| |done|by apply Hfr|done|done|congruence|done].
    intros Hfit. by rewrite decide_True. }
  split_and!; [done| |].
  - unfold copy_assign. by rewrite decide_False by (intros Hne; by apply Hne).
  - intros Hnf. apply wp_elim in Hmain.
    destruct (result (copy_assign faults a b) w) as [[]| |]; [done| |done].
    destruct Hmain as [Hf _]. by apply not_faulted in Hf.
Qed.

(** ** Further properties of the container *)

Lemma wp_total {A} (m : M A) w (QN : A -> World -> Prop) :
  wp m w QN (fun _ => False) False ->
  exists a w', m w = (Normal a, w') /\ QN a w'.
Proof.
  unfold wp. destruct (m w) as [[a| |] w']; [|done..]. by exists a, w'.
Qed.

(** What [owns] says of the buffer: no storage for capacity [0], and
    otherwise a block of the heap. *)
Lemma owns_inv w this l cap :
  owns w this l cap ->
  exists v,
    vecs w !! this = Some v /\ size v = length l /\ capacity (data v) = cap /\
    length l <= cap /\
    ((buffer (data v) = nullptr /\ l = [] /\ cap = 0) \/
     (exists b, buffer (data v) = Ptr b 0 /\ heap w !! b = Some (block_of l cap))).
Proof.
  intros (v & Hv & Hsz & Hcap & Hle & Hst). exists v.
  split_and!; [done..|].
  destruct (buffer (data v)) as [|b [|i]|] eqn:Hb; cbn in Hst; [| |done..].
  - left. by apply block_of_nil_inv in Hst as [-> ->].
  - right. by exists b.
Qed.

Lemma live_block_of_raw n m : live (replicate n (@Raw T) ++ replicate m Raw) = 0.
Proof. by rewrite live_app, !live_replicate_Raw. Qed.

(** [~Vector()] destroys every element, releases the block and ends the
    object; it neither throws nor leaves an object undestroyed. *)
Lemma Vector_dtor_spec this v l cap w :
  owns w this l cap -> vecs w !! this = Some v ->
  wp (Vector_dtor this) w
    (fun _ w' =>
       vecs w' = delete this (vecs w) /\
       heap w' = match buffer (data v) with
                 | Ptr b _ => delete b (heap w)
                 | _ => heap w
                 end /\
       dtors w' = dtors w + length l /\
       undestroyed w' = undestroyed w /\ ops w' = ops w)
    (fun _ => False) False.
Proof.
  intros Ho Hv.
  destruct (owns_inv _ _ _ _ Ho) as (v' & Hv' & Hsz & Hcap & Hle & Hbuf).
  assert (v' = v) as -> by congruence.
  unfold Vector_dtor. apply wp_bind. eapply wp_get_vec; [done|].
  unfold GetAddress.
  destruct Hbuf as [(Hb & -> & ->)|(b & Hb & Hblk)]; rewrite Hb, Hsz.
  - cbn. apply wp_bind, wp_ret, wp_bind.
    apply wp_RawMemory_dtor_null; [done|].
    unfold wp, del_vec. cbn. split_and!; [done..|lia|done|done].
  - apply wp_bind.
    eapply (wp_destroy_n _ _ [] l); [exact Hblk|done..|].
    apply wp_bind.
    eapply wp_RawMemory_dtor; [done|heap_lookup|].
    unfold wp, del_vec. cbn. rewrite live_block_of_raw.
    split_and!; [done| |done|lia|done].
    by rewrite delete_insert_eq.
Qed.

(** A vector is untouched by a step that keeps its object and the blocks
    the heap had. *)
Lemma owns_frame w w' a l cap :
  owns w a l cap ->
  vecs w' !! a = vecs w !! a ->
  (forall b blk, heap w !! b = Some blk -> heap w' !! b = Some blk) ->
  owns w' a l cap.
Proof.
  intros (v & Hv & Hsz & Hcap & Hle & Hst) Hvs Hh. exists v.
  split_and!; [by rewrite Hvs|done..|].
  destruct (buffer (data v)) as [|b [|i]|]; cbn in *; auto.
Qed.

(** [Clear()] destroys every element and keeps the storage. *)
Lemma Clear_spec this v l cap w :
  owns w this l cap -> vecs w !! this = Some v ->
  wp (Clear this) w
    (fun _ w' =>
       owns w' this [] cap /\
       vecs w' = <[this := mkVector (data v) 0]> (vecs w) /\
       (forall b, buffer (data v) <> Ptr b 0 -> heap w' !! b = heap w !! b) /\
       dtors w' = dtors w + length l /\
       undestroyed w' = undestroyed w /\ ops w' = ops w)
    (fun _ => False) False.
Proof.
  intros Ho Hv.
  destruct (owns_inv _ _ _ _ Ho) as (v' & Hv' & Hsz & Hcap & Hle & Hbuf).
  assert (v' = v) as -> by congruence.
  unfold Clear. apply wp_bind. eapply wp_get_vec; [done|].
  unfold GetAddress.
  destruct Hbuf as [(Hb & -> & ->)|(b & Hb & Hblk)]; rewrite Hb, Hsz.
  - cbn. apply wp_bind, wp_ret. eapply wp_set_size; [done|].
    cbn. split_and!; [|done..|lia|done|done].
    eexists. split; [heap_lookup|]. cbn. by rewrite Hb.
  - apply wp_bind.
    eapply (wp_destroy_n _ _ [] l); [exact Hblk|done..|].
    eapply wp_set_size; [done|].
    cbn. split_and!; [|done| |done..].
    + eexists. split; [heap_lookup|]. cbn. rewrite Hb. cbn.
      split_and!; [done..|lia|]. heap_lookup.
      rewrite block_of_nil. f_equal. rewrite <- replicate_add. f_equal. lia.
    + intros b' Hb'. rewrite lookup_insert_ne; [done|congruence].
Qed.

(** [std::uninitialized_copy] from a range of values into raw slots *)
Lemma wp_uninitialized_copy xs bd id dpre dpost w QN QT QU :
  heap w !! bd = Some (dpre ++ replicate (length xs) Raw ++ dpost) ->
  id = length dpre ->
  ((forall j, j < length xs -> faults (ops w + j) = false) ->
   QN tt (mkWorld (<[bd := dpre ++ (Obj <$> xs) ++ dpost]> (heap w))
            (vecs w) (ops w + length xs) (dtors w) (undestroyed w))) ->
  (forall j, j < length xs -> faults (ops w + j) = true ->
     QT (mkWorld (heap w) (vecs w) (ops w + S j) (dtors w + j) (undestroyed w))) ->
  wp (uninitialized_copy faults xs (Ptr bd id)) w QN QT QU.
Proof.
  intros Hd -> HN HT.
  apply (wp_uninitialized_loop _ _
    (fun k w' => k <= length xs /\
       (forall j, j < k -> faults (ops w + j) = false) /\
       w' = mkWorld
         (<[bd := dpre ++ (Obj <$> take k xs) ++
                  replicate (length xs - k) Raw ++ dpost]> (heap w))
         (vecs w) (ops w + k) (dtors w) (undestroyed w))).
  - split; [lia|]. split; [intros; lia|].
    destruct w as [h vs o d u]; cbn in *.
    rewrite Nat.sub_0_r, insert_id, Nat.add_0_r; done.
  - intros j w' Hj (_ & Hnf & ->). cbn in Hj.
    destruct (lookup_lt_is_Some_2 xs j) as [x Hx]; [lia|].
    rewrite Hx, ptr_add_Ptr.
    assert (Hn : length xs - j = S (length xs - S j)) by lia.
    eapply (wp_construct_at _ _ (dpre ++ (Obj <$> take j xs))).
    + cbn. rewrite lookup_insert_eq, Hn, replicate_S.
      by rewrite <- app_assoc.
    + rewrite length_app, length_fmap, length_take. lia.
    + cbn. intros Hf. split; [lia|]. split.
      { intros j' Hj'. destruct (decide (j' = j)) as [->|]; [done|]. apply Hnf. lia. }
      rewrite insert_insert_eq. f_equal; [|lia].
      f_equal. rewrite (take_S_r _ _ _ Hx), fmap_app, <- !app_assoc. done.
    + cbn. intros Hf.
      eapply (wp_destroy_n _ _ dpre (take j xs)).
      * cbn. by rewrite lookup_insert_eq.
      * done.
      * rewrite length_take. lia.
      * cbn. rewrite insert_insert_eq.
        replace (dpre ++ replicate j Raw ++ replicate (length xs - j) Raw ++ dpost)
          with (dpre ++ replicate (length xs) Raw ++ dpost).
        2:{ f_equal. rewrite app_assoc, <- replicate_add. do 2 f_equal. lia. }
        rewrite insert_id by done.
        replace (S (ops w + j)) with (ops w + S j) by lia. apply HT; [lia|done].
  - intros w' (_ & Hnf & ->). cbn.
    rewrite Nat.sub_diag, firstn_all. apply HN, Hnf.
Qed.

Lemma keeps_blocks_insert (w w' : World) b blk :
  heap w !! b = None -> heap w' = <[b := blk]> (heap w) -> keeps_blocks w w'.
Proof.
  intros Hb Hh b' blk' Hb'. rewrite Hh, lookup_insert_ne; [done|congruence].
Qed.

(** Closes a goal [constructed this w w'] on worlds written out *)
Ltac constructed_here :=
  eexists; split; [reflexivity|]; cbn;
  first [done | split; [done|by eexists]].

Lemma faulted_here (w : World) j : faults (ops w + j) = true -> faulted (ops w).
Proof. intros Hf. exists (ops w + j). split; [lia|done]. Qed.

Lemma faulted_mono k k' : k <= k' -> faulted k' -> faulted k.
Proof. intros Hk (j & Hj & Hf). exists j. split; [lia|done]. Qed.

Lemma RawMemory_ctor_0 (w : World) :
  RawMemory_ctor faults 0 w = (Normal (mkRawMemory nullptr 0), w).
Proof. done. Qed.

(** [Vector(size_)] on storage that holds no object: [size_] objects of the
    default value in a block of [size_] slots; if a constructor throws,
    the objects made so far are destroyed, the block is released and there
    is no object. *)
Lemma Vector_size_ctor_spec this n w :
  vecs w !! this = None ->
  fits n ->
  wp (Vector_size_ctor faults this n) w
    (fun _ w' =>
       owns w' this (replicate n default_value) n /\
       keeps_others this w w' /\ keeps_blocks w w' /\
       dtors w' = dtors w /\ undestroyed w' = undestroyed w /\
       constructed this w w')
    (fun w' =>
       faulted (ops w) /\ heap w' = heap w /\ vecs w' = vecs w /\
       undestroyed w' = undestroyed w)
    False.
Proof.
  intros Hnew Hfits. unfold Vector_size_ctor. apply wp_bind.
  destruct (decide (n = 0)) as [->|Hn].
  - unfold wp. rewrite RawMemory_ctor_0. cbn.
    split_and!; [|by intros a Ha; heap_lookup|by intros b blk Hb|done|done|constructed_here].
    eexists. split; [heap_lookup|]. done.
  - apply wp_RawMemory_ctor; [done|fit| |].
    2:{ intros Hf. cbn. split_and!; [|done..]. apply (faulted_here w 0).
        by rewrite Nat.add_0_r. }
    intros Hf b Hb. apply wp_bind, wp_put_vec, wp_try_catch. cbn.
    eapply (wp_uninitialized_value_construct_n _ _ [] []).
    + cbn. rewrite lookup_insert_eq. by rewrite app_nil_r.
    + done.
    + cbn. intros _. rewrite insert_insert_eq, app_nil_r.
      split_and!; [|by intros a Ha; heap_lookup|by eapply keeps_blocks_insert|done|done|constructed_here].
      eexists. split; [heap_lookup|]. cbn.
      rewrite length_replicate. split_and!; [done..|].
      heap_lookup. unfold block_of.
      by rewrite length_replicate, Nat.sub_diag, fmap_replicate, app_nil_r.
    + cbn. intros j Hj Hfj.
      apply wp_bind, wp_del_vec, wp_bind.
      eapply wp_RawMemory_dtor; [done|heap_lookup|].
      apply wp_throw. cbn.
      rewrite !delete_insert_eq, !delete_id by done.
      rewrite live_replicate_Raw.
      split_and!; [|done..|lia].
      apply (faulted_here w (S j)). by rewrite Nat.add_succ_r.
Qed.

(** [Vector(init_list_)]: the values of the list, in a block of as many
    slots. *)
Lemma Vector_init_list_ctor_spec this xs w :
  vecs w !! this = None ->
  fits (length xs) ->
  wp (Vector_init_list_ctor faults this xs) w
    (fun _ w' =>
       owns w' this xs (length xs) /\
       keeps_others this w w' /\ keeps_blocks w w' /\
       dtors w' = dtors w /\ undestroyed w' = undestroyed w /\
       constructed this w w')
    (fun w' =>
       faulted (ops w) /\ heap w' = heap w /\ vecs w' = vecs w /\
       undestroyed w' = undestroyed w)
    False.
Proof.
  intros Hnew Hfits. unfold Vector_init_list_ctor. apply wp_bind.
  destruct (decide (length xs = 0)) as [Hn|Hn].
  - apply nil_length_inv in Hn as ->. unfold wp. rewrite RawMemory_ctor_0. cbn.
    split_and!; [|by intros a Ha; heap_lookup|by intros b blk Hb|done|done|constructed_here].
    eexists. split; [heap_lookup|]. done.
  - apply wp_RawMemory_ctor; [done|fit| |].
    2:{ intros Hf. cbn. split_and!; [|done..]. apply (faulted_here w 0).
        by rewrite Nat.add_0_r. }
    intros Hf b Hb. apply wp_bind, wp_put_vec, wp_try_catch. cbn.
    eapply (wp_uninitialized_copy _ _ _ [] []).
    + cbn. rewrite lookup_insert_eq. by rewrite app_nil_r.
    + done.
    + cbn. intros _. rewrite insert_insert_eq, app_nil_r.
      split_and!; [|by intros a Ha; heap_lookup|by eapply keeps_blocks_insert|done|done|constructed_here].
      eexists. split; [heap_lookup|]. cbn.
      split_and!; [done..|].
      heap_lookup. by rewrite block_of_full.
    + cbn. intros j Hj Hfj.
      apply wp_bind, wp_del_vec, wp_bind.
      eapply wp_RawMemory_dtor; [done|heap_lookup|].
      apply wp_throw. cbn.
      rewrite !delete_insert_eq, !delete_id by done.
      rewrite live_replicate_Raw.
      split_and!; [|done..|lia].
      apply (faulted_here w (S j)). by rewrite Nat.add_succ_r.
Qed.

(** [Vector(other_)]: a copy of the elements in a block of its own, of
    [other_.size] slots; the source is what it was. *)
Lemma Vector_copy_ctor_spec this other l cap w :
  owns w other l cap -> vecs w !! this = None ->
  fits (length l) ->
  wp (Vector_copy_ctor faults this other) w
    (fun _ w' =>
       owns w' this l (length l) /\ owns w' other l cap /\
       separate w' this other /\
       keeps_others this w w' /\ keeps_blocks w w' /\
       dtors w' = dtors w /\ undestroyed w' = undestroyed w /\
       constructed this w w')
    (fun w' =>
       faulted (ops w) /\ heap w' = heap w /\ vecs w' = vecs w /\
       undestroyed w' = undestroyed w)
    False.
Proof.
  intros Ho Hnew Hfits.
  destruct (owns_inv _ _ _ _ Ho) as (o & Hvo & Hsz & Hcap & Hle & Hbuf).
  assert (Hne : other <> this) by congruence.
  unfold Vector_copy_ctor. apply wp_bind. eapply wp_get_vec; [done|].
  apply wp_bind. rewrite Hsz.
  destruct (decide (length l = 0)) as [Hn|Hn].
  - apply nil_length_inv in Hn as ->. unfold wp. rewrite RawMemory_ctor_0. cbn.
    assert (Hot : owns
      (set_vecs (<[this := mkVector (mkRawMemory nullptr 0) 0]> (vecs w)) w)
      other [] cap).
    { eapply owns_frame; [done|heap_lookup|done]. }
    split_and!; [|done| |by intros a Ha; heap_lookup|by intros b blk Hb|done|done|constructed_here].
    + eexists. split; [heap_lookup|]. done.
    + intros va vb ba bb i j. cbn. rewrite lookup_insert_eq.
      intros [= <-]. done.
  - destruct Hbuf as [(_ & -> & _)|(bs & Hbs & Hblk)]; [done|].
    apply wp_RawMemory_ctor; [done|fit| |].
    2:{ intros Hf. cbn. split_and!; [|done..]. apply (faulted_here w 0).
        by rewrite Nat.add_0_r. }
    intros Hf b Hb. apply wp_bind, wp_put_vec, wp_try_catch.
    assert (Hbne : bs <> b) by congruence.
    unfold GetAddress. rewrite Hbs. cbn [buffer].
    eapply (wp_uninitialized_copy_n _ _ (block_of l cap) l _ _ [] []); [done|..].
    + heap_lookup.
    + intros k x Hk. by apply block_of_lookup.
    + cbn. rewrite lookup_insert_eq. by rewrite app_nil_r.
    + done.
    + done.
    + cbn. intros _. rewrite insert_insert_eq, app_nil_r.
      assert (Hkb : keeps_blocks w
        (mkWorld (<[b := Obj <$> l]> (heap w))
           (<[this := mkVector (mkRawMemory (Ptr b 0) (length l)) (length l)]> (vecs w))
           (S (ops w + length l)) (dtors w) (undestroyed w))).
      { by eapply keeps_blocks_insert. }
      split_and!; [| | |by intros a Ha; heap_lookup|done|done|done|constructed_here].
      * eexists. split; [heap_lookup|]. cbn.
        split_and!; [done..|]. heap_lookup. by rewrite block_of_full.
      * eapply owns_frame; [done|heap_lookup|done].
      * intros va vb ba bb i j. cbn.
        rewrite lookup_insert_eq, lookup_insert_ne by done.
        intros [= <-] Hvb. cbn. intros [= <- <-] Hbb.
        assert (vb = o) as -> by congruence. congruence.
    + cbn. intros j Hj Hfj.
      apply wp_bind, wp_del_vec, wp_bind.
      eapply wp_RawMemory_dtor; [done|heap_lookup|].
      apply wp_throw. cbn.
      rewrite !delete_insert_eq, !delete_id by done.
      rewrite live_replicate_Raw.
      split_and!; [|done..|lia].
      apply (faulted_here w (S j)). by rewrite Nat.add_succ_r.
Qed.

(** [Assign(first_, last_)] for a multi-pass range outside the vector *)
Lemma Assign_spec this l cap xs w :
  owns w this l cap -> (cap < length xs -> fits (length xs)) ->
  wp (Assign faults this (multi_pass xs)) w
    (fun _ w' =>
       owns w' this xs (if decide (cap < length xs) then length xs else cap) /\
       keeps_others this w w' /\
       dtors w' = dtors w + length l /\ undestroyed w' = undestroyed w)
    (fun w' =>
       faulted (ops w) /\ owns w' this [] cap /\ keeps_others this w w' /\
       undestroyed w' = undestroyed w)
    False.
Proof.
  intros Ho Hfits. pose proof Ho as (v & Hv & _).
  unfold Assign, multi_pass. cbn [counted copied]. apply wp_bind.
  eapply wp_mono; [by apply (Clear_spec this v l cap w)| |done..].
  intros [] w1 (Ho1 & Hvs1 & _ & Hd1 & Hu1 & Hops1).
  assert (Hv1 : vecs w1 !! this = Some (mkVector (data v) 0)).
  { by rewrite Hvs1, lookup_insert_eq. }
  assert (Hko : forall w', keeps_others this w1 w' -> keeps_others this w w').
  { intros w' Hk a Ha. rewrite (Hk a Ha), Hvs1. by rewrite lookup_insert_ne. }
  destruct (owns_inv _ _ _ _ Ho1) as (v1 & Hv1' & _ & Hcap & _ & Hbuf).
  assert (v1 = mkVector (data v) 0) as -> by congruence.
  cbn [data] in Hcap, Hbuf.
  apply wp_bind. eapply wp_get_vec; [done|]. cbn [data size].
  rewrite Hcap. apply wp_bind.
  destruct (decide (cap < length xs)) as [Hlt|Hge].
  - apply wp_with_RawMemory, wp_RawMemory_ctor; [lia|fit| |].
    2:{ intros Hf. cbn. rewrite <- Hops1. split_and!; [| | |lia].
        + apply (faulted_here w1 0). by rewrite Nat.add_0_r.
        + eapply owns_frame; [done..|]. done.
        + apply Hko. by intros a Ha. }
    intros Hf b Hb. apply wp_bind. cbn [GetAddress buffer].
    eapply (wp_uninitialized_copy _ _ _ [] []).
    + cbn. rewrite lookup_insert_eq. by rewrite app_nil_r.
    + done.
    + cbn. intros _. rewrite insert_insert_eq, app_nil_r.
      eapply wp_bind, wp_set_data; [done|]. apply wp_ret. cbn.
      destruct Hbuf as [(Hb0 & _ & ->)|(b0 & Hb0 & Hblk)].
      * apply wp_RawMemory_dtor_null; [by rewrite Hb0|].
        eapply wp_set_size; [heap_lookup|]. cbn.
        rewrite insert_insert_eq.
        split_and!; [| |lia..].
        -- eexists. split; [heap_lookup|]. cbn. split_and!; [done..|].
           heap_lookup. by rewrite block_of_full.
        -- apply Hko. intros a Ha. cbn. by rewrite lookup_insert_ne.
      * assert (b0 <> b) by congruence.
        eapply wp_RawMemory_dtor; [by rewrite Hb0|heap_lookup|].
        eapply wp_set_size; [heap_lookup|]. cbn.
        rewrite insert_insert_eq, block_of_nil, live_replicate_Raw.
        split_and!; [| |lia..].
        -- eexists. split; [heap_lookup|]. cbn. split_and!; [done..|].
           heap_lookup. by rewrite block_of_full.
        -- apply Hko. intros a Ha. cbn. by rewrite lookup_insert_ne.
    + cbn. intros j Hj Hfj.
      eapply wp_RawMemory_dtor; [done|heap_lookup|].
      cbn. rewrite delete_insert_eq, delete_id by done.
      rewrite live_replicate_Raw.
      split_and!; [| | |lia].
      * apply (faulted_mono _ (ops w1)); [lia|].
        apply (faulted_here w1 (S j)). by rewrite Nat.add_succ_r.
      * eapply owns_frame; [done..|]. done.
      * apply Hko. by intros a Ha.
  - destruct (decide (length xs = 0)) as [Hn|Hn].
    + apply nil_length_inv in Hn as ->.
      unfold uninitialized_copy. cbn. apply wp_ret.
      eapply wp_set_size; [done|]. cbn.
      split_and!; [| |lia..].
      * eapply owns_frame; [done| |done]. cbn.
        by rewrite lookup_insert_eq.
      * apply Hko. intros a Ha. cbn. by rewrite lookup_insert_ne.
    + destruct Hbuf as [(_ & _ & ->)|(b0 & Hb0 & Hblk)]; [lia|].
      rewrite block_of_nil in Hblk.
      unfold GetAddress. rewrite Hb0.
      eapply (wp_uninitialized_copy _ _ _ [] (replicate (cap - length xs) Raw)).
      * rewrite Hblk. cbn. rewrite <- replicate_add. do 2 f_equal. lia.
      * done.
      * cbn. intros _. eapply wp_set_size; [done|]. cbn.
        split_and!; [| |lia..].
        -- eexists. split; [heap_lookup|]. cbn. split_and!; [done|done|lia|].
           rewrite Hb0. heap_lookup.
        -- apply Hko. intros a Ha. cbn. by rewrite lookup_insert_ne.
      * cbn. intros j Hj Hfj. split_and!; [| | |lia].
        -- rewrite <- Hops1. by apply (faulted_here w1 j).
        -- eapply owns_frame; [done..|]. done.
        -- apply Hko. by intros a Ha.
Qed.

Lemma ptr_diff_Ptr_None b j i : j < i -> ptr_diff (Ptr b j) (Ptr b i) = None.
Proof.
  intros Hlt. unfold ptr_diff. rewrite decide_False; [done|]. intros [_ ?]. lia.
Qed.

Lemma wp_is_undefined {A} (m : M A) w :
  wp m w (fun _ _ => False) (fun _ => False) True -> result m w = Undefined.
Proof. unfold wp, result. by destruct (m w) as [[a| |] w']. Qed.

(** [Erase(end())] passes the assertion, which allows [pos_ <= end()], and
    then moves the range [[end() + 1, end())]. *)
Lemma Erase_end_undefined this v l cap w :
  owns w this l cap -> vecs w !! this = Some v -> int_sized (length l) ->
  result (Erase faults this (ptr_add (buffer (data v)) (length l))) w = Undefined.
Proof.
  intros Ho Hv Hint.
  destruct (owns_inv _ _ _ _ Ho) as (v' & Hv' & Hsz & Hcap & Hle & Hbuf).
  assert (v' = v) as -> by congruence.
  apply wp_is_undefined. unfold Erase, begin_, end_.
  apply wp_bind, wp_bind. eapply wp_get_vec; [done|]. apply wp_ret.
  apply wp_bind, wp_bind. eapply wp_get_vec; [done|]. apply wp_ret.
  unfold GetAddress. rewrite Hsz.
  destruct Hbuf as [(Hb & -> & ->)|(b & Hb & Hblk)]; rewrite Hb.
  - cbn. rewrite ptr_diff_null. apply wp_bind, wp_assert; [|done].
    intros _. cbn beta iota zeta. narrow 0 0.
    apply wp_bind. unfold std_move. by cbn.
  - cbn. apply wp_bind, wp_assert.
    2:{ rewrite !ptr_le_Ptr by lia. done. }
    intros _. rewrite ptr_diff_Ptr by lia. rewrite Nat.sub_0_r.
    cbn beta iota zeta. narrow (length l) (length l). cbn.
    apply wp_bind. unfold std_move. by rewrite ptr_diff_Ptr_None by lia.
Qed.

(** [PopBack()] on an empty vector fails its assertion. *)
Lemma PopBack_empty_undefined this cap w :
  owns w this [] cap -> result (PopBack this) w = Undefined.
Proof.
  intros (v & Hv & Hsz & _).
  apply wp_is_undefined. unfold PopBack.
  apply wp_bind. eapply wp_get_vec; [done|]. cbn in Hsz. rewrite Hsz.
  by apply wp_bind, wp_assert.
Qed.

(** [Swap] does not depend on the order of its operands. *)
Lemma Swap_comm a b va vb (w : World) :
  vecs w !! a = Some va -> vecs w !! b = Some vb ->
  Swap a b w = Swap b a w.
Proof.
  intros Ha Hb.
  rewrite (Swap_run a b va vb w Ha Hb), (Swap_run b a vb va w Hb Ha).
  do 2 f_equal. destruct (decide (a = b)) as [->|Hne].
  - assert (va = vb) as -> by congruence. done.
  - by apply insert_insert_ne.
Qed.

(** Two [Swap]s of the same operands give back the world. *)
Lemma Swap_twice a b va vb (w : World) :
  vecs w !! a = Some va -> vecs w !! b = Some vb ->
  (Swap a b ;;; Swap a b) w = (Normal tt, w).
Proof.
  intros Ha Hb. unfold bind.
  rewrite (Swap_run a b va vb w Ha Hb).
  destruct (decide (a = b)) as [->|Hne].
  - assert (va = vb) as -> by congruence.
    rewrite (Swap_run b b vb vb) by heap_lookup. cbn.
    rewrite !insert_insert_eq, insert_id by done. by destruct w.
  - rewrite (Swap_run a b vb va) by heap_lookup. cbn. f_equal.
    destruct w as [h vs o d u]. unfold set_vecs. cbn in *. f_equal.
    apply map_eq. intros i.
    destruct (decide (i = b)) as [->|Hib]; [by rewrite lookup_insert_eq|].
    rewrite lookup_insert_ne by done.
    destruct (decide (i = a)) as [->|Hia]; [by rewrite lookup_insert_eq|].
    by rewrite !lookup_insert_ne by done.
Qed.

(** [ShrinkToFit()] with [size == capacity] returns at once. *)
Lemma ShrinkToFit_full this l w :
  owns w this l (length l) -> ShrinkToFit faults this w = (Normal tt, w).
Proof.
  intros (v & Hv & Hsz & Hcap & _). unfold ShrinkToFit, bind, get_vec.
  rewrite Hv. by rewrite decide_True by congruence.
Qed.

(** [ShrinkToFit()] on an empty vector with storage: [data = RawMemory<T>()]
    gives the member no storage and capacity [0]; the move assignment of
    [RawMemory] does not release the block the member had. *)
Lemma ShrinkToFit_empty this cap w :
  owns w this [] cap -> 0 < cap ->
  ShrinkToFit faults this w =
    (Normal tt,
     set_vecs (<[this := mkVector (mkRawMemory nullptr 0) 0]> (vecs w)) w).
Proof.
  intros (v & Hv & Hsz & Hcap & _) Hpos. cbn in Hsz.
  unfold ShrinkToFit, bind, get_vec. rewrite Hv.
  rewrite decide_False by lia. rewrite decide_True by done.
  cbn. unfold set_data, bind, get_vec. rewrite Hv. cbn. by rewrite Hsz.
Qed.

(** [Emplace] at [end()] of a vector with spare capacity, when the
    construction of the element throws: the handler hands [end()] to
    [operator delete].  For an empty vector this address is the block: it
    is released, the vector keeps its address, and the exception goes on.
    Otherwise the address is inside the block. *)
Lemma Emplace_end_throw_spec this v l x cap w :
  owns w this l cap -> vecs w !! this = Some v -> length l < cap ->
  faults (ops w) = true ->
  wp (Emplace faults this (ptr_add (buffer (data v)) (length l)) x) w
    (fun _ _ => False)
    (fun w' =>
       l = [] /\ exists b, buffer (data v) = Ptr b 0 /\
       w' = mkWorld (delete b (heap w)) (vecs w) (S (ops w)) (dtors w) (undestroyed w))
    (l <> []).
Proof.
  intros (v' & Hv' & Hsz & Hcap & _ & Hst) Hv Hlt Hflt.
  assert (v' = v) as -> by congruence. clear Hv'.
  destruct v as [[q c] sz]; cbn in *. subst c sz.
  Emplace_prelude Hv.
  destruct q as [|b [|i]|]; cbn in Hst; [| |done..].
  { apply block_of_nil_inv in Hst as [_ ->]. lia. }
  pose proof Hst as Hblk.
  rewrite block_of_raw_next in Hst by done.
  cbn. apply wp_bind, wp_assert.
  2:{ rewrite !ptr_le_Ptr by lia. done. }
  intros _. rewrite ptr_diff_Ptr by lia. rewrite Nat.sub_0_r.
  apply wp_bind. eapply wp_get_vec; [done|]. cbn.
  rewrite decide_False by lia.
  rewrite (decide_False (P := Ptr b (length l) <> Ptr b (length l))) by (intros Hne; by apply Hne).
  apply wp_bind, wp_try_catch.
  eapply wp_construct_at; [done| |..].
  { by rewrite length_fmap. }
  - intros Hf. congruence.
  - cbn. intros _. unfold end_.
    apply wp_bind, wp_bind. eapply wp_get_vec; [done|]. apply wp_ret. cbn.
    destruct l as [|y l].
    + apply wp_bind. eapply wp_operator_delete; [done|]. apply wp_throw.
      split; [done|]. exists b. split; [done|]. cbn.
      rewrite block_of_nil, live_replicate_Raw. f_equal. lia.
    + apply wp_bind. by apply wp_operator_delete_interior.
Qed.

(** [PushBack] and [EmplaceBack] on a vector with spare capacity: one
    construction in the first raw slot of the block, which keeps its
    address; a throw of the constructor changes nothing but the clock. *)
Lemma append_spare_spec this v l cap x w :
  owns w this l cap -> vecs w !! this = Some v -> length l < cap ->
  exists b,
    buffer (data v) = Ptr b 0 /\ heap w !! b = Some (block_of l cap) /\
    wp (PushBack faults this x) w
      (fun _ w' =>
         faults (ops w) = false /\
         w' = mkWorld (<[b := block_of (l ++ [x]) cap]> (heap w))
                (<[this := mkVector (data v) (S (length l))]> (vecs w))
                (S (ops w)) (dtors w) (undestroyed w))
      (fun w' => faults (ops w) = true /\ w' = set_ops (S (ops w)) w)
      False /\
    wp (EmplaceBack faults this x) w
      (fun r w' =>
         r = Ptr b (length l) /\ faults (ops w) = false /\
         w' = mkWorld (<[b := block_of (l ++ [x]) cap]> (heap w))
                (<[this := mkVector (data v) (S (length l))]> (vecs w))
                (S (ops w)) (dtors w) (undestroyed w))
      (fun w' => faults (ops w) = true /\ w' = set_ops (S (ops w)) w)
      False.
Proof.
  intros Ho Hv Hlt.
  destruct (owns_inv _ _ _ _ Ho) as (v' & Hv' & Hsz & Hcap & Hle & Hbuf).
  assert (v' = v) as -> by congruence.
  destruct Hbuf as [(_ & _ & ->)|(b & Hb & Hblk)]; [lia|].
  exists b. split_and!; [done..| |].
  - unfold PushBack. apply wp_bind. eapply wp_get_vec; [done|].
    rewrite decide_False by lia. apply wp_bind.
    unfold GetAddress. rewrite Hb, Hsz, ptr_add_Ptr.
    eapply (wp_construct_at _ _ (Obj <$> l)).
    + by rewrite Hblk, block_of_raw_next.
    + by rewrite length_fmap.
    + intros Hf. apply wp_bind. eapply wp_get_vec; [done|].
      eapply wp_set_size; [done|]. cbn. rewrite Hsz.
      by rewrite block_of_snoc.
    + done.
  - unfold EmplaceBack. apply wp_bind. eapply wp_get_vec; [done|].
    rewrite decide_False by lia. apply wp_bind.
    unfold GetAddress. rewrite Hb, Hsz, ptr_add_Ptr.
    eapply (wp_construct_at _ _ (Obj <$> l)).
    + by rewrite Hblk, block_of_raw_next.
    + by rewrite length_fmap.
    + intros Hf. apply wp_bind. eapply wp_get_vec; [done|].
      apply wp_bind. eapply wp_set_size; [done|].
      unfold RawMemory_index. apply wp_bind, wp_assert.
      2:{ intros Hc. apply bool_decide_eq_false in Hc. lia. }
      intros _. apply wp_ret. cbn. rewrite Hsz, Hb.
      by rewrite block_of_snoc.
    + done.
Qed.

(** The object at index [i] of a vector is the one at [begin() + i]. *)
Lemma owns_get_obj w this v l cap i x :
  owns w this l cap -> vecs w !! this = Some v -> l !! i = Some x ->
  get_obj (ptr_add (buffer (data v)) i) w = (Normal x, w).
Proof.
  intros Ho Hv Hi.
  destruct (owns_inv _ _ _ _ Ho) as (v' & Hv' & Hsz & Hcap & Hle & Hbuf).
  assert (v' = v) as -> by congruence.
  destruct Hbuf as [(_ & -> & _)|(b & Hb & Hblk)]; [done|].
  rewrite Hb. unfold get_obj, bind, read_slot. cbn. rewrite Hblk.
  by rewrite (block_of_lookup _ _ _ _ Hi).
Qed.

(** [At(index_)] and [operator[]] below [size()] *)
Lemma At_spec this v l cap i x w :
  owns w this l cap -> vecs w !! this = Some v -> l !! i = Some x ->
  At this i w = (Normal (ptr_add (buffer (data v)) i), w).
Proof.
  intros Ho Hv Hi. pose proof (lookup_lt_Some _ _ _ Hi) as Hlt.
  destruct Ho as (v' & Hv' & Hsz & Hcap & Hle & _).
  assert (v' = v) as -> by congruence.
  unfold At, bind, get_vec, RawMemory_index. rewrite Hv.
  rewrite !bool_decide_eq_true_2 by lia. done.
Qed.

(** [At(index_)] and [operator[]] from [size()] on fail the assertion. *)
Lemma At_out_of_range this l cap i w :
  owns w this l cap -> length l <= i -> result (At this i) w = Undefined.
Proof.
  intros (v & Hv & Hsz & _) Hi.
  unfold result, At, bind, get_vec. rewrite Hv.
  by rewrite bool_decide_eq_false_2 by lia.
Qed.

Lemma Front_spec this v l cap x w :
  owns w this (x :: l) cap -> vecs w !! this = Some v ->
  Front this w = (Normal (buffer (data v)), w) /\
  get_obj (buffer (data v)) w = (Normal x, w).
Proof.
  intros Ho Hv. pose proof (owns_get_obj w this v _ cap 0 x Ho Hv eq_refl) as Hg.
  destruct (owns_inv _ _ _ _ Ho) as (v' & Hv' & Hsz & Hcap & Hle & Hbuf).
  assert (v' = v) as -> by congruence. cbn in Hsz, Hle.
  destruct Hbuf as [(_ & ? & _)|(b & Hb & Hblk)]; [done|].
  rewrite Hb in *. cbn in Hg. split; [|done].
  unfold Front, bind, get_vec, RawMemory_index. rewrite Hv.
  rewrite !bool_decide_eq_true_2 by lia. cbn. by rewrite Hb.
Qed.

Lemma Back_spec this v l cap x w :
  owns w this (l ++ [x]) cap -> vecs w !! this = Some v ->
  Back this w = (Normal (ptr_add (buffer (data v)) (length l)), w) /\
  get_obj (ptr_add (buffer (data v)) (length l)) w = (Normal x, w).
Proof.
  intros Ho Hv.
  assert (Hi : (l ++ [x]) !! length l = Some x) by apply list_lookup_middle, eq_refl.
  pose proof (owns_get_obj w this v _ cap _ x Ho Hv Hi) as Hg.
  destruct Ho as (v' & Hv' & Hsz & Hcap & Hle & _).
  assert (v' = v) as -> by congruence.
  rewrite length_app in Hsz, Hle. cbn in Hsz, Hle. split; [|done].
  unfold Back, bind, get_vec, RawMemory_index. rewrite Hv.
  rewrite !bool_decide_eq_true_2 by lia. cbn.
  by replace (size v - 1) with (length l) by lia.
Qed.

Lemma Front_Back_empty this cap w :
  owns w this [] cap ->
  result (Front this) w = Undefined /\ result (Back this) w = Undefined.
Proof.
  intros (v & Hv & Hsz & _). cbn in Hsz.
  unfold result, Front, Back, bind, get_vec. rewrite Hv, Hsz. done.
Qed.

(** Copy assignment of more elements than the capacity: a copy is built in
    a local vector, swapped in, and the local takes the old elements to its
    destructor.  A throw can only come from building the copy, and leaves
    the heap and both vectors untouched. *)
Lemma copy_assign_realloc_strong a b la ca lb cb w :
  a <> b -> owns w a la ca -> owns w b lb cb -> separate w a b ->
  ca < length lb -> fits (length lb) ->
  wp (copy_assign faults a b) w
    (fun _ w' =>
       owns w' a lb (length lb) /\ owns w' b lb cb /\
       keeps_others a w w' /\
       dtors w' = dtors w + length la /\ undestroyed w' = undestroyed w /\
       released w w' a)
    (fun w' => faulted (ops w) /\ heap w' = heap w /\ vecs w' = vecs w)
    False.
Proof.
  intros Hab (va & Hva & Hsza & Hcapa & Hlea & Hsta) Hob Hsep Hfit Hfits.
  pose proof Hob as (vb & Hvb & Hszb & Hcapb & Hleb & Hstb).
  unfold copy_assign. rewrite decide_True by done.
  apply wp_bind. wp_step. apply wp_bind. wp_step.
  rewrite decide_False by lia.
  specialize (Hsep va vb).
  destruct va as [[pa c] sz]; cbn in *. subst c sz.
  destruct vb as [[pb c] sz]; cbn in *. subst c sz.
  destruct pb as [|bb [|?]|]; cbn in Hstb; [| |done..].
  { apply block_of_nil_inv in Hstb as [-> _]. cbn in Hfit. lia. }
  apply wp_with_Vector. intros a' Ha'.
  assert (Ha'a : a' <> a) by (intros ->; congruence).
  assert (Ha'b : a' <> b) by (intros ->; congruence).
  apply wp_bind. unfold Vector_copy_ctor.
  apply wp_bind. wp_step. cbn.
  apply wp_bind, wp_RawMemory_ctor; [lia|fit| |].
  2:{ intros Hf. split_and!; [by exists (ops w)|done..]. }
  intros Hf bn Hbn. cbn.
  assert (Hbbn : bb <> bn) by (intros ->; congruence).
  apply wp_bind. wp_step. cbn.
  apply wp_try_catch.
  eapply (wp_uninitialized_copy_n _ 0 _ lb _ _ [] []);
    [done|heap_lookup| |heap_lookup; by rewrite app_nil_r|done|done| |].
  { intros k x Hk. by apply block_of_lookup. }
  2:{ cbn. intros j Hj Hfj. apply wp_bind. wp_step. cbn.
      apply wp_bind. eapply wp_RawMemory_dtor; [done|heap_lookup|]. cbn.
      apply wp_throw. cbn.
      rewrite !delete_insert_eq, !delete_id by done.
      split_and!; [|done..].
      eexists. split; [|exact Hfj]. lia. }
  cbn. intros Hnf. rewrite insert_insert_eq, app_nil_r.
  apply wp_finally. unfold Swap.
  apply wp_bind. wp_step. apply wp_bind. wp_step. cbn.
  unfold RawMemory_Swap. cbn.
  apply wp_bind. wp_step. cbn. apply wp_bind. wp_step. cbn.
  apply wp_bind. wp_step. apply wp_bind. wp_step. cbn.
  apply wp_bind. wp_step. cbn. wp_step. cbn.
  unfold Vector_dtor. apply wp_bind. wp_step. cbn.
  assert (Hfin : forall w1 : World,
    vecs w1 !! a =
      Some (mkVector (mkRawMemory (Ptr bn 0) (length lb)) (length lb)) ->
    (forall c, c <> a -> c <> a' -> vecs w1 !! c = vecs w !! c) ->
    heap w1 !! bn = Some (Obj <$> lb) ->
    heap w1 !! bb = Some (block_of lb cb) ->
    dtors w1 = dtors w + length la -> undestroyed w1 = undestroyed w ->
    (forall ba, pa = Ptr ba 0 -> heap w1 !! ba = None) ->
    wp (del_vec a') w1
      (fun _ w' =>
         owns w' a lb (length lb) /\ owns w' b lb cb /\
         keeps_others a w w' /\
         dtors w' = dtors w + length la /\ undestroyed w' = undestroyed w /\
         released w w' a)
      (fun w' => faulted (ops w) /\ heap w' = heap w /\ vecs w' = vecs w)
      False).
  { intros w1 Hvsa Hvs Hn Hb Hd Hu Hrel. wp_step. cbn.
    split_and!; [| | |done|done|].
    4:{ intros va0 ba0 Hva0 Hbuf0. rewrite Hva in Hva0.
        injection Hva0 as <-. cbn in Hbuf0. by apply Hrel. }
    - eexists. split; [heap_lookup|]. cbn. split_and!; [done..|].
      by rewrite block_of_full.
    - eexists. split; [heap_lookup; by rewrite Hvs|]. cbn. done.
    - intros c Hc. cbn. destruct (decide (c = a')) as [->|Hc'].
      + by rewrite lookup_delete_eq.
      + heap_lookup. by apply Hvs. }
  destruct pa as [|ba [|?]|]; cbn in Hsta; [| |done..].
  - apply block_of_nil_inv in Hsta as [-> ->]. cbn.
    apply wp_bind, wp_ret, wp_bind, wp_RawMemory_dtor_null; [done|].
    apply Hfin; [heap_lookup|intros; heap_lookup|heap_lookup..|cbn; lia|done|done].
  - assert (Hban : ba <> bn) by (intros ->; congruence).
    assert (Hbab : ba <> bb) by (by eapply Hsep).
    unfold block_of in Hsta. apply wp_bind.
    eapply (wp_destroy_n _ _ [] la); [heap_lookup|done..|].
    apply wp_bind. eapply wp_RawMemory_dtor; [done|heap_lookup|].
    apply Hfin; [heap_lookup|intros; heap_lookup|heap_lookup..|done| |].
    { cbn. rewrite live_block_of_raw. lia. }
    intros ba0 [= <-]. cbn. by rewrite lookup_delete_eq.
Qed.

Lemma block_of_moved_prefix j l cap :
  moved_prefix j l ++ replicate (cap - length l) Raw =
  block_of ((moved_from <$> take j l) ++ drop j l) cap.
Proof.
  unfold moved_prefix, block_of. rewrite fmap_app. f_equal. f_equal.
  rewrite length_app, length_fmap, length_take, length_drop. lia.
Qed.

(** [Reserve] beyond the capacity, when it throws.  The vector object is
    what it was.  If the allocation threw, or the elements are copied, the
    heap is what it was.  If the elements are moved by a constructor that
    may throw and the move of element [j] threw, the elements before [j]
    are left moved-from in the old block. *)
Lemma Reserve_throw_spec this l cap n w :
  owns w this l cap -> cap < n ->
  fits n ->
  wp (Reserve faults this n) w
    (fun _ _ => True)
    (fun w' =>
       vecs w' = vecs w /\
       (heap w' = heap w /\
        (faults (ops w) = true \/ moves_elements = false) \/
        exists j,
          j < length l /\ is_nothrow_move_constructible = false /\
          is_copy_constructible = false /\
          faults (ops w) = false /\ faults (S (ops w + j)) = true /\
          owns w' this ((moved_from <$> take j l) ++ drop j l) cap))
    False.
Proof.
  intros (v & Hv & Hsz & Hcap & Hle & Hst) Hn Hfits. unfold Reserve.
  apply wp_bind. eapply wp_get_vec; [done|].
  rewrite decide_False by lia.
  apply wp_with_RawMemory, wp_RawMemory_ctor; [lia|fit| |].
  2:{ intros Hf. split; [done|]. left. split; [done|]. by left. }
  intros Hf bn Hbn. cbn.
  destruct v as [[p c] sz]; cbn in *. subst c sz.
  destruct p as [|b [|i]|]; cbn in Hst; [| |done..].
  - apply block_of_nil_inv in Hst as [-> ->]. cbn.
    rewrite transfer_n_0. apply wp_bind, wp_ret, wp_bind, wp_ret.
    unfold RawMemory_Swap. cbn. apply wp_bind.
    eapply wp_set_data; [done|]. apply wp_ret. cbn.
    by apply wp_RawMemory_dtor_null.
  - assert (Hbne : b <> bn) by (intros ->; congruence).
    apply wp_bind. unfold transfer_n.
    destruct moves_elements eqn:Hmv.
    + eapply (wp_uninitialized_move_n _ _ [] _ _ _ _ [] (replicate (n - length l) Raw));
        [done| | | | | | |].
      * cbn. rewrite lookup_insert_ne by done. exact Hst.
      * done.
      * cbn. rewrite lookup_insert_eq. f_equal.
        rewrite <- replicate_add. f_equal. lia.
      * done.
      * done.
      * cbn. apply wp_bind.
        eapply (wp_destroy_n _ _ [] (moved_from <$> l)).
        { cbn. rewrite lookup_insert_ne, lookup_insert_eq by done. done. }
        { done. }
        { by rewrite length_fmap. }
        cbn. unfold RawMemory_Swap. cbn. apply wp_bind.
        eapply wp_set_data; [done|]. apply wp_ret. cbn.
        eapply wp_RawMemory_dtor; [done| |]; [|done].
        cbn. rewrite lookup_insert_eq. done.
      * cbn. intros j Hj Hc Hf'.
        eapply wp_RawMemory_dtor; [done| |].
        { cbn. rewrite lookup_insert_ne, lookup_insert_eq by done. done. }
        cbn. split; [done|]. right. exists j.
        unfold moves_elements in Hmv. rewrite Hc in Hmv. cbn in Hmv.
        apply negb_true_iff in Hmv.
        split_and!; [done..|].
        eexists. split; [exact Hv|]. cbn.
        rewrite length_app, length_fmap, length_take, length_drop.
        split_and!; [lia|done|lia|].
        rewrite lookup_delete_ne, lookup_insert_eq by done.
        by rewrite block_of_moved_prefix.
    + eapply (wp_uninitialized_copy_n _ 0 _ l _ _ [] (replicate (n - length l) Raw));
        [done| | | | | | |].
      * cbn. rewrite lookup_insert_ne by done. exact Hst.
      * intros k x Hk. by apply block_of_lookup.
      * cbn. rewrite lookup_insert_eq. f_equal.
        rewrite <- replicate_add. f_equal. lia.
      * done.
      * done.
      * cbn. intros Hnf. apply wp_bind.
        eapply (wp_destroy_n _ _ [] l).
        { cbn. rewrite lookup_insert_ne, lookup_insert_ne by done. exact Hst. }
        { done. }
        { done. }
        cbn. unfold RawMemory_Swap. cbn. apply wp_bind.
        eapply wp_set_data; [done|]. apply wp_ret. cbn.
        eapply wp_RawMemory_dtor; [done| |]; [|done].
        cbn. rewrite lookup_insert_eq. done.
      * cbn. intros j Hj Hf'.
        eapply wp_RawMemory_dtor; [done| |].
        { cbn. rewrite lookup_insert_eq. done. }
        cbn. split; [done|]. left. split; [|by right].
        by rewrite delete_insert_eq, delete_id.
Qed.

Lemma put_vec_same this v (w : World) :
  vecs w !! this = Some v -> put_vec this v w = (Normal tt, w).
Proof.
  intros Hv. unfold put_vec. rewrite insert_id by done. by destruct w.
Qed.

(** *** Reverse iterators *)

Lemma get_obj_middle b pre v post (w : World) :
  heap w !! b = Some (pre ++ Obj v :: post) ->
  get_obj (Ptr b (length pre)) w = (Normal v, w).
Proof.
  intros Hb. unfold get_obj, bind, read_slot. rewrite Hb.
  by rewrite list_lookup_middle.
Qed.

Lemma reverse_read_block b pre xs post (w : World) :
  heap w !! b = Some (pre ++ (Obj <$> xs) ++ post) ->
  reverse_read (ReverseIterator (Ptr b (length pre + length xs))) (length xs) w
  = (Normal (rev xs), w).
Proof.
  revert post. induction xs as [|y ys IH] using rev_ind; intros post Hb; [done|].
  rewrite fmap_app, <- app_assoc in Hb. cbn in Hb.
  rewrite length_app, rev_unit. cbn [length]. rewrite Nat.add_1_r.
  cbn [reverse_read]. unfold reverse_deref, reverse_next. cbn [base].
  unfold ptr_sub. rewrite decide_True by lia.
  replace (length pre + S (length ys) - 1) with (length (pre ++ (Obj <$> ys)))
    by (rewrite length_app, length_fmap; lia).
  unfold bind at 1.
  rewrite (get_obj_middle b (pre ++ (Obj <$> ys)) y post) by (by rewrite <- app_assoc).
  rewrite length_app, length_fmap. unfold bind. by rewrite (IH _ Hb).
Qed.

Lemma wp_run {A} (m : M A) w a w0 :
  wp m w (fun r w' => r = a /\ w' = w0) (fun _ => False) False ->
  m w = (Normal a, w0).
Proof.
  unfold wp. destruct (m w) as [[r| |] w']; [|done..]. by intros [-> ->].
Qed.

Lemma wp_of_run {A} (m : M A) w a w' QN QT QU :
  m w = (Normal a, w') -> QN a w' -> wp m w QN QT QU.
Proof. intros Hm HQ. unfold wp. by rewrite Hm. Qed.

(** *** Construction followed by destruction *)

Lemma destroy_constructed this l cap w w1 :
  vecs w !! this = None -> constructed this w w1 -> owns w1 this l cap ->
  wp (Vector_dtor this) w1
    (fun _ w' =>
       heap w' = heap w /\ vecs w' = vecs w /\
       dtors w' = dtors w1 + length l /\ undestroyed w' = undestroyed w1)
    (fun _ => False) False.
Proof.
  intros Hnew (v' & Hvs & Hh) Ho.
  assert (Hv' : vecs w1 !! this = Some v') by (by rewrite Hvs, lookup_insert_eq).
  eapply wp_mono; [by apply (Vector_dtor_spec this v' l cap w1)| |done..].
  intros [] w' (Hvs' & Hh' & Hd & Hu & _). split_and!; [| |done..].
  - rewrite Hh'. destruct (buffer (data v')) as [|b i|]; [done| |done].
    destruct Hh as (Hb & blk & ->). by rewrite delete_insert_eq, delete_id.
  - by rewrite Hvs', Hvs, delete_insert_eq, delete_id.
Qed.

(** *** Repeated [PushBack] *)

Lemma tight_append l cap :
  tight (length l) cap -> tight (S (length l)) (capacity_after_append l cap).
Proof.
  unfold tight, capacity_after_append, grown. intros [Hle Hc].
  repeat case_decide; lia.
Qed.

Lemma doubled_append l cap :
  doubled (length l) cap -> doubled (S (length l)) (capacity_after_append l cap).
Proof.
  unfold doubled, capacity_after_append, grown.
  intros [[Hl ->]|(k & -> & Hle & Hlt)]; right.
  - exists 0. repeat case_decide; cbn; lia.
  - repeat case_decide; try lia.
    + exists (S k). rewrite Nat.pow_succ_r'. lia.
    + exists k. lia.
Qed.

Lemma pushes_invariant (I : nat -> nat -> Prop) this xs l cap w :
  (forall l cap, I (length l) cap -> I (S (length l)) (capacity_after_append l cap)) ->
  owns w this l cap -> I (length l) cap ->
  fits (2 * (length l + length xs)) ->
  wp (run_back_ops faults this (Push <$> xs)) w
    (fun _ w' =>
       exists cap', owns w' this (l ++ xs) cap' /\ I (length (l ++ xs)) cap' /\
                    keeps_others this w w' /\ undestroyed w' = undestroyed w)
    (fun _ => faulted 0)
    False.
Proof.
  intros Hstep. revert l cap w.
  induction xs as [|x xs IH]; intros l cap w Ho HI Hfits; cbn.
  - apply wp_ret. exists cap. by rewrite app_nil_r.
  - apply wp_bind.
    eapply wp_mono; [apply (PushBack_spec this l cap x w Ho)| | |done].
    + intros _. eapply fits_le; [exact Hfits|].
      unfold grown. case_decide; cbn; lia.
    + intros [] w1 (Ho1 & Hk1 & Hu1 & _).
      eapply wp_mono; [eapply (IH _ _ w1 Ho1)| |done..].
      * rewrite length_app. cbn. rewrite Nat.add_1_r. by apply Hstep.
      * eapply fits_le; [exact Hfits|]. rewrite length_app. cbn. lia.
      * intros [] w' (cap' & Ho' & HI' & Hk' & Hu').
        exists cap'. rewrite <- app_assoc in Ho', HI'.
        split_and!; [done..| |congruence].
        intros a Ha. by rewrite Hk', Hk1.
    + intros w' (Hf & _). by apply (faulted_mono _ (ops w)); [lia|].
Qed.

Lemma wp_conj {A} (m : M A) w (QN QN' : A -> World -> Prop)
  (QT QT' : World -> Prop) (QU QU' : Prop) :
  wp m w QN QT QU -> wp m w QN' QT' QU' ->
  wp m w (fun a w' => QN a w' /\ QN' a w') (fun w' => QT w' /\ QT' w') (QU /\ QU').
Proof. unfold wp. by destruct (m w) as [[a| |] w']. Qed.

(** [Resize] to at least the size, when it throws, for an element type
    that is copied on reallocation or whose move constructor cannot throw:
    the elements are what they were; the capacity may have grown. *)
Lemma Resize_throw_spec this l cap n w :
  owns w this l cap -> length l <= n ->
  is_nothrow_move_constructible = true \/ is_copy_constructible = true ->
  (cap < n -> fits (Nat.max (cap * 2) n)) ->
  wp (Resize faults this n) w
    (fun _ _ => True)
    (fun w' =>
       exists cap',
         owns w' this l cap' /\
         (cap' = cap \/ cap' = capacity_after_resize cap n) /\
         keeps_others this w w')
    False.
Proof.
  intros Ho Hn Hty Hfits. pose proof Ho as (v & Hv & Hsz & Hcap & Hle & Hst).
  unfold Resize, capacity_after_resize.
  apply wp_bind. eapply wp_get_vec; [done|].
  rewrite decide_False by lia. rewrite Hcap.
  assert (Hcont : forall w1 cap1,
    owns w1 this l cap1 -> n <= cap1 -> keeps_others this w w1 ->
    wp (v0 <- get_vec this ;;
        uninitialized_value_construct_n faults
          (ptr_add (GetAddress (data v0)) (size v0)) (n - size v0)) w1
      (fun _ w2 =>
         wp (set_size this n) w2 (fun _ _ => True)
           (fun w' => owns w' this l cap1 /\ keeps_others this w w') False)
      (fun w' => owns w' this l cap1 /\ keeps_others this w w') False).
  { clear v Hv Hsz Hcap Hle Hst.
    intros w1 cap1 Ho1 Hn1 Hfr.
    pose proof Ho1 as (v & Hv & Hsz & Hcap & Hle & Hst).
    destruct (block_of_grow l n cap1) as [Hblk Hblk']; [lia..|].
    apply wp_bind. eapply wp_get_vec; [done|].
    destruct v as [[p c] sz]; cbn in *. subst c sz.
    destruct p as [|b [|i]|]; cbn in Hst; [| |done..].
    - apply block_of_nil_inv in Hst as [-> ->]. cbn in *.
      assert (n = 0) as -> by lia. cbn.
      apply wp_ret. by eapply wp_set_size.
    - rewrite Hblk in Hst.
      eapply (wp_uninitialized_value_construct_n _ _ (Obj <$> l)); [done|..].
      { by simpl_length. }
      + intros Hnf. by eapply wp_set_size.
      + intros j Hj Hf. split.
        * eapply owns_frame; [exact Ho1|done|done].
        * done. }
  case_decide as Hgrow.
  - apply wp_bind, wp_bind.
    eapply wp_mono;
      [apply (wp_conj _ _ _ _ _ _ _ _
                (Reserve_spec this l cap (Nat.max (cap * 2) n) w Ho ltac:(lia)
                   (Hfits Hgrow))
                (Reserve_throw_spec this l cap (Nat.max (cap * 2) n) w Ho ltac:(lia)
                   (Hfits Hgrow)))
      | | |by intros [? _]].
    + intros [] w1 ((Ho1 & Hfr & _) & _).
      eapply wp_mono; [apply (Hcont w1 _ Ho1); [lia|done]| | |done].
      * intros [] w2 Hw2. eapply wp_mono; [exact Hw2|done| |done].
        intros w' [? ?]. eexists. split_and!; [done|by right|done].
      * intros w' [? ?]. eexists. split_and!; [done|by right|done].
    + intros w' (_ & Hvs & Hc). exists cap.
      assert (Hk : keeps_others this w w') by (intros a Ha; by rewrite Hvs).
      split_and!; [|by left|done].
      destruct Hc as [[Hh _]|(j & _ & Hnt & Hcc & _)].
      * eapply (owns_same_heap w); [done..|by rewrite Hvs].
      * destruct Hty; congruence.
  - apply wp_bind, wp_bind, wp_ret.
    eapply wp_mono; [apply (Hcont w cap Ho); [lia|done]| | |done].
    + intros [] w2 Hw2. eapply wp_mono; [exact Hw2|done| |done].
      intros w' [? ?]. eexists. split_and!; [done|by left|done].
    + intros w' [? ?]. eexists. split_and!; [done|by left|done].
Qed.

(** *** Requests beyond the range of [size_t] *)

(** The first transfer into a block without room for an object is
    undefined. *)
Lemma transfer_n_no_room bs bd x blk n (w : World) :
  bs <> bd -> heap w !! bs = Some (Obj x :: blk) -> heap w !! bd = Some [] ->
  transfer_n faults (Ptr bs 0) (S n) (Ptr bd 0) w = (Undefined, w).
Proof.
  intros Hne Hs Hd. unfold transfer_n.
  destruct moves_elements.
  - unfold uninitialized_move_n. cbn [uninitialized_loop].
    unfold bind, try_catch, move_construct_at, bind, get_obj, bind, read_slot.
    cbn. rewrite Hs. cbn. by rewrite Hd.
  - unfold uninitialized_copy_n. cbn [uninitialized_loop].
    unfold bind, try_catch, copy_construct_at, bind, get_obj, bind,
      construct_at, bind, read_slot.
    cbn. rewrite Hs. cbn. by rewrite Hd.
Qed.

(** [Reserve(n)] for [n] beyond the capacity whose product
    [n * sizeof(T)] wraps in [size_t] to less than the size of an object:
    [operator new] gives a block without room for any, and the transfer of
    the first element into it is undefined. *)
Lemma Reserve_wrap_undefined this l cap n w :
  owns w this l cap -> cap < n -> l <> [] ->
  room (size_t_mul (N.of_nat n) (N.pos sizeof_T)) = 0 ->
  faults (ops w) = false ->
  result (Reserve faults this n) w = Undefined.
Proof.
  intros (v & Hv & Hsz & Hcap & Hle & Hst) Hn Hl Hroom Hf.
  destruct l as [|x l]; [done|].
  destruct v as [[p c] sz]; cbn in Hsz, Hcap, Hst. subst c sz.
  destruct p as [|b [|i]|]; cbn in Hst; [| |done..].
  { by apply block_of_nil_inv in Hst as [? _]. }
  apply wp_is_undefined. unfold Reserve.
  apply wp_bind. eapply wp_get_vec; [done|]. cbn [data capacity size].
  rewrite decide_False by lia.
  unfold with_RawMemory, RawMemory_ctor, Allocate.
  rewrite decide_True by lia.
  apply wp_bind, wp_bind, wp_operator_new; [|congruence].
  intros _ bn Hbn. rewrite Hroom. apply wp_ret.
  assert (Hne : b <> bn) by (intros ->; congruence).
  assert (Hs : heap w !! b =
                 Some (Obj x :: (Obj <$> l) ++
                       replicate (cap - length (x :: l)) Raw)) by exact Hst.
  unfold wp, bind at 1. cbn [GetAddress buffer length].
  erewrite (transfer_n_no_room b bn x); [done|done|..].
  - cbn. rewrite lookup_insert_ne by done. exact Hs.
  - cbn. by rewrite lookup_insert_eq.
Qed.

Lemma bind_undefined {A B} (m : M A) (k : A -> M B) w :
  result m w = Undefined -> result (bind m k) w = Undefined.
Proof. unfold result, bind. by destruct (m w) as [[a| |] w']. Qed.

(** [Resize(n)] beyond the capacity reserves [max(2 * capacity(), n)]
    slots: when the bytes of that many objects wrap to less than one
    object, the transfer into the new block is undefined. *)
Lemma Resize_wrap_undefined this l cap n w :
  owns w this l cap -> cap < n -> l <> [] ->
  room (size_t_mul (N.of_nat (Nat.max (cap * 2) n)) (N.pos sizeof_T)) = 0 ->
  faults (ops w) = false ->
  result (Resize faults this n) w = Undefined.
Proof.
  intros Ho Hn Hl Hroom Hf. pose proof Ho as (v & Hv & Hsz & Hcap & Hle & _).
  pose proof (Reserve_wrap_undefined this l cap (Nat.max (cap * 2) n) w Ho
                ltac:(lia) Hl Hroom Hf) as Hr.
  unfold result, Resize, bind at 1, get_vec. rewrite Hv. cbn beta iota.
  rewrite decide_False by lia. rewrite decide_True by lia.
  rewrite Hcap. cbn zeta.
  apply (bind_undefined _ _ w), (bind_undefined _ _ w). exact Hr.
Qed.

(** *** Positions beyond the range of [int] *)

(** [Emplace] at [end()] of a full vector of [INT_MAX + 1] elements: the
    difference [pos_ - begin()] narrows to [INT_MIN], and the new element
    is constructed at an address before the new block. *)
Lemma Emplace_position_wraps this v l x w :
  owns w this l (length l) -> vecs w !! this = Some v ->
  Z.of_nat (length l) = int_modulus -> fits (grown (length l)) ->
  faults (ops w) = false ->
  result (Emplace faults this (ptr_add (buffer (data v)) (length l)) x) w
  = Undefined.
Proof.
  intros (v' & Hv' & Hsz & Hcap & _ & Hst) Hv Hlen Hfits Hf.
  assert (v' = v) as -> by congruence. clear Hv'.
  pose proof (grown_gt (length l)) as Hg.
  destruct v as [[q c] sz]; cbn in Hsz, Hcap, Hst. subst c sz.
  destruct q as [|b [|i]|]; cbn in Hst; [| |done..].
  { apply block_of_nil_inv in Hst as [-> _]. cbn in Hlen.
    unfold int_modulus in Hlen. lia. }
  apply wp_is_undefined.
  Emplace_prelude Hv. cbn. apply wp_bind, wp_assert.
  2:{ rewrite !ptr_le_Ptr by lia. done. }
  intros _. rewrite ptr_diff_Ptr by lia. rewrite Nat.sub_0_r.
  cbn beta iota zeta. rewrite Hlen.
  replace (to_int int_modulus) with (- int_modulus)%Z by (by vm_compute).
  apply wp_bind. eapply wp_get_vec; [done|]. cbn [data capacity size].
  rewrite decide_True by lia.
  apply wp_bind, wp_with_RawMemory, wp_RawMemory_ctor; [lia|done| |congruence].
  intros _ bn Hbn. cbn [GetAddress buffer].
  unfold ptr_add_int. rewrite decide_False by (unfold int_modulus; lia).
  unfold ptr_sub. rewrite decide_False by (unfold int_modulus; lia).
  apply wp_bind. by unfold wp, construct_at, bind, read_slot.
Qed.

(** The requests of the growth paths are in the range of [size_t] for
    every vector whose elements the implementation can hold. *)
Lemma object_sized_fits_grown n :
  object_sized 1 -> object_sized n -> fits (grown n).
Proof.
  unfold object_sized, fits, grown, ptrdiff_max, size_t_modulus.
  intros H1 Hn. case_decide; [lia|].
  rewrite Nat2N.inj_mul, <- N.mul_assoc, (N.mul_comm (N.of_nat 2)), N.mul_assoc.
  change (N.of_nat 2) with 2%N. lia.
Qed.

Lemma object_sized_fits n : object_sized n -> fits n.
Proof. unfold object_sized, fits, ptrdiff_max, size_t_modulus. lia. Qed.

(** ** Constructors, destructor and the other methods *)

Lemma returns_unit (m : M unit) w (QN : unit -> World -> Prop) (QT : World -> Prop) :
  (forall j, faults j = false) ->
  wp m w QN QT False ->
  (forall w', QT w' -> exists k, faulted k) ->
  result m w = Normal tt.
Proof.
  intros Hnf Hwp Hk. apply wp_elim in Hwp.
  destruct (result m w) as [[]| |]; [done| |done].
  destruct (Hk _ Hwp) as [k Hf]. by apply not_faulted in Hf.
Qed.

(** X1.  [Vector(size_)], on storage that holds no object, makes a vector
    of [size_] objects of the default value with capacity [size_], and
    touches no other object and no other block.  If the allocation or a
    constructor throws, the objects constructed so far are destroyed, the
    block is released, and heap and objects are what they were.  It
    returns when nothing throws.  The bytes of [size_] objects are in the
    range of [size_t]. *)
Theorem Vector_size_ctor_builds this n w :
  vecs w !! this = None -> fits n ->
  wp (Vector_size_ctor faults this n) w
    (fun _ w' =>
       owns w' this (replicate n default_value) n /\
       Size this w' = (Normal n, w') /\ Capacity this w' = (Normal n, w') /\
       keeps_others this w w' /\ keeps_blocks w w' /\
       dtors w' = dtors w /\ undestroyed w' = undestroyed w)
    (fun w' =>
       faulted (ops w) /\ heap w' = heap w /\ vecs w' = vecs w /\
       undestroyed w' = undestroyed w)
    False /\
  ((forall k, faults k = false) ->
   result (Vector_size_ctor faults this n) w = Normal tt).
Proof.
  intros Hnew Hfits.
  pose proof (Vector_size_ctor_spec this n w Hnew Hfits) as Hs. split.
  - eapply wp_mono; [exact Hs| |done..].
    intros [] w' (Ho & Hk & Hb & Hd & Hu & _).
    destruct (owns_queries _ _ _ _ Ho) as (Hsz & Hc & _).
    rewrite length_replicate in Hsz. done.
  - intros Hnf. eapply returns_unit; [done|exact Hs|].
    intros w' (Hf & _). by exists (ops w).
Qed.

(** X2.  [Vector(other_)] makes a vector with the elements of the source
    in a block of its own, with capacity [other_.size], whatever the
    capacity of the source; the source and every other object and block
    are what they were.  If the allocation or a copy throws, heap and
    objects are what they were.  The bytes of the elements are in the
    range of [size_t]. *)
Theorem Vector_copy_ctor_copies this other l cap w :
  owns w other l cap -> vecs w !! this = None -> fits (length l) ->
  wp (Vector_copy_ctor faults this other) w
    (fun _ w' =>
       owns w' this l (length l) /\ owns w' other l cap /\
       separate w' this other /\
       elements this w' = (Normal l, w') /\
       keeps_others this w w' /\ keeps_blocks w w' /\
       dtors w' = dtors w /\ undestroyed w' = undestroyed w)
    (fun w' =>
       faulted (ops w) /\ heap w' = heap w /\ vecs w' = vecs w /\
       undestroyed w' = undestroyed w)
    False /\
  ((forall k, faults k = false) ->
   result (Vector_copy_ctor faults this other) w = Normal tt).
Proof.
  intros Ho Hnew Hfits.
  pose proof (Vector_copy_ctor_spec this other l cap w Ho Hnew Hfits) as Hs. split.
  - eapply wp_mono; [exact Hs| |done..].
    intros [] w' (Ho1 & Ho2 & Hsep & Hk & Hb & Hd & Hu & _).
    destruct (owns_queries _ _ _ _ Ho1) as (_ & _ & He). done.
  - intros Hnf. eapply returns_unit; [done|exact Hs|].
    intros w' (Hf & _). by exists (ops w).
Qed.

(** X3.  [Vector(init_list_)] makes a vector of the values of the list, in
    order, with capacity the length of the list; if the allocation or a
    copy throws, heap and objects are what they were.  The bytes of the
    list are in the range of [size_t]. *)
Theorem Vector_init_list_ctor_holds_list this xs w :
  vecs w !! this = None -> fits (length xs) ->
  wp (Vector_init_list_ctor faults this xs) w
    (fun _ w' =>
       owns w' this xs (length xs) /\
       elements this w' = (Normal xs, w') /\
       keeps_others this w w' /\ keeps_blocks w w' /\
       dtors w' = dtors w /\ undestroyed w' = undestroyed w)
    (fun w' =>
       faulted (ops w) /\ heap w' = heap w /\ vecs w' = vecs w /\
       undestroyed w' = undestroyed w)
    False /\
  ((forall k, faults k = false) ->
   result (Vector_init_list_ctor faults this xs) w = Normal tt).
Proof.
  intros Hnew Hfits.
  pose proof (Vector_init_list_ctor_spec this xs w Hnew Hfits) as Hs. split.
  - eapply wp_mono; [exact Hs| |done..].
    intros [] w' (Ho & Hk & Hb & Hd & Hu & _).
    destruct (owns_queries _ _ _ _ Ho) as (_ & _ & He). done.
  - intros Hnf. eapply returns_unit; [done|exact Hs|].
    intros w' (Hf & _). by exists (ops w).
Qed.

(** X4.  [~Vector()] always returns: it runs the destructor of each
    element, releases the block of the vector, if it has one, with no
    object left in it, and ends the object; it takes no tick of the
    clock. *)
Theorem Vector_dtor_releases_everything this v l cap w :
  owns w this l cap -> vecs w !! this = Some v ->
  exists w',
    Vector_dtor this w = (Normal tt, w') /\
    vecs w' = delete this (vecs w) /\
    heap w' = match buffer (data v) with
              | Ptr b _ => delete b (heap w)
              | _ => heap w
              end /\
    dtors w' = dtors w + length l /\
    undestroyed w' = undestroyed w /\ ops w' = ops w.
Proof.
  intros Ho Hv.
  destruct (wp_total _ _ _ (Vector_dtor_spec this v l cap w Ho Hv))
    as ([] & w' & Hrun & Hpost).
  by exists w'.
Qed.

(** X5.  A vector made by any of the three constructors and then
    destroyed leaves the heap and the objects as they were, whether the
    constructor returned or threw; when it returned, one destructor ran
    for each element, and no object lost its storage undestroyed.  The
    bytes of the elements of each vector are in the range of [size_t]. *)
Theorem construct_then_destroy_leaks_nothing this other n xs l cap w :
  vecs w !! this = None -> owns w other l cap ->
  fits n -> fits (length xs) -> fits (length l) ->
  wp (Vector_size_ctor faults this n ;;; Vector_dtor this) w
    (fun _ w' =>
       heap w' = heap w /\ vecs w' = vecs w /\
       dtors w' = dtors w + n /\ undestroyed w' = undestroyed w)
    (fun w' => heap w' = heap w /\ vecs w' = vecs w /\
               undestroyed w' = undestroyed w)
    False /\
  wp (Vector_init_list_ctor faults this xs ;;; Vector_dtor this) w
    (fun _ w' =>
       heap w' = heap w /\ vecs w' = vecs w /\
       dtors w' = dtors w + length xs /\ undestroyed w' = undestroyed w)
    (fun w' => heap w' = heap w /\ vecs w' = vecs w /\
               undestroyed w' = undestroyed w)
    False /\
  wp (Vector_copy_ctor faults this other ;;; Vector_dtor this) w
    (fun _ w' =>
       heap w' = heap w /\ vecs w' = vecs w /\
       dtors w' = dtors w + length l /\ undestroyed w' = undestroyed w)
    (fun w' => heap w' = heap w /\ vecs w' = vecs w /\
               undestroyed w' = undestroyed w)
    False.
Proof.
  intros Hnew Ho Hfn Hfxs Hfl. split_and!; apply wp_bind.
  - eapply wp_mono; [by apply Vector_size_ctor_spec| |by intros w' (_ & ? & ? & ?)|done].
    intros [] w1 (Ho1 & _ & _ & Hd & Hu & Hc).
    eapply wp_mono; [by eapply destroy_constructed| |done..].
    intros [] w' (Hh & Hvs & Hd' & Hu'). rewrite length_replicate in Hd'.
    split_and!; [done..|lia|congruence].
  - eapply wp_mono;
      [by apply Vector_init_list_ctor_spec| |by intros w' (_ & ? & ? & ?)|done].
    intros [] w1 (Ho1 & _ & _ & Hd & Hu & Hc).
    eapply wp_mono; [by eapply destroy_constructed| |done..].
    intros [] w' (Hh & Hvs & Hd' & Hu').
    split_and!; [done..|lia|congruence].
  - eapply wp_mono;
      [by eapply Vector_copy_ctor_spec| |by intros w' (_ & ? & ? & ?)|done].
    intros [] w1 (Ho1 & _ & _ & _ & _ & Hd & Hu & Hc).
    eapply wp_mono; [by eapply destroy_constructed| |done..].
    intros [] w' (Hh & Hvs & Hd' & Hu').
    split_and!; [done..|lia|congruence].
Qed.

(** X6.  [Clear()] always returns: it runs the destructor of each element
    and leaves an empty vector with the same capacity and storage; it
    takes no tick of the clock. *)
Theorem Clear_keeps_capacity this l cap w :
  owns w this l cap ->
  exists w',
    Clear this w = (Normal tt, w') /\
    owns w' this [] cap /\
    IsEmpty this w' = (Normal true, w') /\
    keeps_others this w w' /\
    dtors w' = dtors w + length l /\
    undestroyed w' = undestroyed w /\ ops w' = ops w.
Proof.
  intros Ho. pose proof Ho as (v & Hv & _).
  destruct (wp_total _ _ _ (Clear_spec this v l cap w Ho Hv))
    as ([] & w' & Hrun & Ho' & Hvs & _ & Hd & Hu & Hops).
  exists w'. split_and!; [done|done| | |done|done|done].
  - unfold IsEmpty, bind, get_vec. by rewrite Hvs, lookup_insert_eq.
  - intros a Ha. by rewrite Hvs, lookup_insert_ne.
Qed.

(** X7.  [Assign] of a multi-pass range outside the vector: when it
    returns, the vector holds the values of the range, in a new block of
    exactly as many slots if they did not fit (their bytes being in the
    range of [size_t]), and in its old block otherwise; the old elements
    were destroyed.  When it throws, the vector is empty, with the
    capacity it had: the old elements are lost.  [Assign] of an
    initializer list is [Assign] of its range.  For any range, also a
    single-pass one, the size [Assign] sets is the number of elements its
    first traversal counted, whatever the second traversal finds. *)
Theorem Assign_replaces_elements this l cap xs w :
  owns w this l cap -> (cap < length xs -> fits (length xs)) ->
  wp (Assign faults this (multi_pass xs)) w
    (fun _ w' =>
       owns w' this xs (Nat.max cap (length xs)) /\
       elements this w' = (Normal xs, w') /\
       keeps_others this w w' /\
       dtors w' = dtors w + length l /\ undestroyed w' = undestroyed w)
    (fun w' =>
       faulted (ops w) /\ owns w' this [] cap /\ keeps_others this w w')
    False /\
  Assign_init_list faults this xs = Assign faults this (multi_pass xs) /\
  ((forall k, faults k = false) ->
   result (Assign faults this (multi_pass xs)) w = Normal tt) /\
  (forall r,
     wp (Assign faults this r) w
       (fun _ w' => Size this w' = (Normal (length (counted r)), w'))
       (fun _ => True) True).
Proof.
  intros Ho Hfits. pose proof (Assign_spec this l cap xs w Ho Hfits) as Hs.
  split_and!; [|done| |].
  - eapply wp_mono; [exact Hs| |by intros w' (? & ? & ? & _)|done].
    intros [] w' (Ho' & Hk & Hd & Hu).
    assert (Hcap : (if decide (cap < length xs) then length xs else cap)
                   = Nat.max cap (length xs)) by (case_decide; lia).
    rewrite Hcap in Ho'.
    destruct (owns_queries _ _ _ _ Ho') as (_ & _ & He). done.
  - intros Hnf. eapply returns_unit; [done|exact Hs|].
    intros w' (Hf & _). by exists (ops w).
  - intros r.
    assert (Hany : forall A (m : M A) w0 (QN : A -> World -> Prop),
              (forall a w1, QN a w1) ->
              wp m w0 QN (fun _ => True) True).
    { intros A m w0 QN HQ. unfold wp. by destruct (m w0) as [[a| |] w1]. }
    unfold Assign. apply wp_bind, Hany. intros _ w1.
    apply wp_bind, Hany. intros v w2. apply wp_bind, Hany. intros _ w3.
    unfold wp, set_size, Size, bind, get_vec, put_vec, ret. cbn.
    destruct (vecs w3 !! this); cbn; [|done].
    by rewrite lookup_insert_eq.
Qed.

(** X8.  [PopBack()] on a vector that is not empty always returns: it
    runs the destructor of the last element and keeps the others, the
    capacity and the storage.  On an empty vector its assertion fails. *)
Theorem PopBack_removes_last this l cap w :
  owns w this l cap ->
  (l = [] -> result (PopBack this) w = Undefined) /\
  (forall l' x, l = l' ++ [x] ->
     exists w',
       PopBack this w = (Normal tt, w') /\
       owns w' this l' cap /\
       keeps_others this w w' /\
       dtors w' = S (dtors w) /\ undestroyed w' = undestroyed w /\
       ops w' = ops w).
Proof.
  intros Ho. split.
  - intros ->. by eapply PopBack_empty_undefined.
  - intros l' x ->.
    destruct (wp_total _ _ _ (PopBack_spec this l' x cap w Ho))
      as ([] & w' & Hrun & Hpost).
    by exists w'.
Qed.

(** X9.  [Erase] at a position before [end()] of a vector whose size is
    in the range of [int], in which the position is kept: when it returns, the
    element at the position is gone, the others keep their order, the
    capacity and the storage are what they were, one destructor ran, and
    the result is the position.  It throws only when a move assignment
    does, the size is then what it was, and it returns when nothing
    throws. *)
Theorem Erase_removes_one this v l cap p w :
  owns w this l cap -> vecs w !! this = Some v -> p < length l ->
  int_sized (length l) ->
  wp (Erase faults this (ptr_add (buffer (data v)) p)) w
    (fun r w' =>
       owns w' this (take p l ++ drop (S p) l) cap /\
       r = ptr_add (buffer (data v)) p /\
       vecs w' = <[this := mkVector (data v) (length l - 1)]> (vecs w) /\
       dtors w' = S (dtors w) /\ undestroyed w' = undestroyed w)
    (fun w' => faulted (ops w) /\ vecs w' = vecs w)
    False /\
  ((forall k, faults k = false) ->
   result (Erase faults this (ptr_add (buffer (data v)) p)) w
   = Normal (ptr_add (buffer (data v)) p)).
Proof.
  intros Ho Hv Hp Hint.
  pose proof (Erase_spec this v l cap p w Ho Hv Hp Hint) as Hs.
  split.
  - eapply wp_mono; [exact Hs| |done..]. by intros r w' (? & ? & ? & ? & ?).
  - intros Hnf. apply wp_elim in Hs.
    destruct (result (Erase faults this (ptr_add (buffer (data v)) p)) w)
      as [r| |]; [|by destruct Hs as [Hf%not_faulted _]|done].
    by destruct Hs as (_ & _ & -> & _).
Qed.

(** X10.  [Erase(end())] is undefined for every vector whose size is in
    the range of [int], in which the position is kept: the assertion
    allows [pos_ <= end()], and the elements after the position are then
    the range from [end() + 1] to [end()]. *)
Theorem Erase_at_end_is_undefined this l cap w :
  owns w this l cap -> int_sized (length l) ->
  exists e,
    end_ this w = (Normal e, w) /\
    result (Erase faults this e) w = Undefined.
Proof.
  intros Ho Hint. pose proof Ho as (v & Hv & Hsz & _).
  exists (ptr_add (buffer (data v)) (length l)). split.
  - unfold end_, bind, get_vec. rewrite Hv. unfold GetAddress. by rewrite Hsz.
  - by eapply Erase_end_undefined.
Qed.

(** X11.  [Swap] twice with the same operands gives back the world it
    started from; [a.Swap(b)] and [b.Swap(a)] do the same; and
    [a.Swap(a)] changes nothing. *)
Theorem Swap_is_an_involution a b la ca lb cb w :
  owns w a la ca -> owns w b lb cb ->
  (Swap a b ;;; Swap a b) w = (Normal tt, w) /\
  Swap a b w = Swap b a w /\
  Swap a a w = (Normal tt, w).
Proof.
  intros (va & Hva & _) (vb & Hvb & _). split_and!.
  - by eapply Swap_twice.
  - by eapply Swap_comm.
  - rewrite (Swap_run a a va va w Hva Hva).
    rewrite insert_insert_eq, insert_id by done. by destruct w.
Qed.

(** X12.  [ShrinkToFit()], when it returns, leaves the elements as they
    were in a vector whose capacity is its size; with [size == capacity]
    it changes nothing, and for an empty vector it allocates nothing.  It
    returns when nothing throws.  When it allocates, the bytes of the
    elements are in the range of [size_t]. *)
Theorem ShrinkToFit_capacity_is_size this l cap w :
  owns w this l cap -> (length l < cap -> fits (length l)) ->
  wp (ShrinkToFit faults this) w
    (fun _ w' =>
       owns w' this l (length l) /\
       (length l = cap -> w' = w) /\
       (l = [] -> ops w' = ops w /\ heap w' = heap w))
    (fun _ => faulted (ops w))
    False /\
  ((forall k, faults k = false) -> result (ShrinkToFit faults this) w = Normal tt).
Proof.
  intros Ho Hfits.
  assert (Hs : wp (ShrinkToFit faults this) w
    (fun _ w' =>
       owns w' this l (length l) /\
       (length l = cap -> w' = w) /\
       (l = [] -> ops w' = ops w /\ heap w' = heap w))
    (fun _ => faulted (ops w))
    False).
  { pose proof Ho as (v & Hv & Hsz & Hcap & Hle & _).
    destruct (decide (length l = cap)) as [<-|Hne].
    { eapply wp_of_run; [by apply (ShrinkToFit_full this l)|]. done. }
    destruct l as [|x l].
    - eapply wp_of_run; [apply (ShrinkToFit_empty this cap); [done|cbn in *; lia]|].
      split_and!; [|done..].
      eexists. split; [heap_lookup|]. done.
    - eapply wp_mono;
        [apply (ShrinkToFit_spec this (x :: l) cap w Ho);
           [cbn in *; lia..|apply Hfits; cbn in *; lia]
        | |done..].
      intros [] w' (Ho' & _). done. }
  split; [done|].
  intros Hnf. eapply returns_unit; [done|exact Hs|].
  intros w' Hf. by exists (ops w).
Qed.

(** X13.  [ShrinkToFit()] on an empty vector that has storage gives the
    member [data] a [RawMemory] without storage and does not release the
    block the member had: the block stays in the heap, and is still there
    after the destructor of the vector. *)
Theorem ShrinkToFit_empty_leaks_block this v cap w :
  owns w this [] cap -> vecs w !! this = Some v -> 0 < cap ->
  exists b,
    buffer (data v) = Ptr b 0 /\
    heap w !! b = Some (replicate cap Raw) /\
    result (ShrinkToFit faults this) w = Normal tt /\
    owns (exec (ShrinkToFit faults this) w) this [] 0 /\
    heap (exec (ShrinkToFit faults this) w) = heap w /\
    result (Vector_dtor this) (exec (ShrinkToFit faults this) w) = Normal tt /\
    heap (exec (Vector_dtor this) (exec (ShrinkToFit faults this) w)) = heap w.
Proof.
  intros Ho Hv Hpos.
  destruct (owns_inv _ _ _ _ Ho) as (v' & Hv' & Hsz & Hcap & Hle & Hbuf).
  assert (v' = v) as -> by congruence.
  destruct Hbuf as [(_ & _ & ->)|(b & Hb & Hblk)]; [lia|].
  exists b. rewrite block_of_nil in Hblk.
  unfold result, exec. rewrite (ShrinkToFit_empty this cap w Ho Hpos). cbn.
  assert (Ho' : owns
    (set_vecs (<[this := mkVector (mkRawMemory nullptr 0) 0]> (vecs w)) w)
    this [] 0).
  { eexists. split; [heap_lookup|]. done. }
  destruct (wp_total _ _ _
    (Vector_dtor_spec this (mkVector (mkRawMemory nullptr 0) 0) [] 0 _ Ho'
       ltac:(heap_lookup))) as ([] & w'' & Hrun & _ & Hh & _).
  rewrite Hrun. cbn in *. done.
Qed.

(** X14.  [Emplace] and [Insert] at [end()] of a vector with spare
    capacity, when the construction of the new element throws.  For a
    vector that is not empty the call is undefined: the handler gives
    [operator delete] an address inside the block.  For an empty vector
    the handler releases the block of the vector and the exception goes
    on: the vector keeps the address and the capacity of a block that is
    gone, so that its destructor and a later [PushBack] are undefined.
    [PushBack] of the same value in the same state throws and leaves heap
    and vector as they were. *)
Theorem Emplace_at_end_throw_releases_buffer this v l x cap w :
  owns w this l cap -> vecs w !! this = Some v -> length l < cap ->
  faults (ops w) = true ->
  Insert faults this (ptr_add (buffer (data v)) (length l)) x =
    Emplace faults this (ptr_add (buffer (data v)) (length l)) x /\
  (l <> [] ->
   result (Emplace faults this (ptr_add (buffer (data v)) (length l)) x) w
   = Undefined) /\
  (l = [] ->
   exists b w',
     buffer (data v) = Ptr b 0 /\ heap w !! b = Some (replicate cap Raw) /\
     Emplace faults this (ptr_add (buffer (data v)) (length l)) x w = (Thrown, w') /\
     vecs w' = vecs w /\ heap w' = delete b (heap w) /\
     result (Vector_dtor this) w' = Undefined /\
     forall y, result (PushBack faults this y) w' = Undefined) /\
  (result (PushBack faults this x) w = Thrown /\
   heap (exec (PushBack faults this x) w) = heap w /\
   vecs (exec (PushBack faults this x) w) = vecs w).
Proof.
  intros Ho Hv Hlt Hf.
  pose proof (Emplace_end_throw_spec this v l x cap w Ho Hv Hlt Hf) as Hs.
  apply wp_elim in Hs.
  destruct (append_spare_spec this v l cap x w Ho Hv Hlt)
    as (b & Hb & Hblk & Hpush & _).
  apply wp_elim in Hpush.
  split; [done|].
  set (m := Emplace faults this (ptr_add (buffer (data v)) (length l)) x) in *.
  split; [|split].
  - intros Hl. destruct (result m w) as [r| |]; [done| |done].
    by destruct Hs as [-> _].
  - intros Hl. destruct (result m w) as [r| |] eqn:Hr; [done| |done].
    destruct Hs as (_ & b' & Hb' & Hw').
    assert (b' = b) as -> by congruence.
    destruct Ho as (v' & Hv' & Hsz & Hcap & _).
    assert (v' = v) as -> by congruence.
    subst l. rewrite block_of_nil in Hblk. cbn in Hsz, Hlt.
    exists b, (exec m w).
    split_and!; [done|done| |by rewrite Hw'|by rewrite Hw'| |].
    + unfold result, exec in *. by destruct (m w) as [[r| |] w']; simplify_eq/=.
    + rewrite Hw'. apply wp_is_undefined. unfold Vector_dtor.
      apply wp_bind. eapply wp_get_vec; [exact Hv|].
      unfold GetAddress. rewrite Hsz, Hb. cbn.
      apply wp_bind, wp_ret, wp_bind.
      unfold wp, RawMemory_dtor, Deallocate, operator_delete. rewrite Hb. cbn.
      by rewrite lookup_delete_eq.
    + intros y. rewrite Hw'. apply wp_is_undefined. unfold PushBack.
      apply wp_bind. eapply wp_get_vec; [exact Hv|].
      rewrite decide_False by lia.
      unfold GetAddress. rewrite Hsz, Hb. cbn.
      apply wp_bind. unfold construct_at. apply wp_bind.
      unfold wp, read_slot. cbn. by rewrite lookup_delete_eq.
  - destruct (result (PushBack faults this x) w) as [[]| |]; [|by destruct Hpush as [_ ->]|done].
    destruct Hpush as [Hnf _]. congruence.
Qed.

(** X15.  [PushBack] and [EmplaceBack] on a vector with spare capacity do
    not reallocate: the vector keeps its block and its capacity, the
    elements it had stay at their addresses, no destructor runs, and the
    only fallible step is the construction of the new element; if that
    throws, the world is what it was but for the clock. *)
Theorem append_with_spare_capacity this v l cap x w :
  owns w this l cap -> vecs w !! this = Some v -> length l < cap ->
  wp (PushBack faults this x) w
    (fun _ w' =>
       owns w' this (l ++ [x]) cap /\
       vecs w' = <[this := mkVector (data v) (S (length l))]> (vecs w) /\
       (forall i y, l !! i = Some y ->
          get_obj (ptr_add (buffer (data v)) i) w' = (Normal y, w')) /\
       dtors w' = dtors w /\ ops w' = S (ops w))
    (fun w' => faults (ops w) = true /\ w' = set_ops (S (ops w)) w)
    False /\
  wp (EmplaceBack faults this x) w
    (fun r w' =>
       owns w' this (l ++ [x]) cap /\
       vecs w' = <[this := mkVector (data v) (S (length l))]> (vecs w) /\
       (forall i y, l !! i = Some y ->
          get_obj (ptr_add (buffer (data v)) i) w' = (Normal y, w')) /\
       r = ptr_add (buffer (data v)) (length l) /\
       dtors w' = dtors w /\ ops w' = S (ops w))
    (fun w' => faults (ops w) = true /\ w' = set_ops (S (ops w)) w)
    False.
Proof.
  intros Ho Hv Hlt.
  destruct (append_spare_spec this v l cap x w Ho Hv Hlt)
    as (b & Hb & Hblk & Hpush & Hemp).
  pose proof Ho as (v' & Hv' & Hsz & Hcap & Hle & _).
  assert (v' = v) as -> by congruence.
  assert (Hown : forall w' : World,
    w' = mkWorld (<[b := block_of (l ++ [x]) cap]> (heap w))
           (<[this := mkVector (data v) (S (length l))]> (vecs w))
           (S (ops w)) (dtors w) (undestroyed w) ->
    owns w' this (l ++ [x]) cap /\
    vecs w' = <[this := mkVector (data v) (S (length l))]> (vecs w) /\
    (forall i y, l !! i = Some y ->
       get_obj (ptr_add (buffer (data v)) i) w' = (Normal y, w')) /\
    dtors w' = dtors w /\ ops w' = S (ops w)).
  { intros w' ->.
    assert (Ho' : owns
      (mkWorld (<[b := block_of (l ++ [x]) cap]> (heap w))
         (<[this := mkVector (data v) (S (length l))]> (vecs w))
         (S (ops w)) (dtors w) (undestroyed w)) this (l ++ [x]) cap).
    { eexists. split; [heap_lookup|]. cbn. rewrite length_app. cbn.
      split_and!; [lia|done|lia|]. rewrite Hb. heap_lookup. }
    split_and!; [done..| |done|done].
    intros i y Hi.
    apply (owns_get_obj _ this (mkVector (data v) (S (length l))) (l ++ [x]) cap);
      [done|heap_lookup|].
    by apply lookup_app_l_Some. }
  split.
  - eapply wp_mono; [exact Hpush| |done..]. intros [] w' [_ Hw']. by apply Hown.
  - eapply wp_mono; [exact Hemp| |done..]. intros r w' (-> & _ & Hw').
    destruct (Hown w' Hw') as (? & ? & ? & ? & ?).
    split_and!; [done..| |done|done]. by rewrite Hb.
Qed.

(** X16.  [At] and [operator[]] check the index with an assertion: below
    [size()] they return the address of the element at the index, and
    from [size()] on they are undefined; they never throw. *)
Theorem At_checks_by_assertion this l cap i w :
  owns w this l cap ->
  result (At this i) w <> Thrown /\
  (length l <= i -> result (At this i) w = Undefined) /\
  (forall x, l !! i = Some x ->
     exists p, At this i w = (Normal p, w) /\ get_obj p w = (Normal x, w)).
Proof.
  intros Ho. pose proof Ho as (v & Hv & _).
  assert (Hout : length l <= i -> result (At this i) w = Undefined).
  { intros Hi. by eapply At_out_of_range. }
  assert (Hin : forall x, l !! i = Some x ->
     exists p, At this i w = (Normal p, w) /\ get_obj p w = (Normal x, w)).
  { intros x Hi. exists (ptr_add (buffer (data v)) i). split.
    - by eapply At_spec.
    - by eapply owns_get_obj. }
  split_and!; [|done..].
  destruct (l !! i) as [x|] eqn:Hi.
  - destruct (Hin x eq_refl) as (p & Hp & _). unfold result. by rewrite Hp.
  - apply lookup_ge_None in Hi. by rewrite Hout.
Qed.

(** X17.  [Front()] returns [begin()], which holds the first element, and
    [Back()] returns the address of the last element; on an empty vector
    both fail their assertion. *)
Theorem Front_Back_access this l cap w :
  owns w this l cap ->
  (l = [] -> result (Front this) w = Undefined /\ result (Back this) w = Undefined) /\
  (forall x l', l = x :: l' ->
     exists p, Front this w = (Normal p, w) /\ begin_ this w = (Normal p, w) /\
               get_obj p w = (Normal x, w)) /\
  (forall l' x, l = l' ++ [x] ->
     exists p, Back this w = (Normal p, w) /\ get_obj p w = (Normal x, w)).
Proof.
  intros Ho. pose proof Ho as (v & Hv & _). split_and!.
  - intros ->. by eapply Front_Back_empty.
  - intros x l' ->. destruct (Front_spec this v l' cap x w Ho Hv) as [Hf Hg].
    exists (buffer (data v)). split_and!; [done| |done].
    unfold begin_, bind, get_vec. by rewrite Hv.
  - intros l' x ->. destruct (Back_spec this v l' cap x w Ho Hv) as [Hb Hg].
    by exists (ptr_add (buffer (data v)) (length l')).
Qed.

(** X18.  [Resize(Size())] changes nothing, and [Resize(0)] does what
    [Clear()] does. *)
Theorem Resize_edge_cases this l cap w :
  owns w this l cap ->
  Resize faults this (length l) w = (Normal tt, w) /\
  Resize faults this 0 w = Clear this w.
Proof.
  intros Ho. split.
  - destruct Ho as (v & Hv & Hsz & Hcap & Hle & _).
    unfold Resize, bind at 1. unfold get_vec at 1. rewrite Hv.
    rewrite <- Hsz. rewrite decide_False by lia.
    rewrite decide_False by lia.
    unfold bind, ret, get_vec. rewrite Hv, Nat.sub_diag. cbn.
    unfold set_size, bind, get_vec. rewrite Hv.
    apply put_vec_same. by destruct v.
  - destruct (owns_inv _ _ _ _ Ho) as (v & Hv & Hsz & Hcap & Hle & Hbuf).
    assert (Hc : Clear this w =
                 (destroy_n (buffer (data v)) (size v) ;;; set_size this 0) w).
    { unfold Clear, bind at 1. unfold get_vec at 1. by rewrite Hv. }
    rewrite Hc. unfold Resize, bind at 1. unfold get_vec at 1. rewrite Hv.
    destruct (decide (0 < size v)) as [Hpos|Hz].
    + rewrite Nat.sub_0_r.
      destruct Hbuf as [(_ & -> & _)|(b & Hb & _)]; [cbn in Hsz; lia|].
      unfold GetAddress. rewrite Hb. done.
    + assert (Hs0 : size v = 0) by lia.
      rewrite decide_False by lia.
      unfold bind, ret, get_vec. rewrite Hv, Hs0. done.
Qed.

(** X19.  Copy assignment [a = b] of more elements than [a] has capacity
    for: when it returns, [a] holds the elements of [b] with capacity
    [b.Size()], the old elements of [a] were destroyed and their block
    released with no object in it (the block [a] had is no longer in the
    heap), and [b] and the other objects are what they were.  If it
    throws, heap and objects, [a] included, are what they were.  The
    bytes of the elements of [b] are in the range of [size_t]. *)
Theorem copy_assign_reallocation_is_strong a b la ca lb cb w :
  a <> b -> owns w a la ca -> owns w b lb cb -> separate w a b ->
  ca < length lb -> fits (length lb) ->
  wp (copy_assign faults a b) w
    (fun _ w' =>
       owns w' a lb (length lb) /\ owns w' b lb cb /\
       keeps_others a w w' /\
       dtors w' = dtors w + length la /\ undestroyed w' = undestroyed w /\
       released w w' a)
    (fun w' =>
       faulted (ops w) /\ heap w' = heap w /\ vecs w' = vecs w /\
       owns w' a la ca)
    False.
Proof.
  intros Hab Hoa Hob Hsep Hlt Hfits. pose proof Hoa as (va & Hva & _).
  eapply wp_mono;
    [by apply (copy_assign_realloc_strong a b la ca lb cb w)|done| |done].
  intros w' (Hf & Hh & Hvs). split_and!; [done..|].
  eapply (owns_same_heap w); [done..|by rewrite Hvs].
Qed.

(** X20.  [Reserve] beyond the capacity, when it throws: the vector
    object is what it was.  If the allocation threw, or the elements are
    copied, the heap is what it was too, and the vector owns the same
    elements.  Only for elements moved by a constructor that may throw is
    the old block changed: when the move of element [j] throws, the [j]
    elements before it have been moved from.  The bytes of the capacity
    asked for are in the range of [size_t]. *)
Theorem Reserve_throw_behaviour this l cap n w :
  owns w this l cap -> cap < n -> fits n ->
  result (Reserve faults this n) w = Thrown ->
  vecs (exec (Reserve faults this n) w) = vecs w /\
  (heap (exec (Reserve faults this n) w) = heap w /\
   owns (exec (Reserve faults this n) w) this l cap /\
   (faults (ops w) = true \/ moves_elements = false) \/
   exists j,
     j < length l /\ is_nothrow_move_constructible = false /\
     is_copy_constructible = false /\
     faults (ops w) = false /\ faults (S (ops w + j)) = true /\
     owns (exec (Reserve faults this n) w) this
       ((moved_from <$> take j l) ++ drop j l) cap).
Proof.
  intros Ho Hn Hfits Hr. pose proof Ho as (v & Hv & _).
  pose proof (Reserve_throw_spec this l cap n w Ho Hn Hfits) as Hs.
  apply wp_elim in Hs. rewrite Hr in Hs. destruct Hs as [Hvs Hc].
  split; [done|]. destruct Hc as [[Hh Hc]|Hc]; [left|by right].
  split_and!; [done| |done].
  eapply (owns_same_heap w); [done..|by rewrite Hvs].
Qed.

(** X21.  The range from [crbegin()] to [crend()] holds the elements of
    the vector from the last to the first. *)
Theorem const_reverse_iteration this l cap w :
  owns w this l cap ->
  (first <- crbegin this ;; last <- crend this ;; reverse_range first last) w
  = (Normal (rev l), w) /\
  rbegin_const this w = crbegin this w /\ rend_const this w = crend this w.
Proof.
  intros Ho. split; [|done].
  destruct (owns_inv _ _ _ _ Ho) as (v & Hv & Hsz & Hcap & Hle & Hbuf).
  apply wp_run. unfold crbegin, crend, begin_, end_.
  apply wp_bind, wp_bind, wp_bind. eapply wp_get_vec; [done|]. do 2 apply wp_ret.
  apply wp_bind, wp_bind, wp_bind. eapply wp_get_vec; [done|]. do 2 apply wp_ret.
  unfold reverse_range, GetAddress. cbn [base]. rewrite Hsz.
  destruct Hbuf as [(Hb & -> & _)|(b & Hb & Hblk)]; rewrite Hb.
  - cbn. rewrite ptr_diff_null. by apply wp_ret.
  - cbn. rewrite ptr_diff_Ptr by lia. rewrite Nat.sub_0_r.
    eapply wp_of_run; [|done].
    by apply (reverse_read_block b [] l (replicate (cap - length l) Raw)).
Qed.

(** X22.  The non-const [rbein()] adapts [begin()] and the non-const
    [rend()] adapts [end()], the wrong way round: the object [rbein()]
    designates is before the storage, so that reading it is undefined for
    every vector, and for a vector that is not empty [rend()] is not
    reachable from [rbein()]. *)
Theorem nonconst_reverse_iterators_are_swapped this l cap w :
  owns w this l cap ->
  rbein this w = crend this w /\ rend this w = crbegin this w /\
  result (first <- rbein this ;; get_obj (reverse_deref first)) w = Undefined /\
  (l <> [] ->
   result (first <- rbein this ;; last <- rend this ;; reverse_range first last) w
   = Undefined).
Proof.
  intros Ho. split; [done|]. split; [done|].
  destruct (owns_inv _ _ _ _ Ho) as (v & Hv & Hsz & Hcap & Hle & Hbuf).
  split.
  - apply wp_is_undefined. unfold rbein, begin_.
    apply wp_bind, wp_bind, wp_bind. eapply wp_get_vec; [done|]. do 2 apply wp_ret.
    unfold reverse_deref, GetAddress. cbn [base].
    by destruct Hbuf as [(Hb & _)|(b & Hb & _)]; rewrite Hb.
  - intros Hl. apply wp_is_undefined. unfold rbein, rend, begin_, end_.
    apply wp_bind, wp_bind, wp_bind. eapply wp_get_vec; [done|]. do 2 apply wp_ret.
    apply wp_bind, wp_bind, wp_bind. eapply wp_get_vec; [done|]. do 2 apply wp_ret.
    unfold reverse_range, GetAddress. cbn [base]. rewrite Hsz.
    destruct Hbuf as [(Hb & -> & _)|(b & Hb & Hblk)]; [done|]. rewrite Hb.
    cbn. rewrite ptr_diff_Ptr_None; [done|]. destruct l; [done|cbn; lia].
Qed.

(** X23.  Repeated [PushBack] keeps less than half of the capacity
    unused: from a vector with no storage, or with fewer than twice as
    many slots as elements, every run of [PushBack]s that returns leaves
    [size <= capacity < 2 * size].  From an empty vector without storage
    the capacity is then a power of two.  The bytes of twice the final
    number of elements are in the range of [size_t]. *)
Theorem PushBack_growth_bounds this xs l cap w :
  owns w this l cap -> fits (2 * (length l + length xs)) ->
  (tight (length l) cap ->
   wp (run_back_ops faults this (Push <$> xs)) w
     (fun _ w' =>
        exists cap', owns w' this (l ++ xs) cap' /\
                     tight (length l + length xs) cap')
     (fun _ => faulted 0)
     False) /\
  (l = [] -> cap = 0 ->
   wp (run_back_ops faults this (Push <$> xs)) w
     (fun _ w' =>
        exists cap', owns w' this xs cap' /\ doubled (length xs) cap')
     (fun _ => faulted 0)
     False).
Proof.
  intros Ho Hfits. split.
  - intros Ht.
    eapply wp_mono;
      [by apply (pushes_invariant tight this xs l cap w tight_append)| |done..].
    intros [] w' (cap' & Ho' & Ht' & _). exists cap'.
    by rewrite length_app in Ht'.
  - intros -> ->.
    eapply wp_mono;
      [apply (pushes_invariant doubled this xs [] 0 w doubled_append Ho);
         [by left|done]
      | |done..].
    intros [] w' (cap' & Ho' & Ht' & _). by exists cap'.
Qed.

(** X24.  [EmplaceBack], when it returns, returns the address of the new
    element, which is the one [Back()] returns and holds the value
    constructed from the arguments.  When the vector is full, the bytes
    of the grown capacity are in the range of [size_t]. *)
Theorem EmplaceBack_returns_new_element this l cap x w :
  owns w this l cap -> (cap <= length l -> fits (grown (length l))) ->
  wp (EmplaceBack faults this x) w
    (fun r w' =>
       owns w' this (l ++ [x]) (capacity_after_append l cap) /\
       get_obj r w' = (Normal x, w') /\
       Back this w' = (Normal r, w'))
    (fun w' => faulted (ops w) /\ vecs w' = vecs w)
    False /\
  ((forall k, faults k = false) ->
   exists r, result (EmplaceBack faults this x) w = Normal r).
Proof.
  intros Ho Hfits. pose proof (EmplaceBack_spec this l cap x w Ho Hfits) as Hs.
  assert (Hm : wp (EmplaceBack faults this x) w
    (fun r w' =>
       owns w' this (l ++ [x]) (capacity_after_append l cap) /\
       get_obj r w' = (Normal x, w') /\
       Back this w' = (Normal r, w'))
    (fun w' => faulted (ops w) /\ vecs w' = vecs w)
    False).
  { eapply wp_mono; [exact Hs| |by intros w' (? & ? & _)|done].
    intros r w' (Ho' & (v' & Hv' & ->) & _).
    destruct (Back_spec this v' l _ x w' Ho' Hv') as [Hb Hg]. done. }
  split; [done|].
  intros Hnf. apply wp_elim in Hm.
  destruct (result (EmplaceBack faults this x) w) as [r| |]; [by exists r| |done].
  by destruct Hm as [Hf%not_faulted _].
Qed.

(** X25.  [Resize], when it throws, for an element type that is copied on
    reallocation or whose move constructor cannot throw: the request was
    for at least the size, and the vector has the size and the elements it
    had; its capacity is the old one or the grown one.  When the request
    exceeds the capacity, the bytes of the grown capacity are in the range
    of [size_t]. *)
Theorem Resize_throw_keeps_elements this l cap n w :
  owns w this l cap -> (cap < n -> fits (Nat.max (cap * 2) n)) ->
  is_nothrow_move_constructible = true \/ is_copy_constructible = true ->
  result (Resize faults this n) w = Thrown ->
  length l <= n /\
  exists cap',
    owns (exec (Resize faults this n) w) this l cap' /\
    (cap' = cap \/ cap' = capacity_after_resize cap n) /\
    keeps_others this w (exec (Resize faults this n) w).
Proof.
  intros Ho Hfits Hty Hr.
  destruct (decide (n < length l)) as [Hlt|Hge].
  - pose proof (Resize_shrink_spec this l cap n w Ho Hlt) as Hs.
    apply wp_elim in Hs. by rewrite Hr in Hs.
  - split; [lia|].
    pose proof (Resize_throw_spec this l cap n w Ho ltac:(lia) Hty Hfits) as Hs.
    apply wp_elim in Hs. by rewrite Hr in Hs.
Qed.

(** X26.  [PushBack] and [EmplaceBack] on a full vector whose elements are
    copied on reallocation, when the allocation and the construction of
    the new element have succeeded and the copy of an element throws: the
    copies made so far are destroyed and the vector and the heap are what
    they were, but the new block is released with the new element still
    alive in it: its destructor never runs.  The bytes of the grown
    capacity are in the range of [size_t]. *)
Theorem append_copy_throw_loses_new_element this l x w :
  owns w this l (length l) -> moves_elements = false ->
  faults (ops w) = false -> faults (S (ops w)) = false ->
  fits (grown (length l)) ->
  (result (PushBack faults this x) w = Thrown ->
   heap (exec (PushBack faults this x) w) = heap w /\
   vecs (exec (PushBack faults this x) w) = vecs w /\
   undestroyed (exec (PushBack faults this x) w) = S (undestroyed w) /\
   exists j, j < length l /\ faults (S (S (ops w + j))) = true /\
             dtors (exec (PushBack faults this x) w) = dtors w + j) /\
  (result (EmplaceBack faults this x) w = Thrown ->
   heap (exec (EmplaceBack faults this x) w) = heap w /\
   vecs (exec (EmplaceBack faults this x) w) = vecs w /\
   undestroyed (exec (EmplaceBack faults this x) w) = S (undestroyed w) /\
   exists j, j < length l /\ faults (S (S (ops w + j))) = true /\
             dtors (exec (EmplaceBack faults this x) w) = dtors w + j).
Proof.
  intros (v & Hv & Hsz & Hcap & Hle & Hst) Hmv Hf0 Hf1 Hfits.
  pose proof (wp_grow_copy_throw this v l x w Hv Hsz Hcap Hst Hmv Hf0 Hf1 Hfits)
    as Hg.
  split.
  - intros Hr.
    assert (Hwp : wp (PushBack faults this x) w (fun _ _ => True)
      (fun w' =>
         heap w' = heap w /\ vecs w' = vecs w /\
         undestroyed w' = S (undestroyed w) /\
         exists j, j < length l /\ faults (S (S (ops w + j))) = true /\
                   dtors w' = dtors w + j)
      False).
    { unfold PushBack. apply wp_bind. eapply wp_get_vec; [done|].
      rewrite decide_True by lia. apply wp_bind.
      eapply wp_mono; [exact Hg| | |done].
      - intros [] w1 (v1 & Hv1). apply wp_bind. eapply wp_get_vec; [done|].
        by eapply wp_set_size.
      - intros w' (? & ? & ? & j & ? & ? & ? & _). split_and!; [done..|].
        by exists j. }
    apply wp_elim in Hwp. by rewrite Hr in Hwp.
  - intros Hr.
    assert (Hwp : wp (EmplaceBack faults this x) w (fun _ _ => True)
      (fun w' =>
         heap w' = heap w /\ vecs w' = vecs w /\
         undestroyed w' = S (undestroyed w) /\
         exists j, j < length l /\ faults (S (S (ops w + j))) = true /\
                   dtors w' = dtors w + j)
      True).
    { unfold EmplaceBack. apply wp_bind. eapply wp_get_vec; [done|].
      rewrite decide_True by lia. apply wp_bind.
      eapply wp_mono; [exact Hg| | |done].
      - intros [] w1 (v1 & Hv1). apply wp_bind. eapply wp_get_vec; [done|].
        apply wp_bind. eapply wp_set_size; [done|].
        unfold RawMemory_index. apply wp_bind, wp_assert; [|done].
        intros _. by apply wp_ret.
      - intros w' (? & ? & ? & j & ? & ? & ? & _). split_and!; [done..|].
        by exists j. }
    apply wp_elim in Hwp. by rewrite Hr in Hwp.
Qed.

End Logic.

(** ** The properties on concrete vectors *)

Lemma owns_world_123 : owns world_123 0 [1; 2; 3]%Z 3.
Proof.
  exists (mkVector (mkRawMemory (Ptr 0 0) 3) 3).
  split_and!; [by vm_compute..|cbn; lia|by vm_compute].
Qed.

Lemma owns_world_12_spare : owns world_12_spare 0 [1; 2]%Z 4.
Proof.
  exists (mkVector (mkRawMemory (Ptr 1 0) 4) 2).
  split_and!; [by vm_compute..|cbn; lia|by vm_compute].
Qed.

Lemma owns_world_7_12_a : owns world_7_12 0 [7]%Z 1.
Proof.
  exists (mkVector (mkRawMemory (Ptr 0 0) 1) 1).
  split_and!; [by vm_compute..|cbn; lia|by vm_compute].
Qed.

Lemma owns_world_7_12_b : owns world_7_12 1 [1; 2]%Z 2.
Proof.
  exists (mkVector (mkRawMemory (Ptr 1 0) 2) 2).
  split_and!; [by vm_compute..|cbn; lia|by vm_compute].
Qed.

Lemma separate_world_7_12 : separate world_7_12 0 1.
Proof.
  intros va vb ba bb i j Ha Hb Hba Hbb.
  vm_compute in Ha, Hb. injection Ha as <-. injection Hb as <-.
  cbn in Hba, Hbb. congruence.
Qed.

Lemma separate_world_7_12_rev : separate world_7_12 1 0.
Proof.
  intros va vb ba bb i j Ha Hb Hba Hbb.
  vm_compute in Ha, Hb. injection Ha as <-. injection Hb as <-.
  cbn in Hba, Hbb. congruence.
Qed.

(** C1, as stated, fails for move assignment: after [a = std::move(b)]
    with [a = {7}] and [b = {1, 2}], the source [b] has size 1 and
    capacity 1, the ones [a] had. *)
Lemma move_assign_source_not_empty :
  result (move_assign 0 1 ;;;
          s <- Size 1 ;; c <- Capacity 1 ;; ret (s, c)) world_7_12
  = Normal (1, 1) /\ (1, 1) <> (0, 0).
Proof. split; [by vm_compute|done]. Qed.

Lemma move_transfers_storage_witness :
  owns world_7_12 1 [1; 2]%Z 2 /\ owns world_7_12 0 [7]%Z 1 /\
  owns (exec (move_assign 0 1) world_7_12) 0 [1; 2]%Z 2 /\
  owns (exec (move_assign 0 1) world_7_12) 1 [7]%Z 1 /\
  owns (exec (Vector_move_ctor 2 1) world_7_12) 2 [1; 2]%Z 2 /\
  owns (exec (Vector_move_ctor 2 1) world_7_12) 1 [] 0.
Proof.
  destruct (move_transfers_storage 0 1 _ _ _ owns_world_7_12_b) as [_ Ha].
  destruct (Ha _ _ owns_world_7_12_a) as (_ & H1 & H2 & _).
  destruct (move_transfers_storage 2 1 _ _ _ owns_world_7_12_b) as [Hc _].
  destruct (Hc ltac:(lia)) as (_ & H3 & H4 & _).
  split_and!;
    [exact owns_world_7_12_b|exact owns_world_7_12_a|exact H1|exact H2
    |exact H3|exact H4].
Defined.

(** C2, what the code does.  [operator>] returns [lhs_ <= rhs_], the
    negation of [rhs_ < lhs_]: for every pair of vectors, [a > b] is the
    opposite of [b < a].  For [a = {1, 2, 4}] and [b = {1, 2, 3}], [b < a]
    holds and [a > b] is false, while [a > a] is true; the other operators
    give the lexicographic answers [a <= b] false, [a >= b] true, [a == b]
    false, [a != b] true and [a <=> b] greater. *)
Theorem operator_gt_is_operator_le :
  (forall (T : Type) (CT : Comparable T) (a b : nat) (la lb : list T)
          (ca cb : nat) (w : World T),
     owns w a la ca -> owns w b lb cb ->
     operator_gt a b = operator_le a b /\
     operator_lt b a w = (Normal (lexicographical_compare lb la), w) /\
     operator_gt a b w = (Normal (negb (lexicographical_compare lb la)), w) /\
     result (operator_gt a b) w <> result (operator_lt b a) w) /\
  result (operator_lt (CT := int_comparable) 1 0) world_124_123 = Normal true /\
  result (operator_gt (CT := int_comparable) 0 1) world_124_123 = Normal false /\
  result (operator_gt (CT := int_comparable) 0 0) world_124_123 = Normal true /\
  result (operator_le (CT := int_comparable) 0 1) world_124_123 = Normal false /\
  result (operator_ge (CT := int_comparable) 0 1) world_124_123 = Normal true /\
  result (operator_eq (CT := int_comparable) 0 1) world_124_123 = Normal false /\
  result (operator_ne (CT := int_comparable) 0 1) world_124_123 = Normal true /\
  result (operator_spaceship (CT := int_comparable) 0 1) world_124_123 = Normal Gt.
Proof.
  split; [|split_and!; by vm_compute].
  intros T CT a b la lb ca cb w Ha Hb.
  destruct (owns_queries _ _ _ _ Ha) as (_ & _ & Hea).
  destruct (owns_queries _ _ _ _ Hb) as (_ & _ & Heb).
  assert (Hlt : operator_lt b a w = (Normal (lexicographical_compare lb la), w)).
  { unfold operator_lt, bind. by rewrite Heb, Hea. }
  assert (Hgt : operator_gt a b w
                = (Normal (negb (lexicographical_compare lb la)), w)).
  { unfold operator_gt, operator_le, bind. by rewrite Hlt. }
  split_and!; [done..|].
  unfold result. rewrite Hgt, Hlt. cbn.
  by destruct (lexicographical_compare lb la).
Qed.

Lemma owns_world_124_123_a : owns world_124_123 0 [1; 2; 4]%Z 3.
Proof.
  exists (mkVector (mkRawMemory (Ptr 0 0) 3) 3).
  split_and!; [by vm_compute..|cbn; lia|by vm_compute].
Qed.

Lemma owns_world_124_123_b : owns world_124_123 1 [1; 2; 3]%Z 3.
Proof.
  exists (mkVector (mkRawMemory (Ptr 1 0) 3) 3).
  split_and!; [by vm_compute..|cbn; lia|by vm_compute].
Qed.

Lemma operator_gt_is_operator_le_witness :
  owns world_124_123 0 [1; 2; 4]%Z 3 /\ owns world_124_123 1 [1; 2; 3]%Z 3 /\
  operator_lt (CT := int_comparable) 1 0 world_124_123
    = (Normal true, world_124_123) /\
  operator_gt (CT := int_comparable) 0 1 world_124_123
    = (Normal false, world_124_123).
Proof.
  split; [exact owns_world_124_123_a|]. split; [exact owns_world_124_123_b|].
  destruct (proj1 operator_gt_is_operator_le Z int_comparable 0 1 _ _ 3 3
              world_124_123 owns_world_124_123_a owns_world_124_123_b)
    as (_ & Hlt & Hgt & _).
  split; [exact Hlt|exact Hgt].
Defined.

Lemma ShrinkToFit_releases_undestroyed_witness :
  owns world_12_spare 0 [1; 2]%Z 4 /\
  fits (ET := int_element) 2 /\
  result (ShrinkToFit (ET := int_element) no_faults 0) world_12_spare = Normal tt /\
  undestroyed (exec (ShrinkToFit (ET := int_element) no_faults 0) world_12_spare)
  = undestroyed world_12_spare + 2.
Proof.
  split; [exact owns_world_12_spare|]. split; [reflexivity|].
  destruct (ShrinkToFit_releases_undestroyed (ET := int_element) no_faults
              0 _ 4 world_12_spare owns_world_12_spare
              ltac:(cbn; lia) ltac:(cbn; lia) ltac:(reflexivity)) as (_ & Hr & _).
  exact (Hr (fun _ => eq_refl)).
Defined.

Lemma append_strong_guarantee_witness :
  owns world_123 0 [1; 2; 3]%Z 3 /\ 3 <= 3 /\
  result (PushBack (ET := throwing_element) (fault_at 8) 0 4%Z) world_123 = Thrown /\
  owns (exec (PushBack (ET := throwing_element) (fault_at 8) 0 4%Z) world_123)
    0 [1; 2; 3]%Z 3.
Proof.
  split; [exact owns_world_123|]. split; [lia|].
  destruct (append_strong_guarantee (ET := throwing_element) (fault_at 8)
              0 _ 3 4%Z world_123 owns_world_123 ltac:(cbn; lia)
              ltac:(by vm_compute))
    as [[Hwp _] _].
  apply wp_elim in Hwp.
  assert (Hr : result (PushBack (ET := throwing_element) (fault_at 8) 0 4%Z)
                 world_123 = Thrown) by (by vm_compute).
  rewrite Hr in Hwp. split; [exact Hr|].
  destruct Hwp as [_ Hwp]. apply Hwp. left. reflexivity.
Defined.

Lemma Reserve_capacity_witness :
  owns world_123 0 [1; 2; 3]%Z 3 /\
  result (Reserve (ET := int_element) no_faults 0 8) world_123 = Normal tt /\
  owns (exec (Reserve (ET := int_element) no_faults 0 8) world_123)
    0 [1; 2; 3]%Z 8.
Proof.
  split; [exact owns_world_123|].
  destruct (Reserve_capacity (ET := int_element) no_faults 0 _ 3 8 world_123
              owns_world_123 ltac:(intros _; by vm_compute)) as (_ & _ & _ & Hr).
  exact (Hr (fun _ => eq_refl)).
Defined.

Lemma Resize_size_and_elements_witness :
  owns world_123 0 [1; 2; 3]%Z 3 /\
  result (Resize (ET := int_element) no_faults 0 5) world_123 = Normal tt /\
  wp (Resize (ET := int_element) no_faults 0 5) world_123
    (fun _ w' =>
       owns w' 0 [1; 2; 3; 0; 0]%Z 6 /\ Size 0 w' = (Normal 5, w'))
    (fun _ => faulted no_faults (ops world_123)) False.
Proof.
  split; [exact owns_world_123|].
  destruct (Resize_size_and_elements (ET := int_element) no_faults 0 _ 3 5
              world_123 owns_world_123 ltac:(intros _; by vm_compute))
    as (_ & Hg & Hr).
  split; [exact (Hr (fun _ => eq_refl))|].
  exact (Hg ltac:(cbn; lia)).
Defined.




Lemma Emplace_inplace_throw_is_undefined_witness :
  owns world_12_spare 0 [1; 2]%Z 4 /\
  world_12_spare.(vecs) !! 0 = Some (mkVector (mkRawMemory (Ptr 1 0) 4) 2) /\
  2 < 4 /\ 0 < 2 /\
  result (Insert (ET := int_element) (fault_at 6) 0 (Ptr 1 0) 9%Z) world_12_spare
  = Undefined.
Proof.
  assert (Hv : world_12_spare.(vecs) !! 0 =
               Some (mkVector (mkRawMemory (Ptr 1 0) 4) 2)) by (by vm_compute).
  split; [exact owns_world_12_spare|]. split; [exact Hv|].
  split; [lia|]. split; [lia|].
  destruct (Emplace_inplace_throw_is_undefined (ET := int_element) (fault_at 6)
              0 _ _ 0 9%Z 4 world_12_spare owns_world_12_spare Hv
              ltac:(cbn; lia) ltac:(cbn; lia)) as (_ & _ & Hu & _).
  exact (Hu eq_refl).
Defined.

Lemma copy_assign_copies_witness :
  owns world_7_12 0 [7]%Z 1 /\ owns world_7_12 1 [1; 2]%Z 2 /\
  0 <> 1 /\ separate world_7_12 0 1 /\
  result (copy_assign (ET := int_element) no_faults 0 1) world_7_12 = Normal tt /\
  result (copy_assign (ET := int_element) no_faults 1 0) world_7_12 = Normal tt /\
  copy_assign (ET := int_element) no_faults 0 0 world_7_12 = (Normal tt, world_7_12).
Proof.
  split; [exact owns_world_7_12_a|]. split; [exact owns_world_7_12_b|].
  split; [lia|]. split; [exact separate_world_7_12|].
  destruct (copy_assign_copies (ET := int_element) no_faults 0 1 _ 1 _ 2
              world_7_12 owns_world_7_12_a owns_world_7_12_b ltac:(lia)
              separate_world_7_12 ltac:(intros _; by vm_compute))
    as (_ & Hself & Hr).
  destruct (copy_assign_copies (ET := int_element) no_faults 1 0 _ 2 _ 1
              world_7_12 owns_world_7_12_b owns_world_7_12_a ltac:(lia)
              separate_world_7_12_rev ltac:(intros _; by vm_compute))
    as (_ & _ & Hr').
  split; [exact (Hr (fun _ => eq_refl))|].
  split; [exact (Hr' (fun _ => eq_refl))|exact Hself].
Defined.

(** ** Requests and positions beyond the integer types *)

Lemma owns_world_zeros n : owns (world_zeros n) 0 (replicate n 0%Z) n.
Proof.
  exists (mkVector (mkRawMemory (Ptr 0 0) n) n).
  split_and!; [done|by rewrite length_replicate|done|
               by rewrite length_replicate|].
  cbn. rewrite lookup_singleton_eq. f_equal. unfold block_of.
  by rewrite length_replicate, Nat.sub_diag, app_nil_r.
Qed.

(** C5, the counterexample.  [Reserve(2^62)] on the vector [{1, 2, 3}] of
    [int]: [2^62 * sizeof(int)] is [2^64], which is [0] in [size_t], and
    the elements are transferred into a block without room for them. *)
Lemma Reserve_beyond_size_t :
  owns world_123 0 [1; 2; 3]%Z 3 /\
  3 < N.to_nat 4611686018427387904 /\
  result (Reserve (ET := int_element) no_faults 0
            (N.to_nat 4611686018427387904)) world_123 = Undefined.
Proof.
  split; [exact owns_world_123|]. split; [lia|].
  apply (Reserve_wrap_undefined (ET := int_element) no_faults 0 [1; 2; 3]%Z 3);
    [exact owns_world_123|lia|done| |done].
  rewrite N2Nat.id. reflexivity.
Qed.

(** C6, the counterexample.  [Resize(2^62)] on the vector [{1, 2, 3}] of
    [int] reserves [max(6, 2^62)] slots, whose bytes are [0] in
    [size_t]. *)
Lemma Resize_beyond_size_t :
  owns world_123 0 [1; 2; 3]%Z 3 /\
  result (Resize (ET := int_element) no_faults 0
            (N.to_nat 4611686018427387904)) world_123 = Undefined.
Proof.
  split; [exact owns_world_123|].
  apply (Resize_wrap_undefined (ET := int_element) no_faults 0 [1; 2; 3]%Z 3);
    [exact owns_world_123|lia|done| |done].
  rewrite Nat.max_r by lia. rewrite N2Nat.id. reflexivity.
Qed.



(** ** Comparison operators *)

Section Comparisons.

Context {T : Type} {CT : Comparable T}.
Hypothesis Hlaw : lawful_comparisons CT.

Lemma std_equal_cons x y (l1 l2 : list T) :
  std_equal (x :: l1) (y :: l2) = elt_eq x y && std_equal l1 l2.
Proof.
  unfold std_equal. cbn [length equal_loop].
  destruct (decide (length l1 = length l2)) as [Hl|Hl].
  - rewrite decide_True by lia. by destruct (elt_eq x y).
  - rewrite decide_False by lia. by rewrite andb_false_r.
Qed.

Lemma std_equal_eq (l1 l2 : list T) :
  (forall x y : T, elt_eq x y = true <-> x = y) ->
  std_equal l1 l2 = true <-> l1 = l2.
Proof.
  intros Heq.
  revert l2. induction l1 as [|x l1 IH]; intros [|y l2]; try done.
  rewrite std_equal_cons, andb_true_iff, Heq, IH. split.
  - by intros [-> ->].
  - by intros [= -> ->].
Qed.

Lemma elt_cmp_cases x y :
  (elt_cmp x y = Lt /\ elt_lt x y = true /\ elt_lt y x = false /\ x <> y) \/
  (elt_cmp x y = Eq /\ elt_lt x y = false /\ elt_lt y x = false /\ x = y) \/
  (elt_cmp x y = Gt /\ elt_lt x y = false /\ elt_lt y x = true /\ x <> y).
Proof.
  destruct Hlaw as (_ & Hlt & Hgt & Heq).
  pose proof (Hlt x y) as H1. pose proof (Hgt x y) as H2.
  pose proof (Heq x y) as H3.
  destruct (elt_cmp x y) eqn:Hc; [right; left|left|right; right].
  - split_and!; [done| | |by apply H3].
    + destruct (elt_lt x y); [|done]. by destruct H1 as [_ H1]; specialize (H1 eq_refl).
    + destruct (elt_lt y x); [|done]. by destruct H2 as [_ H2]; specialize (H2 eq_refl).
  - split_and!; [done|by apply H1| |].
    + destruct (elt_lt y x); [|done]. by destruct H2 as [_ H2]; specialize (H2 eq_refl).
    + intros Hxy. by apply H3 in Hxy.
  - split_and!; [done| |by apply H2|].
    + destruct (elt_lt x y); [|done]. by destruct H1 as [_ H1]; specialize (H1 eq_refl).
    + intros Hxy. by apply H3 in Hxy.
Qed.

(** The three-way comparison of two sequences says what [<] in both
    directions and equality say. *)
Lemma three_way_cases (l1 l2 : list T) :
  (lexicographical_compare_three_way l1 l2 = Lt /\
   lexicographical_compare l1 l2 = true /\
   lexicographical_compare l2 l1 = false /\ l1 <> l2) \/
  (lexicographical_compare_three_way l1 l2 = Eq /\
   lexicographical_compare l1 l2 = false /\
   lexicographical_compare l2 l1 = false /\ l1 = l2) \/
  (lexicographical_compare_three_way l1 l2 = Gt /\
   lexicographical_compare l1 l2 = false /\
   lexicographical_compare l2 l1 = true /\ l1 <> l2).
Proof.
  revert l2. induction l1 as [|x l1 IH]; intros [|y l2]; cbn.
  - right; left. done.
  - left. done.
  - right; right. done.
  - destruct (elt_cmp_cases x y)
      as [(-> & -> & -> & Hne)|[(-> & -> & -> & ->)|(-> & -> & -> & Hne)]].
    + left. split_and!; [done..|congruence].
    + destruct (IH l2) as [(-> & -> & -> & Hne)|[(-> & -> & -> & ->)|(-> & -> & -> & Hne)]].
      * left. split_and!; [done..|congruence].
      * right; left. done.
      * right; right. split_and!; [done..|congruence].
    + right; right. split_and!; [done..|congruence].
Qed.

(** What the operators return on two vectors *)
Lemma operator_values a b la lb ca cb (w : World T) :
  owns w a la ca -> owns w b lb cb ->
  operator_eq a b w = (Normal (std_equal la lb), w) /\
  operator_ne a b w = (Normal (negb (std_equal la lb)), w) /\
  operator_lt a b w = (Normal (lexicographical_compare la lb), w) /\
  operator_lt b a w = (Normal (lexicographical_compare lb la), w) /\
  operator_le a b w = (Normal (negb (lexicographical_compare lb la)), w) /\
  operator_ge b a w = (Normal (negb (lexicographical_compare lb la)), w) /\
  operator_spaceship a b w =
    (Normal (lexicographical_compare_three_way la lb), w).
Proof.
  intros Ha Hb.
  destruct (owns_queries _ _ _ _ Ha) as (_ & _ & Hea).
  destruct (owns_queries _ _ _ _ Hb) as (_ & _ & Heb).
  assert (Heq : operator_eq a b w = (Normal (std_equal la lb), w)).
  { unfold operator_eq, bind. rewrite Hea. by rewrite Heb. }
  assert (Hab : operator_lt a b w = (Normal (lexicographical_compare la lb), w)).
  { unfold operator_lt, bind. rewrite Hea. by rewrite Heb. }
  assert (Hba : operator_lt b a w = (Normal (lexicographical_compare lb la), w)).
  { unfold operator_lt, bind. rewrite Heb. by rewrite Hea. }
  split_and!; [done| |done|done| | |].
  - unfold operator_ne, bind. by rewrite Heq.
  - unfold operator_le, bind. by rewrite Hba.
  - unfold operator_ge, bind. by rewrite Hba.
  - unfold operator_spaceship, bind. rewrite Hea. by rewrite Heb.
Qed.

(** X27.  For an element type whose [==] is equality, whatever its [<]
    and [<=>] are, [a == b] returns whether the two vectors hold the same
    sequence of elements, whatever their capacities, [a != b] returns the
    opposite, and neither changes anything. *)
Theorem operator_eq_decides_equality a b la lb ca cb (w : World T) :
  (forall x y : T, elt_eq x y = true <-> x = y) ->
  owns w a la ca -> owns w b lb cb ->
  exists r,
    operator_eq a b w = (Normal r, w) /\
    (r = true <-> la = lb) /\
    operator_ne a b w = (Normal (negb r), w).
Proof.
  intros Hlaw_eq Ha Hb.
  destruct (operator_values a b la lb ca cb w Ha Hb) as (Heq & Hne & _).
  exists (std_equal la lb). split_and!; [done|by apply std_equal_eq|done].
Qed.

(** X28.  For an element type with lawful comparisons, [a <=> b] is less
    exactly when [a < b] holds, greater exactly when [b < a] holds, and
    equal exactly when [a == b] holds. *)
Theorem spaceship_agrees_with_lt_and_eq a b la lb ca cb (w : World T) :
  owns w a la ca -> owns w b lb cb ->
  exists c,
    operator_spaceship a b w = (Normal c, w) /\
    (c = Lt <-> operator_lt a b w = (Normal true, w)) /\
    (c = Eq <-> operator_eq a b w = (Normal true, w)) /\
    (c = Gt <-> operator_lt b a w = (Normal true, w)).
Proof.
  intros Ha Hb.
  destruct (operator_values a b la lb ca cb w Ha Hb)
    as (Heq & _ & Hab & Hba & _ & _ & Hsp).
  exists (lexicographical_compare_three_way la lb).
  rewrite Heq, Hab, Hba. split; [done|].
  pose proof (std_equal_eq la lb (proj1 Hlaw)) as He.
  destruct (three_way_cases la lb)
    as [(-> & -> & -> & Hne)|[(-> & -> & -> & Hl)|(-> & -> & -> & Hne)]].
  - split_and!; split; try done. intros [= Hs]. by apply He in Hs.
  - apply He in Hl. rewrite Hl. split_and!; split; done.
  - split_and!; split; try done. intros [= Hs]. by apply He in Hs.
Qed.

(** X29.  For an element type with lawful comparisons, [a <= b] holds
    exactly when [a < b] or [a == b] does, and [b >= a] says the same. *)
Theorem operator_le_is_lt_or_eq a b la lb ca cb (w : World T) :
  owns w a la ca -> owns w b lb cb ->
  exists lt eq,
    operator_lt a b w = (Normal lt, w) /\
    operator_eq a b w = (Normal eq, w) /\
    operator_le a b w = (Normal (lt || eq), w) /\
    operator_ge b a w = (Normal (lt || eq), w).
Proof.
  intros Ha Hb.
  destruct (operator_values a b la lb ca cb w Ha Hb)
    as (Heq & _ & Hab & _ & Hle & Hge & _).
  exists (lexicographical_compare la lb), (std_equal la lb).
  rewrite Hle, Hge.
  assert (Hb' : negb (lexicographical_compare lb la)
                = lexicographical_compare la lb || std_equal la lb).
  { pose proof (std_equal_eq la lb (proj1 Hlaw)) as He.
    destruct (three_way_cases la lb)
      as [(_ & -> & -> & Hne)|[(_ & -> & -> & Hl)|(_ & -> & -> & Hne)]]; cbn.
    - done.
    - apply He in Hl. by rewrite Hl.
    - destruct (std_equal la lb); [|done]. exfalso. by apply Hne, He. }
  by rewrite Hb'.
Qed.

End Comparisons.

(** ** The further properties on concrete vectors *)

Lemma owns_world_default : owns world_default 0 [] 0.
Proof.
  exists (mkVector (mkRawMemory nullptr 0) 0).
  split_and!; [by vm_compute..|cbn; lia|by vm_compute].
Qed.

Lemma owns_world_empty_spare : owns world_empty_spare 0 [] 4.
Proof.
  exists (mkVector (mkRawMemory (Ptr 0 0) 4) 0).
  split_and!; [by vm_compute..|cbn; lia|by vm_compute].
Qed.

Lemma lookup_world_123 :
  vecs world_123 !! 0 = Some (mkVector (mkRawMemory (Ptr 0 0) 3) 3).
Proof. by vm_compute. Qed.

Lemma lookup_world_12_spare :
  vecs world_12_spare !! 0 = Some (mkVector (mkRawMemory (Ptr 1 0) 4) 2).
Proof. by vm_compute. Qed.

Lemma lookup_world_empty_spare :
  vecs world_empty_spare !! 0 = Some (mkVector (mkRawMemory (Ptr 0 0) 4) 0).
Proof. by vm_compute. Qed.

Lemma new_in_world_123 : vecs world_123 !! 1 = None.
Proof. by vm_compute. Qed.

Lemma int_lawful : lawful_comparisons int_comparable.
Proof.
  split_and!; intros x y; cbn.
  - apply Z.eqb_eq.
  - by rewrite Z.compare_lt_iff, Z.ltb_lt.
  - by rewrite Z.compare_gt_iff, Z.ltb_lt.
  - apply Z.compare_eq_iff.
Qed.

Lemma Vector_size_ctor_builds_witness :
  vecs (empty_world (T := Z)) !! 5 = None /\
  result (Vector_size_ctor (ET := int_element) no_faults 5 3) empty_world
  = Normal tt.
Proof.
  split; [reflexivity|].
  exact (proj2 (Vector_size_ctor_builds (ET := int_element) no_faults 5 3
                  empty_world eq_refl ltac:(by vm_compute)) (fun _ => eq_refl)).
Defined.

Lemma Vector_copy_ctor_copies_witness :
  owns world_123 0 [1; 2; 3]%Z 3 /\ vecs world_123 !! 1 = None /\
  result (Vector_copy_ctor (ET := int_element) no_faults 1 0) world_123 = Normal tt.
Proof.
  split; [exact owns_world_123|]. split; [exact new_in_world_123|].
  exact (proj2 (Vector_copy_ctor_copies (ET := int_element) no_faults 1 0 _ 3
                  world_123 owns_world_123 new_in_world_123 ltac:(by vm_compute))
           (fun _ => eq_refl)).
Defined.

Lemma Vector_init_list_ctor_holds_list_witness :
  vecs (empty_world (T := Z)) !! 0 = None /\
  result (Vector_init_list_ctor (ET := int_element) no_faults 0 [1; 2]%Z) empty_world = Normal tt.
Proof.
  split; [reflexivity|].
  exact (proj2 (Vector_init_list_ctor_holds_list (ET := int_element) no_faults
                  0 [1; 2]%Z empty_world eq_refl ltac:(by vm_compute)) (fun _ => eq_refl)).
Defined.

Lemma Vector_dtor_releases_everything_witness :
  owns world_123 0 [1; 2; 3]%Z 3 /\
  vecs world_123 !! 0 = Some (mkVector (mkRawMemory (Ptr 0 0) 3) 3) /\
  exists w', Vector_dtor 0 world_123 = (Normal tt, w') /\
             dtors w' = dtors world_123 + 3.
Proof.
  split; [exact owns_world_123|]. split; [exact lookup_world_123|].
  destruct (Vector_dtor_releases_everything 0 _ _ 3 world_123
              owns_world_123 lookup_world_123) as (w' & Hrun & _ & _ & Hd & _).
  exists w'. split; [exact Hrun|exact Hd].
Defined.

Lemma construct_then_destroy_leaks_nothing_witness :
  vecs world_123 !! 1 = None /\ owns world_123 0 [1; 2; 3]%Z 3 /\
  heap (exec (Vector_copy_ctor (ET := int_element) no_faults 1 0 ;;; Vector_dtor 1) world_123)
  = heap world_123.
Proof.
  split; [exact new_in_world_123|]. split; [exact owns_world_123|].
  destruct (construct_then_destroy_leaks_nothing (ET := int_element) no_faults
              1 0 2 [4]%Z _ 3 world_123 new_in_world_123 owns_world_123
              ltac:(by vm_compute) ltac:(by vm_compute) ltac:(by vm_compute))
    as (_ & _ & Hc).
  apply wp_elim in Hc.
  destruct (result (Vector_copy_ctor (ET := int_element) no_faults 1 0 ;;; Vector_dtor 1) world_123)
    as [[]| |]; [exact (proj1 Hc)|exact (proj1 Hc)|destruct Hc].
Defined.

Lemma Clear_keeps_capacity_witness :
  owns world_123 0 [1; 2; 3]%Z 3 /\
  exists w', Clear 0 world_123 = (Normal tt, w') /\ owns w' 0 [] 3.
Proof.
  split; [exact owns_world_123|].
  destruct (Clear_keeps_capacity 0 _ 3 world_123 owns_world_123)
    as (w' & Hrun & Ho & _).
  exists w'. split; [exact Hrun|exact Ho].
Defined.

Lemma Assign_replaces_elements_witness :
  owns world_123 0 [1; 2; 3]%Z 3 /\
  result (Assign (ET := int_element) no_faults 0
            (multi_pass [7; 8; 9; 10]%Z)) world_123 = Normal tt.
Proof.
  split; [exact owns_world_123|].
  destruct (Assign_replaces_elements (ET := int_element) no_faults 0 _ 3
              [7; 8; 9; 10]%Z world_123 owns_world_123 ltac:(intros _; by vm_compute))
    as (_ & _ & Hr & _).
  exact (Hr (fun _ => eq_refl)).
Defined.

Lemma PopBack_removes_last_witness :
  owns world_123 0 [1; 2; 3]%Z 3 /\
  exists w', PopBack 0 world_123 = (Normal tt, w') /\ owns w' 0 [1; 2]%Z 3.
Proof.
  split; [exact owns_world_123|].
  destruct (proj2 (PopBack_removes_last 0 _ 3 world_123 owns_world_123)
              [1; 2]%Z 3%Z eq_refl) as (w' & Hrun & Ho & _).
  exists w'. split; [exact Hrun|exact Ho].
Defined.

Lemma Erase_removes_one_witness :
  owns world_123 0 [1; 2; 3]%Z 3 /\
  vecs world_123 !! 0 = Some (mkVector (mkRawMemory (Ptr 0 0) 3) 3) /\
  1 < 3 /\
  result (Erase (ET := int_element) no_faults 0 (Ptr 0 1)) world_123
  = Normal (Ptr 0 1).
Proof.
  split; [exact owns_world_123|]. split; [exact lookup_world_123|].
  split; [lia|].
  exact (proj2 (Erase_removes_one (ET := int_element) no_faults 0 _ _ 3 1
                  world_123 owns_world_123 lookup_world_123 ltac:(cbn; lia)
                  ltac:(by vm_compute))
           (fun _ => eq_refl)).
Defined.

Lemma Erase_at_end_is_undefined_witness :
  owns world_123 0 [1; 2; 3]%Z 3 /\
  exists e, end_ 0 world_123 = (Normal e, world_123) /\
            result (Erase (ET := int_element) no_faults 0 e) world_123 = Undefined.
Proof.
  split; [exact owns_world_123|].
  exact (Erase_at_end_is_undefined (ET := int_element) no_faults 0 _ 3 world_123
           owns_world_123 ltac:(by vm_compute)).
Defined.

Lemma Swap_is_an_involution_witness :
  owns world_7_12 0 [7]%Z 1 /\ owns world_7_12 1 [1; 2]%Z 2 /\
  (Swap 0 1 ;;; Swap 0 1) world_7_12 = (Normal tt, world_7_12).
Proof.
  split; [exact owns_world_7_12_a|]. split; [exact owns_world_7_12_b|].
  exact (proj1 (Swap_is_an_involution 0 1 _ 1 _ 2 world_7_12
                  owns_world_7_12_a owns_world_7_12_b)).
Defined.

Lemma ShrinkToFit_capacity_is_size_witness :
  owns world_12_spare 0 [1; 2]%Z 4 /\
  result (ShrinkToFit (ET := int_element) no_faults 0) world_12_spare = Normal tt.
Proof.
  split; [exact owns_world_12_spare|].
  exact (proj2 (ShrinkToFit_capacity_is_size (ET := int_element) no_faults 0 _ 4
                  world_12_spare owns_world_12_spare ltac:(intros _; by vm_compute))
           (fun _ => eq_refl)).
Defined.

Lemma ShrinkToFit_empty_leaks_block_witness :
  owns world_empty_spare 0 [] 4 /\
  vecs world_empty_spare !! 0 = Some (mkVector (mkRawMemory (Ptr 0 0) 4) 0) /\
  0 < 4 /\
  heap (exec (Vector_dtor 0)
          (exec (ShrinkToFit (ET := int_element) no_faults 0) world_empty_spare))
  = heap world_empty_spare.
Proof.
  split; [exact owns_world_empty_spare|]. split; [exact lookup_world_empty_spare|].
  split; [lia|].
  destruct (ShrinkToFit_empty_leaks_block (ET := int_element) no_faults 0 _ 4
              world_empty_spare owns_world_empty_spare lookup_world_empty_spare
              ltac:(lia)) as (b & _ & _ & _ & _ & _ & _ & Hh).
  exact Hh.
Defined.

Lemma Emplace_at_end_throw_releases_buffer_witness :
  owns world_empty_spare 0 [] 4 /\
  vecs world_empty_spare !! 0 = Some (mkVector (mkRawMemory (Ptr 0 0) 4) 0) /\
  0 < 4 /\ fault_at 1 (ops world_empty_spare) = true /\
  exists w',
    Emplace (ET := int_element) (fault_at 1) 0 (Ptr 0 0) 9%Z world_empty_spare
    = (Thrown, w') /\
    result (Vector_dtor 0) w' = Undefined.
Proof.
  split; [exact owns_world_empty_spare|]. split; [exact lookup_world_empty_spare|].
  split; [lia|]. split; [reflexivity|].
  destruct (Emplace_at_end_throw_releases_buffer (ET := int_element) (fault_at 1)
              0 _ [] 9%Z 4 world_empty_spare owns_world_empty_spare
              lookup_world_empty_spare ltac:(cbn; lia) eq_refl)
    as (_ & _ & He & _).
  destruct (He eq_refl) as (b & w' & _ & _ & Hrun & _ & _ & Hd & _).
  exists w'. split; [exact Hrun|exact Hd].
Defined.

Lemma append_with_spare_capacity_witness :
  owns world_12_spare 0 [1; 2]%Z 4 /\
  vecs world_12_spare !! 0 = Some (mkVector (mkRawMemory (Ptr 1 0) 4) 2) /\
  2 < 4 /\
  owns (exec (PushBack (ET := int_element) no_faults 0 5%Z) world_12_spare)
    0 [1; 2; 5]%Z 4.
Proof.
  split; [exact owns_world_12_spare|]. split; [exact lookup_world_12_spare|].
  split; [lia|].
  destruct (append_with_spare_capacity (ET := int_element) no_faults 0 _ _ 4 5%Z
              world_12_spare owns_world_12_spare lookup_world_12_spare
              ltac:(cbn; lia)) as [Hp _].
  apply wp_elim in Hp.
  assert (Hr : result (PushBack (ET := int_element) no_faults 0 5%Z) world_12_spare
               = Normal tt) by (by vm_compute).
  rewrite Hr in Hp. exact (proj1 Hp).
Defined.

Lemma At_checks_by_assertion_witness :
  owns world_123 0 [1; 2; 3]%Z 3 /\ 3 <= 7 /\
  result (At 0 7) world_123 = Undefined.
Proof.
  split; [exact owns_world_123|]. split; [lia|].
  destruct (At_checks_by_assertion 0 _ 3 7 world_123 owns_world_123)
    as (_ & Hout & _).
  exact (Hout ltac:(cbn; lia)).
Defined.

Lemma Front_Back_access_witness :
  owns world_123 0 [1; 2; 3]%Z 3 /\
  exists p, Back 0 world_123 = (Normal p, world_123) /\
            get_obj p world_123 = (Normal 3%Z, world_123).
Proof.
  split; [exact owns_world_123|].
  destruct (Front_Back_access 0 _ 3 world_123 owns_world_123) as (_ & _ & Hb).
  exact (Hb [1; 2]%Z 3%Z eq_refl).
Defined.

Lemma Resize_edge_cases_witness :
  owns world_123 0 [1; 2; 3]%Z 3 /\
  Resize (ET := int_element) no_faults 0 3 world_123 = (Normal tt, world_123) /\
  Resize (ET := int_element) no_faults 0 0 world_123 = Clear 0 world_123.
Proof.
  split; [exact owns_world_123|].
  exact (Resize_edge_cases (ET := int_element) no_faults 0 _ 3 world_123
           owns_world_123).
Defined.

Lemma copy_assign_reallocation_is_strong_witness :
  0 <> 1 /\ owns world_7_12 0 [7]%Z 1 /\ owns world_7_12 1 [1; 2]%Z 2 /\
  separate world_7_12 0 1 /\ 1 < 2 /\
  owns (exec (copy_assign (ET := int_element) no_faults 0 1) world_7_12) 0 [1; 2]%Z 2.
Proof.
  split; [lia|]. split; [exact owns_world_7_12_a|].
  split; [exact owns_world_7_12_b|]. split; [exact separate_world_7_12|].
  split; [lia|].
  pose proof (copy_assign_reallocation_is_strong (ET := int_element) no_faults 0 1 _ 1 _ 2 world_7_12
                ltac:(lia) owns_world_7_12_a owns_world_7_12_b
                separate_world_7_12 ltac:(cbn; lia) ltac:(by vm_compute)) as Hc.
  apply wp_elim in Hc.
  assert (Hr : result (copy_assign (ET := int_element) no_faults 0 1) world_7_12 = Normal tt)
    by (by vm_compute).
  rewrite Hr in Hc. exact (proj1 Hc).
Defined.

Lemma Reserve_throw_behaviour_witness :
  owns world_123 0 [1; 2; 3]%Z 3 /\ 3 < 8 /\
  result (Reserve (ET := move_only_element) (fault_at 6) 0 8) world_123 = Thrown /\
  vecs (exec (Reserve (ET := move_only_element) (fault_at 6) 0 8) world_123)
  = vecs world_123.
Proof.
  assert (Hr : result (Reserve (ET := move_only_element) (fault_at 6) 0 8) world_123
               = Thrown) by (by vm_compute).
  split; [exact owns_world_123|]. split; [lia|]. split; [exact Hr|].
  exact (proj1 (Reserve_throw_behaviour (ET := move_only_element) (fault_at 6)
                  0 _ 3 8 world_123 owns_world_123 ltac:(lia) ltac:(by vm_compute) Hr)).
Defined.

Lemma const_reverse_iteration_witness :
  owns world_123 0 [1; 2; 3]%Z 3 /\
  (first <- crbegin 0 ;; last <- crend 0 ;; reverse_range first last) world_123
  = (Normal [3; 2; 1]%Z, world_123).
Proof.
  split; [exact owns_world_123|].
  exact (proj1 (const_reverse_iteration 0 _ 3 world_123 owns_world_123)).
Defined.

Lemma nonconst_reverse_iterators_are_swapped_witness :
  owns world_123 0 [1; 2; 3]%Z 3 /\
  result (first <- rbein 0 ;; get_obj (reverse_deref first)) world_123 = Undefined.
Proof.
  split; [exact owns_world_123|].
  destruct (nonconst_reverse_iterators_are_swapped 0 _ 3 world_123 owns_world_123)
    as (_ & _ & Hd & _).
  exact Hd.
Defined.

Lemma PushBack_growth_bounds_witness :
  owns world_default 0 [] 0 /\ tight 0 0 /\
  wp
    (run_back_ops (ET := int_element) no_faults 0 (Push <$> [1; 2; 3; 4; 5]%Z))
    world_default
    (fun _ w' => exists cap', owns w' 0 [1; 2; 3; 4; 5]%Z cap' /\ doubled 5 cap')
    (fun _ => faulted no_faults 0)
    False.
Proof.
  assert (Ht : tight 0 0) by (split; [lia|by left]).
  split; [exact owns_world_default|]. split; [exact Ht|].
  exact (proj2 (PushBack_growth_bounds (ET := int_element) no_faults 0
                  [1; 2; 3; 4; 5]%Z [] 0 world_default owns_world_default
                  ltac:(by vm_compute))
           eq_refl eq_refl).
Defined.

Lemma EmplaceBack_returns_new_element_witness :
  owns world_123 0 [1; 2; 3]%Z 3 /\
  exists r, result (EmplaceBack (ET := int_element) no_faults 0 4%Z) world_123
            = Normal r.
Proof.
  split; [exact owns_world_123|].
  exact (proj2 (EmplaceBack_returns_new_element (ET := int_element) no_faults
                  0 _ 3 4%Z world_123 owns_world_123 ltac:(intros _; by vm_compute))
           (fun _ => eq_refl)).
Defined.

Lemma Resize_throw_keeps_elements_witness :
  owns world_123 0 [1; 2; 3]%Z 3 /\
  (is_nothrow_move_constructible (ElementType := int_element) = true \/
   is_copy_constructible (ElementType := int_element) = true) /\
  result (Resize (ET := int_element) (fault_at 9) 0 5) world_123 = Thrown /\
  exists cap',
    owns (exec (Resize (ET := int_element) (fault_at 9) 0 5) world_123)
      0 [1; 2; 3]%Z cap'.
Proof.
  assert (Hr : result (Resize (ET := int_element) (fault_at 9) 0 5) world_123
               = Thrown) by (by vm_compute).
  split; [exact owns_world_123|]. split; [left; reflexivity|]. split; [exact Hr|].
  destruct (Resize_throw_keeps_elements (ET := int_element) (fault_at 9) 0 _ 3 5
              world_123 owns_world_123 ltac:(intros _; by vm_compute) (or_introl eq_refl) Hr)
    as (_ & cap' & Ho & _).
  exists cap'. exact Ho.
Defined.

Lemma operator_eq_decides_equality_witness :
  (forall x y : Z, elt_eq (Comparable := int_comparable) x y = true <-> x = y) /\
  owns world_124_123 0 [1; 2; 4]%Z 3 /\ owns world_124_123 1 [1; 2; 3]%Z 3 /\
  exists r,
    operator_eq (CT := int_comparable) 0 1 world_124_123
    = (Normal r, world_124_123) /\
    (r = true <-> [1; 2; 4]%Z = [1; 2; 3]%Z) /\
    operator_ne (CT := int_comparable) 0 1 world_124_123
    = (Normal (negb r), world_124_123).
Proof.
  split; [exact Z.eqb_eq|]. split; [exact owns_world_124_123_a|].
  split; [exact owns_world_124_123_b|].
  exact (operator_eq_decides_equality (CT := int_comparable) 0 1 _ _ 3 3
           world_124_123 Z.eqb_eq owns_world_124_123_a owns_world_124_123_b).
Defined.

Lemma spaceship_agrees_with_lt_and_eq_witness :
  lawful_comparisons int_comparable /\
  owns world_124_123 0 [1; 2; 4]%Z 3 /\ owns world_124_123 1 [1; 2; 3]%Z 3 /\
  exists c,
    operator_spaceship (CT := int_comparable) 0 1 world_124_123
    = (Normal c, world_124_123) /\
    (c = Gt <-> operator_lt (CT := int_comparable) 1 0 world_124_123
                = (Normal true, world_124_123)).
Proof.
  split; [exact int_lawful|]. split; [exact owns_world_124_123_a|].
  split; [exact owns_world_124_123_b|].
  destruct (spaceship_agrees_with_lt_and_eq int_lawful 0 1 _ _ 3 3 world_124_123
              owns_world_124_123_a owns_world_124_123_b)
    as (c & Hc & _ & _ & Hgt).
  exists c. split; [exact Hc|exact Hgt].
Defined.

Lemma operator_le_is_lt_or_eq_witness :
  lawful_comparisons int_comparable /\
  owns world_124_123 1 [1; 2; 3]%Z 3 /\ owns world_124_123 0 [1; 2; 4]%Z 3 /\
  exists lt eq,
    operator_lt (CT := int_comparable) 1 0 world_124_123
    = (Normal lt, world_124_123) /\
    operator_eq (CT := int_comparable) 1 0 world_124_123
    = (Normal eq, world_124_123) /\
    operator_le (CT := int_comparable) 1 0 world_124_123
    = (Normal (lt || eq), world_124_123) /\
    operator_ge (CT := int_comparable) 0 1 world_124_123
    = (Normal (lt || eq), world_124_123).
Proof.
  split; [exact int_lawful|]. split; [exact owns_world_124_123_b|].
  split; [exact owns_world_124_123_a|].
  exact (operator_le_is_lt_or_eq int_lawful 1 0 _ _ 3 3 world_124_123
           owns_world_124_123_b owns_world_124_123_a).
Defined.

Lemma append_copy_throw_loses_new_element_witness :
  owns world_123 0 [1; 2; 3]%Z 3 /\
  moves_elements (ET := throwing_element) = false /\
  fault_at 7 (ops world_123) = false /\ fault_at 7 (S (ops world_123)) = false /\
  result (PushBack (ET := throwing_element) (fault_at 7) 0 4%Z) world_123 = Thrown /\
  undestroyed (exec (PushBack (ET := throwing_element) (fault_at 7) 0 4%Z) world_123)
  = S (undestroyed world_123).
Proof.
  assert (Hr : result (PushBack (ET := throwing_element) (fault_at 7) 0 4%Z)
                 world_123 = Thrown) by (by vm_compute).
  split; [exact owns_world_123|]. split; [reflexivity|].
  split; [reflexivity|]. split; [reflexivity|]. split; [exact Hr|].
  destruct (append_copy_throw_loses_new_element (ET := throwing_element)
              (fault_at 7) 0 _ 4%Z world_123 owns_world_123
              eq_refl eq_refl eq_refl ltac:(by vm_compute)) as [Hp _].
  exact (proj1 (proj2 (proj2 (Hp Hr)))).
Defined.
